(** * UniCow / DebtHook loan-order batch matching

    A shallow embedding of [operator/matching.ts] (with the record types of
    [operator/utils.ts]) and the properties of the matching pipeline:
    partition generation, feasibility filtering, result evaluation,
    best-result selection and settlement-transfer computation.

    Conventions of the embedding:
    - a TypeScript [bigint] is a [Z]; [/] on bigints truncates toward zero
      and is [Z.quot];
    - [Mathb.min] and [Mathb.max] come from the module [./math], which is
      not part of the sources at hand; see [Mathb_min] and [Mathb_max];
    - a [bigDecimal] produced by this program always carries four
      fractional digits ([divide (_, 4, FLOOR)] or the constant zero); it
      is represented by its value scaled by 10^4, and [compareTo] is the
      comparison of those scaled values;
    - arrays are lists, in their JavaScript order. *)

From Stdlib Require Import String.
From Stdlib Require Import DecimalString.
From Stdlib Require Import ZArith List Lia Bool Arith Permutation Sorted.

Import ListNotations.

Local Open Scope string_scope.
Local Open Scope list_scope.
Local Open Scope Z_scope.

(** * Data model: the records of [utils.ts] *)

(** [LoanTask]: the fields read by the matching code.  The remaining
    fields of the TypeScript type (order id, order data, creation block,
    collateral, result slots) are never read by [matching.ts]. *)
Module Task.
Record t : Type := mk {
    isLender : bool;
    principalAmount : Z;
    interestRateBips : Z;
    maturityTimestamp : Z;
    sender : string;
    taskId : nat
  }.
End Task.
Abbreviation LoanTask := Task.t.

Inductive LoanFeasibility : Type :=
| NONE
| FULL_MATCH
| PARTIAL_LENDER
| PARTIAL_BORROWER
| PARTIAL_BOTH
| NO_RATE_OVERLAP
| MATURITY_MISMATCH.

Definition LoanFeasibility_eqb (a b : LoanFeasibility) : bool :=
  match a, b with
  | NONE, NONE | FULL_MATCH, FULL_MATCH | PARTIAL_LENDER, PARTIAL_LENDER
  | PARTIAL_BORROWER, PARTIAL_BORROWER | PARTIAL_BOTH, PARTIAL_BOTH
  | NO_RATE_OVERLAP, NO_RATE_OVERLAP
  | MATURITY_MISMATCH, MATURITY_MISMATCH => true
  | _, _ => false
  end.

(** Fixed-point decimal with four fractional digits, stored scaled. *)
Definition bigDecimal : Type := Z.

Definition bigDecimal_zero : bigDecimal := 0.

(** [new bigDecimal(a).divide(new bigDecimal(b), 4, FLOOR)] for bigints
    [a] and [b]. *)
Definition bigDecimal_divide_floor (a b : Z) : bigDecimal := (a * 10000) / b.

(** [x.compareTo(y)]: negative, zero or positive. *)
Definition compareTo (x y : bigDecimal) : Z :=
  match x ?= y with
  | Lt => -1
  | Eq => 0
  | Gt => 1
  end.

Module Matching.
Record t : Type := mk {
    loanTasks : list LoanTask;
    feasibility : LoanFeasibility;
    totalLenderAmount : Z;
    totalBorrowerAmount : Z;
    matchedAmount : Z;
    effectiveRate : Z;
    maturityTimestamp : Z
  }.
End Matching.
Abbreviation LoanMatching := Matching.t.

Module Result.
Record t : Type := mk {
    matchings : list LoanMatching;
    averageLenderRate : bigDecimal;
    averageBorrowerRate : bigDecimal;
    totalLenderAmount : Z;
    totalBorrowerAmount : Z;
    totalMatchedAmount : Z;
    unmatchedLenderAmount : Z;
    unmatchedBorrowerAmount : Z;
    feasible : bool;
    feasibilityType : LoanFeasibility;
    rateSpread : bigDecimal;
    matchingEfficiency : bigDecimal
  }.
End Result.
Abbreviation LoanMatchingResult := Result.t.

(** [LoanTransfer] of [matching.ts]. *)
Module Transfer.
Record t : Type := mk {
    lender : string;
    borrower : string;
    amount : Z;
    rate : Z;
    maturityTimestamp : Z
  }.
End Transfer.
Abbreviation LoanTransfer := Transfer.t.

(** How a call ends: with a value, or by throwing an error of some name.
    A value of type [option A] stands for [A | undefined]. *)
Inductive completion (A : Type) : Type :=
| Normal (v : A)
| Throw (name : string).
Arguments Normal {A} v.
Arguments Throw {A} name.

(** Modelled from the spec: [Mathb.min] of the module [./math], whose
    source is missing; the specification reads its uses as the minimum of
    two exact integers ("matchedAmount = min(totalLenderAmount,
    totalBorrowerAmount)", "allocate min(remaining borrowerShare,
    remaining lenderShare)"). *)
Definition Mathb_min (a b : Z) : Z := Z.min a b.

(** Modelled from the spec: [Mathb.max] of the module [./math], whose
    source is missing; the specification reads its use as the maximum of
    two exact integers ("maxBorrowerRate across the group"). *)
Definition Mathb_max (a b : Z) : Z := Z.max a b.

(** * The matching code of [matching.ts] *)

(** ** Partition generation: [generateLoanTaskCombinations] *)

(** [String(n)] for a task id, a non-negative integer. *)
Definition number_to_string (n : nat) : string :=
  NilEmpty.string_of_uint (Nat.to_uint n).

(** [Array.prototype.sort()] without a comparator orders by the string
    forms of the elements, compared by code units.  On the ids of a group,
    which are distinct, the sorted array does not depend on the sorting
    algorithm; it is computed here by insertion. *)
Definition default_sort_leb (a b : nat) : bool :=
  String.leb (number_to_string a) (number_to_string b).

Fixpoint default_sort_insert (x : nat) (l : list nat) : list nat :=
  match l with
  | [] => [x]
  | y :: l' =>
      if default_sort_leb x y then x :: l else y :: default_sort_insert x l'
  end.

Definition default_sort (l : list nat) : list nat :=
  fold_right default_sort_insert [] l.

(** The deduplication key.  [JSON.stringify] is injective on arrays of
    arrays of integers, so the key is kept as the nested array itself. *)
Definition combination_key (combination : list (list LoanTask))
  : list (list nat) :=
  map (fun group => default_sort (map Task.taskId group)) combination.

Definition key_eq_dec (k k' : list (list nat)) : {k = k'} + {k <> k'} :=
  list_eq_dec (list_eq_dec Nat.eq_dec) k k'.

(** The [filter] of [removeDuplicates], with the set [uniqueCombinations]
    of keys seen so far as its state. *)
Fixpoint removeDuplicates_from (uniqueCombinations : list (list (list nat)))
    (combinations : list (list (list LoanTask))) : list (list (list LoanTask)) :=
  match combinations with
  | [] => []
  | combination :: rest =>
      let key := combination_key combination in
      if in_dec key_eq_dec key uniqueCombinations
      then removeDuplicates_from uniqueCombinations rest
      else combination :: removeDuplicates_from (key :: uniqueCombinations) rest
  end.

Definition removeDuplicates (combinations : list (list (list LoanTask)))
  : list (list (list LoanTask)) :=
  removeDuplicates_from [] combinations.

(** [[...subComb.slice(0, i), [firstTask, ...subComb[i]],
      ...subComb.slice(i + 1)]]; with [i = 0] this is the "first group"
    push.  (An empty [subComb] would put [undefined] next to [firstTask];
    no generated combination is empty, see [generator_enumerates].) *)
Definition combine_at (firstTask : LoanTask) (subComb : list (list LoanTask))
    (i : nat) : list (list LoanTask) :=
  firstn i subComb ++ [firstTask :: nth i subComb []] ++ skipn (S i) subComb.

Definition combined_with (firstTask : LoanTask)
    (subComb : list (list LoanTask)) : list (list (list LoanTask)) :=
  combine_at firstTask subComb 0
  :: map (combine_at firstTask subComb) (seq 1 (length subComb - 1)).

Fixpoint generateLoanTaskCombinations (tasks : list LoanTask)
  : list (list (list LoanTask)) :=
  match tasks with
  | [] => []
  | firstTask :: restTasks =>
      match restTasks with
      | [] => [[[firstTask]]]
      | _ :: _ =>
          let subCombinations := generateLoanTaskCombinations restTasks in
          removeDuplicates
            (([[firstTask]; restTasks]
                :: map (fun subComb => [firstTask] :: subComb) subCombinations)
               ++ flat_map (combined_with firstTask) subCombinations)
      end
  end.

(** ** The two sides of a group and their maturity sets *)

Definition lenders_of (matching : list LoanTask) : list LoanTask :=
  filter (fun task => Task.isLender task) matching.

Definition borrowers_of (matching : list LoanTask) : list LoanTask :=
  filter (fun task => negb (Task.isLender task)) matching.

(** [new Set(xs)]: the distinct elements in order of first insertion.
    The program keys the sets by [toString()] of a bigint, which is
    injective, so the elements are kept as integers. *)
Definition js_set (xs : list Z) : list Z :=
  fold_left (fun s x => if existsb (Z.eqb x) s then s else s ++ [x]) xs [].

Definition set_has (s : list Z) (x : Z) : bool := existsb (Z.eqb x) s.

(** ** Feasibility filter: [isLoanCombinationPossible] *)

(** The filter compares rates after [Number(...)].  A bigint converts to
    the nearest double, ties to even, and overflows to an infinity; every
    value so obtained is an integer or an infinity. *)
Inductive jsnumber : Type :=
| NegInfinity
| Finite (z : Z)
| PosInfinity.

(** Nearest integer with a 53-bit significand, for [a >= 0]. *)
Definition round_to_double (a : Z) : Z :=
  let e := Z.log2 a - 52 in
  if e <=? 0 then a
  else
    let q := Z.shiftr a e in
    let r := a - Z.shiftl q e in
    let half := Z.shiftl 1 (e - 1) in
    let q' := if r <? half then q
              else if half <? r then q + 1
              else if Z.even q then q else q + 1 in
    Z.shiftl q' e.

Definition Number (z : Z) : jsnumber :=
  let a := round_to_double (Z.abs z) in
  if 2 ^ 1024 <=? a
  then (if z <? 0 then NegInfinity else PosInfinity)
  else Finite (Z.sgn z * a).

Definition number_leb (x y : jsnumber) : bool :=
  match x, y with
  | NegInfinity, _ => true
  | _, PosInfinity => true
  | Finite a, Finite b => a <=? b
  | _, _ => false
  end.

Definition number_gtb (x y : jsnumber) : bool := negb (number_leb x y).

(** [Math.min(...xs)] and [Math.max(...xs)], also on no argument. *)
Definition Math_min (xs : list jsnumber) : jsnumber :=
  fold_left (fun acc x => if number_leb acc x then acc else x) xs PosInfinity.

Definition Math_max (xs : list jsnumber) : jsnumber :=
  fold_left (fun acc x => if number_leb x acc then acc else x) xs NegInfinity.

Definition rates_as_numbers (side : list LoanTask) : list jsnumber :=
  map (fun task => Number (Task.interestRateBips task)) side.

Definition hasCommonMaturity (lenders borrowers : list LoanTask) : bool :=
  let lenderMaturities := js_set (map Task.maturityTimestamp lenders) in
  let borrowerMaturities := js_set (map Task.maturityTimestamp borrowers) in
  existsb (set_has borrowerMaturities) lenderMaturities.

(** The checks on one group of more than one task. *)
Definition group_possible (matching : list LoanTask) : bool :=
  let lenders := lenders_of matching in
  let borrowers := borrowers_of matching in
  if (length lenders =? 0)%nat || (length borrowers =? 0)%nat then false
  else if number_gtb (Math_min (rates_as_numbers lenders))
                     (Math_max (rates_as_numbers borrowers))
  then false
  else hasCommonMaturity lenders borrowers.

Fixpoint isLoanCombinationPossible (combination : list (list LoanTask)) : bool :=
  match combination with
  | [] => true
  | matching :: rest =>
      if (length matching =? 1)%nat then isLoanCombinationPossible rest
      else if group_possible matching then isLoanCombinationPossible rest
      else false
  end.

(** ** Result evaluation: [computeLoanMatchingResult] *)

Definition MAX_SAFE_INTEGER : Z := 9007199254740991.

(** The two accumulation loops over [lenders] and over [borrowers]. *)
Definition availableAmount (side : list LoanTask) : Z :=
  fold_left (fun acc task => acc + Task.principalAmount task) side 0.

Definition minLenderRate (lenders : list LoanTask) : Z :=
  fold_left (fun acc lender => Mathb_min acc (Task.interestRateBips lender))
            lenders MAX_SAFE_INTEGER.

Definition maxBorrowerRate (borrowers : list LoanTask) : Z :=
  fold_left (fun acc borrower => Mathb_max acc (Task.interestRateBips borrower))
            borrowers 0.

(** [common.sort((a, b) => Number(a - b))]: ascending numeric order. *)
Fixpoint insert_ascending (x : Z) (l : list Z) : list Z :=
  match l with
  | [] => [x]
  | y :: l' => if x <=? y then x :: l else y :: insert_ascending x l'
  end.

Definition sort_ascending (l : list Z) : list Z :=
  fold_right insert_ascending [] l.

Definition findCommonMaturities (lenders borrowers : list LoanTask) : list Z :=
  let lenderMaturities := js_set (map Task.maturityTimestamp lenders) in
  let borrowerMaturities := js_set (map Task.maturityTimestamp borrowers) in
  sort_ascending (filter (set_has borrowerMaturities) lenderMaturities).

(** The variables that the loop over the groups updates. *)
Module Acc.
Record t : Type := mk {
    matchings : list LoanMatching;
    totalLenderAmount : Z;
    totalBorrowerAmount : Z;
    totalMatchedAmount : Z;
    weightedLenderRate : Z;
    weightedBorrowerRate : Z
  }.
End Acc.

Definition push_matching (st : Acc.t) (m : LoanMatching) : Acc.t :=
  Acc.mk (Acc.matchings st ++ [m]) (Acc.totalLenderAmount st)
         (Acc.totalBorrowerAmount st) (Acc.totalMatchedAmount st)
         (Acc.weightedLenderRate st) (Acc.weightedBorrowerRate st).

(** One iteration of [for (const matching of combination)]. *)
Definition process_matching (st : Acc.t) (matching : list LoanTask) : Acc.t :=
  let lenders := lenders_of matching in
  let borrowers := borrowers_of matching in
  match matching with
  | [task] =>
      let p := Task.principalAmount task in
      Acc.mk
        (Acc.matchings st ++
           [Matching.mk [task] NONE
              (if Task.isLender task then p else 0)
              (if negb (Task.isLender task) then p else 0)
              0 0 (Task.maturityTimestamp task)])
        (if Task.isLender task then Acc.totalLenderAmount st + p
         else Acc.totalLenderAmount st)
        (if Task.isLender task then Acc.totalBorrowerAmount st
         else Acc.totalBorrowerAmount st + p)
        (Acc.totalMatchedAmount st)
        (Acc.weightedLenderRate st) (Acc.weightedBorrowerRate st)
  | _ =>
      let availableLenderAmount := availableAmount lenders in
      let availableBorrowerAmount := availableAmount borrowers in
      let minLenderRate := minLenderRate lenders in
      let maxBorrowerRate := maxBorrowerRate borrowers in
      if minLenderRate >? maxBorrowerRate then
        push_matching st
          (Matching.mk matching NO_RATE_OVERLAP availableLenderAmount
             availableBorrowerAmount 0 0 0)
      else
        match findCommonMaturities lenders borrowers with
        | [] =>
            push_matching st
              (Matching.mk matching MATURITY_MISMATCH availableLenderAmount
                 availableBorrowerAmount 0 0 0)
        | earliest :: _ =>
            let matchedAmountLocal :=
              Mathb_min availableLenderAmount availableBorrowerAmount in
            let effectiveRate := Z.quot (minLenderRate + maxBorrowerRate) 2 in
            let feasibility :=
              if availableLenderAmount =? availableBorrowerAmount
              then FULL_MATCH
              else if availableLenderAmount >? availableBorrowerAmount
                   then PARTIAL_LENDER
                   else PARTIAL_BORROWER in
            Acc.mk
              (Acc.matchings st ++
                 [Matching.mk matching feasibility availableLenderAmount
                    availableBorrowerAmount matchedAmountLocal effectiveRate
                    earliest])
              (Acc.totalLenderAmount st + availableLenderAmount)
              (Acc.totalBorrowerAmount st + availableBorrowerAmount)
              (Acc.totalMatchedAmount st + matchedAmountLocal)
              (Acc.weightedLenderRate st + effectiveRate * matchedAmountLocal)
              (Acc.weightedBorrowerRate st + effectiveRate * matchedAmountLocal)
        end
  end.

Definition is_feasibility (f : LoanFeasibility) (m : LoanMatching) : bool :=
  LoanFeasibility_eqb (Matching.feasibility m) f.

Definition determineFeasibilityType (matchings : list LoanMatching)
  : LoanFeasibility :=
  let hasMatches :=
    existsb (fun m => is_feasibility FULL_MATCH m
                      || is_feasibility PARTIAL_LENDER m
                      || is_feasibility PARTIAL_BORROWER m) matchings in
  if negb hasMatches then NONE
  else
    let allFull :=
      forallb (fun m => is_feasibility FULL_MATCH m || is_feasibility NONE m)
              matchings in
    if allFull then FULL_MATCH
    else
      let hasPartialLender := existsb (is_feasibility PARTIAL_LENDER) matchings in
      let hasPartialBorrower :=
        existsb (is_feasibility PARTIAL_BORROWER) matchings in
      if hasPartialLender && hasPartialBorrower then PARTIAL_BOTH
      else if hasPartialLender then PARTIAL_LENDER
      else PARTIAL_BORROWER.

Definition initial_acc : Acc.t := Acc.mk [] 0 0 0 0 0.

Definition computeLoanMatchingResult (combination : list (list LoanTask))
  : LoanMatchingResult :=
  let st := fold_left process_matching combination initial_acc in
  let totalLenderAmount := Acc.totalLenderAmount st in
  let totalBorrowerAmount := Acc.totalBorrowerAmount st in
  let totalMatchedAmount := Acc.totalMatchedAmount st in
  let isResultFeasible := totalMatchedAmount >? 0 in
  let averageLenderRate :=
    if totalMatchedAmount >? 0
    then bigDecimal_divide_floor (Acc.weightedLenderRate st) totalMatchedAmount
    else bigDecimal_zero in
  let totalAmount := totalLenderAmount + totalBorrowerAmount in
  Result.mk
    (Acc.matchings st)
    averageLenderRate
    averageLenderRate
    totalLenderAmount
    totalBorrowerAmount
    totalMatchedAmount
    (totalLenderAmount - totalMatchedAmount)
    (totalBorrowerAmount - totalMatchedAmount)
    isResultFeasible
    (determineFeasibilityType (Acc.matchings st))
    bigDecimal_zero
    (if totalAmount >? 0
     then bigDecimal_divide_floor (totalMatchedAmount * 2) totalAmount
     else bigDecimal_zero).

(** ** Best-result selection: [computeBestLoanResult] *)

(** The nested comparison of the loop body: does [result] replace
    [bestResult]? *)
Definition replaces (result bestResult : LoanMatchingResult) : bool :=
  if Result.totalMatchedAmount result >? Result.totalMatchedAmount bestResult
  then true
  else if Result.totalMatchedAmount result =? Result.totalMatchedAmount bestResult
  then
    if compareTo (Result.matchingEfficiency result)
                 (Result.matchingEfficiency bestResult) >? 0
    then true
    else if compareTo (Result.matchingEfficiency result)
                      (Result.matchingEfficiency bestResult) =? 0
    then compareTo (Result.averageBorrowerRate result)
                   (Result.averageBorrowerRate bestResult) <? 0
    else false
  else false.

(** The [for] loop, with [bestResult] ([None] is [null]) as its state. *)
Fixpoint best_loop (bestResult : option LoanMatchingResult)
    (possibleResults : list LoanMatchingResult) : option LoanMatchingResult :=
  match possibleResults with
  | [] => bestResult
  | result :: rest =>
      if negb (Result.feasible result) then best_loop bestResult rest
      else
        match bestResult with
        | None => best_loop (Some result) rest
        | Some best =>
            best_loop (Some (if replaces result best then result else best)) rest
        end
  end.

(** [return bestResult || possibleResults[0]]: indexing an empty array
    yields [undefined]; nothing is thrown on any path. *)
Definition computeBestLoanResult (possibleResults : list LoanMatchingResult)
  : completion (option LoanMatchingResult) :=
  Normal match best_loop None possibleResults with
         | Some best => Some best
         | None => nth_error possibleResults 0%nat
         end.

(** ** Settlement transfers: [computeLoanTransfers]

    Only the [transfers] array is modelled; the [analysis] record holds
    formatted text for display and feeds nothing back. *)

Definition could_not_be_matched (f : LoanFeasibility) : bool :=
  match f with
  | NONE | NO_RATE_OVERLAP | MATURITY_MISMATCH => true
  | _ => false
  end.

Definition borrowerShare (matching : LoanMatching) (borrower : LoanTask) : Z :=
  if Matching.totalBorrowerAmount matching >? 0
  then Z.quot (Task.principalAmount borrower * Matching.matchedAmount matching)
              (Matching.totalBorrowerAmount matching)
  else 0.

Definition lenderShare (matching : LoanMatching) (lender : LoanTask) : Z :=
  if Matching.totalLenderAmount matching >? 0
  then Z.quot (Task.principalAmount lender * Matching.matchedAmount matching)
              (Matching.totalLenderAmount matching)
  else 0.

(** The inner loop over the lenders for one borrower; the state is
    [borrowerRemaining], and an exhausted borrower breaks the loop. *)
Fixpoint lender_loop (matching : LoanMatching) (borrower : LoanTask)
    (lenders : list LoanTask) (borrowerRemaining : Z) : list LoanTransfer :=
  match lenders with
  | [] => []
  | lender :: rest =>
      if borrowerRemaining =? 0 then []
      else
        let transferAmount :=
          Mathb_min borrowerRemaining (lenderShare matching lender) in
        if transferAmount >? 0
        then Transfer.mk (Task.sender lender) (Task.sender borrower)
               transferAmount (Matching.effectiveRate matching)
               (Matching.maturityTimestamp matching)
             :: lender_loop matching borrower rest
                  (borrowerRemaining - transferAmount)
        else lender_loop matching borrower rest borrowerRemaining
  end.

Definition matching_transfers (matching : LoanMatching) : list LoanTransfer :=
  if could_not_be_matched (Matching.feasibility matching) then []
  else
    let lenders := lenders_of (Matching.loanTasks matching) in
    let borrowers := borrowers_of (Matching.loanTasks matching) in
    flat_map (fun borrower =>
                lender_loop matching borrower lenders
                  (borrowerShare matching borrower))
             borrowers.

Definition computeLoanTransfers (result : LoanMatchingResult)
  : list LoanTransfer :=
  flat_map matching_transfers (Result.matchings result).

(** ** The caller's grouping: [groupByMaturity] of the operator

    [processBatch] runs the pipeline once per bucket of this map.  A
    [Map] keeps its keys in insertion order; the keys are the decimal
    strings of the maturities, kept here as the integers themselves. *)

(** [groups.get(maturityKey).push(task)], after [groups.set(maturityKey,
    [])] when the key is new. *)
Fixpoint add_to_group (maturityKey : Z) (task : LoanTask)
    (groups : list (Z * list LoanTask)) : list (Z * list LoanTask) :=
  match groups with
  | [] => [(maturityKey, [task])]
  | (key, bucket) :: rest =>
      if key =? maturityKey then (key, bucket ++ [task]) :: rest
      else (key, bucket) :: add_to_group maturityKey task rest
  end.

Definition groupByMaturity (tasks : list LoanTask) : list (Z * list LoanTask) :=
  fold_left (fun groups task =>
               add_to_group (Task.maturityTimestamp task) task groups)
            tasks [].

(** ** The caller's loop: [processBatch] of the operator

    The part of [processBatch] that decides what is submitted: the loop
    over the buckets of [groupByMaturity], which fills [allTransfers] and
    [allMatchedTasks].  Hashing, signing and the contract call that
    follow are not modelled. *)

(** [new Date(Number(maturity) * 1000).toISOString()], in the first log
    line of the loop body, throws a [RangeError] when the time value is
    beyond 8.64e15 milliseconds on either side of the epoch.  Up to
    8.64e12 seconds the conversion and the product are exact; beyond, the
    product exceeds the bound whatever the rounding. *)
Definition toISOString_throws (maturity : Z) : bool :=
  8640000000000 <? Z.abs maturity.

(** The body of the loop up to [bestResult]; [None] stands for the two
    [continue] statements.  Reading [bestResult.totalMatchedAmount] of an
    [undefined] result would throw a [TypeError]. *)
Definition bestResult_of_bucket (groupTasks : list LoanTask)
  : completion (option LoanMatchingResult) :=
  let allCombinations := generateLoanTaskCombinations groupTasks in
  let possibleCombinations :=
    filter isLoanCombinationPossible allCombinations in
  if (length possibleCombinations =? 0)%nat then Normal None
  else
    let allResults :=
      filter Result.feasible
             (map computeLoanMatchingResult possibleCombinations) in
    if (length allResults =? 0)%nat then Normal None
    else
      match computeBestLoanResult allResults with
      | Throw name => Throw name
      | Normal None => Throw "TypeError"
      | Normal (Some bestResult) => Normal (Some bestResult)
      end.

(** The two arrays that the loop fills. *)
Module Collected.
Record t : Type := mk {
    allTransfers : list LoanTransfer;
    allMatchedTasks : list LoanTask
  }.
End Collected.

(** One iteration of [for (const [maturity, groupTasks] of
    maturityGroups)]. *)
Definition processBatch_bucket (collected : Collected.t) (maturity : Z)
    (groupTasks : list LoanTask) : completion Collected.t :=
  if toISOString_throws maturity then Throw "RangeError"
  else
    match bestResult_of_bucket groupTasks with
    | Throw name => Throw name
    | Normal None => Normal collected
    | Normal (Some bestResult) =>
        Normal (Collected.mk
                  (Collected.allTransfers collected
                   ++ computeLoanTransfers bestResult)
                  (Collected.allMatchedTasks collected
                   ++ flat_map Matching.loanTasks
                               (Result.matchings bestResult)))
    end.

Fixpoint processBatch_loop (maturityGroups : list (Z * list LoanTask))
    (collected : Collected.t) : completion Collected.t :=
  match maturityGroups with
  | [] => Normal collected
  | (maturity, groupTasks) :: rest =>
      match processBatch_bucket collected maturity groupTasks with
      | Throw name => Throw name
      | Normal collected' => processBatch_loop rest collected'
      end
  end.

(** [processBatch] on the tasks of a batch, up to the end of the loop; an
    empty batch returns at once. *)
Definition processBatch_matches (tasks : list LoanTask)
  : completion Collected.t :=
  if (length tasks =? 0)%nat then Normal (Collected.mk [] [])
  else processBatch_loop (groupByMaturity tasks) (Collected.mk [] []).

(** * Notions of the specification *)

(** ** Set partitions and their number *)

(** Stirling numbers of the second kind and the Bell numbers. *)
Fixpoint Stirling2 (n k : nat) : nat :=
  match n, k with
  | O, O => 1
  | O, S _ => 0
  | S _, O => 0
  | S n', S k' => Stirling2 n' k' + S k' * Stirling2 n' k
  end.

Fixpoint sum_upto (f : nat -> nat) (n : nat) : nat :=
  match n with
  | O => f O
  | S n' => sum_upto f n' + f n
  end.

Definition Bell (n : nat) : nat := sum_upto (Stirling2 n) n.

(** Two orders share a group of the combination. *)
Definition same_group (combination : list (list LoanTask)) (x y : LoanTask)
  : Prop :=
  exists group, In group combination /\ In x group /\ In y group.

(** Two combinations are the same set partition: they put the same orders
    together, whatever the order of the groups and inside the groups. *)
Definition same_partition (p q : list (list LoanTask)) : Prop :=
  forall x y, same_group p x y <-> same_group q x y.

(** A true set partition of [tasks]: no empty group, and every order of
    [tasks] in exactly one place of exactly one group. *)
Definition is_set_partition (tasks : list LoanTask)
    (combination : list (list LoanTask)) : Prop :=
  Forall (fun group => group <> []) combination /\
  Permutation (concat combination) tasks.

(** ** Maturities and rates of a group *)

(** All orders of the group carry one maturity. *)
Definition single_maturity (g : list LoanTask) : Prop :=
  forall x y, In x g -> In y g ->
              Task.maturityTimestamp x = Task.maturityTimestamp y.

(** A lender and a borrower of the group mature at [maturity]. *)
Definition common_maturity (g : list LoanTask) (maturity : Z) : Prop :=
  exists l b,
    In l g /\ In b g /\ Task.isLender l = true /\ Task.isLender b = false /\
    Task.maturityTimestamp l = maturity /\ Task.maturityTimestamp b = maturity.

(** The effective rate in the words of the specification: the floor of
    the mean of the least lender rate and the greatest borrower rate of the
    group (no value when a side is empty). *)
Definition rate_minimum (side : list LoanTask) : option Z :=
  match side with
  | [] => None
  | t :: rest =>
      Some (fold_left Z.min (map Task.interestRateBips rest)
                      (Task.interestRateBips t))
  end.

Definition rate_maximum (side : list LoanTask) : option Z :=
  match side with
  | [] => None
  | t :: rest =>
      Some (fold_left Z.max (map Task.interestRateBips rest)
                      (Task.interestRateBips t))
  end.

Definition specified_effectiveRate (g : list LoanTask) : option Z :=
  match rate_minimum (lenders_of g), rate_maximum (borrowers_of g) with
  | Some lo, Some hi => Some ((lo + hi) / 2)
  | _, _ => None
  end.

(** The evaluator classifies the group as matched. *)
Definition classified_matched (m : LoanMatching) : Prop :=
  Matching.feasibility m = FULL_MATCH \/
  Matching.feasibility m = PARTIAL_LENDER \/
  Matching.feasibility m = PARTIAL_BORROWER.

(** The group fails the evaluator's rate-overlap check or its
    common-maturity check. *)
Definition fails_internal_check (matching : list LoanTask) : Prop :=
  minLenderRate (lenders_of matching) > maxBorrowerRate (borrowers_of matching)
  \/ findCommonMaturities (lenders_of matching) (borrowers_of matching) = [].

(** ** The comparator of the selector *)

(** The comparator in the words of the specification: larger matched
    amount first, then larger efficiency, then smaller average rate. *)
Definition strictly_better (c w : LoanMatchingResult) : Prop :=
  Result.totalMatchedAmount c > Result.totalMatchedAmount w \/
  (Result.totalMatchedAmount c = Result.totalMatchedAmount w /\
   (Result.matchingEfficiency c > Result.matchingEfficiency w \/
    (Result.matchingEfficiency c = Result.matchingEfficiency w /\
     Result.averageBorrowerRate c < Result.averageBorrowerRate w))).

(** [w], found at index [i], wins the list [l]: no candidate is strictly
    better, and every earlier candidate is strictly worse. *)
Definition winner_at (l : list LoanMatchingResult) (i : nat)
    (w : LoanMatchingResult) : Prop :=
  nth_error l i = Some w /\
  (forall j c, nth_error l j = Some c -> ~ strictly_better c w) /\
  (forall j c, nth_error l j = Some c -> (j < i)%nat -> strictly_better w c).

(** ** Amounts transferred *)

Definition total_amount (transfers : list LoanTransfer) : Z :=
  fold_right (fun t acc => Transfer.amount t + acc) 0 transfers.

(** What the transfers draw from the lender of address [who]. *)
Definition drawn_from (who : string) (transfers : list LoanTransfer) : Z :=
  total_amount (filter (fun t => String.eqb (Transfer.lender t) who) transfers).

(** The lender-borrower pairings of a group for which transfers are
    computed, and their number over the groups of a result. *)
Definition group_pairings (m : LoanMatching) : Z :=
  if could_not_be_matched (Matching.feasibility m) then 0
  else Z.of_nat (length (lenders_of (Matching.loanTasks m)))
       * Z.of_nat (length (borrowers_of (Matching.loanTasks m))).

Definition pairings (result : LoanMatchingResult) : Z :=
  fold_right (fun m acc => group_pairings m + acc) 0 (Result.matchings result).

(** ** Input domains *)

(** Input domain: principal amounts and rates are unsigned on chain. *)
Definition nonneg_principals (combination : list (list LoanTask)) : Prop :=
  Forall (Forall (fun task => 0 <= Task.principalAmount task)) combination.

(** Rates that the evaluator's seed [MAX_SAFE_INTEGER] does not cap. *)
Definition safe_rates (g : list LoanTask) : Prop :=
  Forall (fun task => 0 <= Task.interestRateBips task <= MAX_SAFE_INTEGER) g.

(** A result as the evaluator produces it: feasible exactly when
    something is matched, and with zero efficiency and rate otherwise (see
    [evaluator_results_consistent]). *)
Definition evaluator_consistent (r : LoanMatchingResult) : Prop :=
  if Result.feasible r
  then 0 < Result.totalMatchedAmount r
  else Result.totalMatchedAmount r = 0 /\
       Result.matchingEfficiency r = 0 /\
       Result.averageBorrowerRate r = 0.

(** * Auxiliary definitions of the proofs *)

(** The record that one iteration of the evaluator's loop pushes for a
    group (read off [process_matching]). *)
Definition group_matching (matching : list LoanTask) : LoanMatching :=
  match Acc.matchings (process_matching initial_acc matching) with
  | [m] => m
  | _ => Matching.mk matching NONE 0 0 0 0 0
  end.

(** Componentwise sum of two loop states. *)
Definition acc_append (a b : Acc.t) : Acc.t :=
  Acc.mk (Acc.matchings a ++ Acc.matchings b)
         (Acc.totalLenderAmount a + Acc.totalLenderAmount b)
         (Acc.totalBorrowerAmount a + Acc.totalBorrowerAmount b)
         (Acc.totalMatchedAmount a + Acc.totalMatchedAmount b)
         (Acc.weightedLenderRate a + Acc.weightedLenderRate b)
         (Acc.weightedBorrowerRate a + Acc.weightedBorrowerRate b).

(** Sum of an integer quantity over a list of orders. *)
Definition sum_over (f : LoanTask -> Z) (side : list LoanTask) : Z :=
  fold_right (fun t acc => f t + acc) 0 side.

(** Where [firstTask] goes in a combination of the remaining tasks: into
    a new group of its own ([None]) or into the [i]-th group ([Some i]). *)
Definition place (firstTask : LoanTask) (subComb : list (list LoanTask))
    (choice : option nat) : list (list LoanTask) :=
  match choice with
  | None => [firstTask] :: subComb
  | Some i => combine_at firstTask subComb i
  end.

Definition valid_choice (subComb : list (list LoanTask)) (choice : option nat)
  : Prop :=
  match choice with
  | None => True
  | Some i => (i < length subComb)%nat
  end.

(** The combinations of [k] groups among [combinations]. *)
Definition count_groups (k : nat) (combinations : list (list (list LoanTask)))
  : nat :=
  length (filter (fun c => (length c =? k)%nat) combinations).

(** The filter of [removeDuplicates] once the keys in [seen] are known. *)
Definition unseen (seen : list (list (list nat)))
    (combination : list (list LoanTask)) : bool :=
  if in_dec key_eq_dec (combination_key combination) seen then false else true.

(** What the generator is shown to return on a non-empty list of tasks
    with distinct ids: set partitions only, no partition twice (neither
    as a set partition nor under the deduplication key), as many of [k]
    groups as the Stirling number says, and the one-group partition among
    them. *)
Definition enumerates (tasks : list LoanTask)
    (combinations : list (list (list LoanTask))) : Prop :=
  (forall c, In c combinations -> is_set_partition tasks c) /\
  (forall c c', In c combinations -> In c' combinations ->
                same_partition c c' -> c = c') /\
  NoDup (map combination_key combinations) /\
  (forall k, count_groups k combinations = Stirling2 (length tasks) k) /\
  In [tasks] combinations.

(** The buckets hold tasks of [seen] only, each under its own maturity
    and no id twice. *)
Definition buckets_sound (seen : list LoanTask)
    (groups : list (Z * list LoanTask)) : Prop :=
  forall key bucket,
    In (key, bucket) groups ->
    NoDup (map Task.taskId bucket) /\
    forall task, In task bucket ->
                 In task seen /\ Task.maturityTimestamp task = key.

(** The transfer [t] is one that the calculator emits for the group [m]:
    from a lender to a borrower of the group, at the group's rate and
    maturity, of a positive amount within the shares of both. *)
Definition transfer_of_group (m : LoanMatching) (t : LoanTransfer) : Prop :=
  exists l b,
    In l (lenders_of (Matching.loanTasks m)) /\
    In b (borrowers_of (Matching.loanTasks m)) /\
    Transfer.lender t = Task.sender l /\
    Transfer.borrower t = Task.sender b /\
    Transfer.rate t = Matching.effectiveRate m /\
    Transfer.maturityTimestamp t = Matching.maturityTimestamp m /\
    0 < Transfer.amount t /\
    Transfer.amount t <= lenderShare m l /\
    Transfer.amount t <= borrowerShare m b.

(** The transfer [t] pairs a lender and a borrower among [tasks] that
    both mature when the transfer does, for a positive amount that
    neither principal falls short of. *)
Definition pairs_two_orders (tasks : list LoanTask) (t : LoanTransfer) : Prop :=
  exists l b,
    In l tasks /\ In b tasks /\
    Task.isLender l = true /\ Task.isLender b = false /\
    Transfer.lender t = Task.sender l /\
    Transfer.borrower t = Task.sender b /\
    Task.maturityTimestamp l = Transfer.maturityTimestamp t /\
    Task.maturityTimestamp b = Transfer.maturityTimestamp t /\
    0 < Transfer.amount t /\
    Transfer.amount t <= Task.principalAmount l /\
    Transfer.amount t <= Task.principalAmount b.

(** What the transfers hand to the borrower of address [who]. *)
Definition received_by (who : string) (transfers : list LoanTransfer) : Z :=
  total_amount
    (filter (fun t => String.eqb (Transfer.borrower t) who) transfers).

(** * Example inputs *)

Definition order (isLender : bool) (principal rateBips maturity : Z)
    (sender : string) (taskId : nat) : LoanTask :=
  Task.mk isLender principal rateBips maturity sender taskId.

Definition candidate (feasible : bool) (matched : Z)
    (efficiency averageRate : bigDecimal) : LoanMatchingResult :=
  Result.mk [] averageRate averageRate matched matched matched 0 0
            feasible (if feasible then FULL_MATCH else NONE) 0 efficiency.

Definition five_orders : list LoanTask :=
  [order true 10000 500 1 "L1" 1; order true 20000 600 1 "L2" 2;
   order true 5000 400 1 "L3" 3;
   order false 15000 550 1 "B1" 4; order false 20000 600 1 "B2" 5].

(** Three tasks, two of which carry the same id. *)
Definition shared_id_orders : list LoanTask :=
  [order true 100 500 1 "a" 1; order true 100 500 1 "b" 1;
   order false 100 600 1 "c" 3].

(** Scenario A of the specification, as one group. *)
Definition scenario_A : list (list LoanTask) :=
  [[order true 10000 500 1 "L1" 1; order true 20000 600 1 "L2" 2;
    order true 5000 400 1 "L3" 3;
    order false 15000 550 1 "B1" 4; order false 20000 600 1 "B2" 5]].

(** A partition with a group whose rates do not overlap (lender at 10%,
    borrower at 5%), between a matched group and a singleton. *)
Definition no_overlap_group : list LoanTask :=
  [order true 700 1000 1 "L9" 9; order false 300 500 1 "B9" 10].

Definition around_before : list (list LoanTask) :=
  [[order true 100 500 1 "L1" 1; order false 60 600 1 "B1" 2]].

Definition around_after : list (list LoanTask) :=
  [[order false 40 600 1 "B2" 3]].

(** A batch over two maturities. *)
Definition two_maturity_batch : list LoanTask :=
  [order true 100 500 100 "L1" 1; order true 100 500 200 "L2" 2;
   order false 200 600 100 "B1" 3; order false 50 600 200 "B2" 4].

(** Two lenders of different maturities with a borrower that shares the
    maturity of the first. *)
Definition mixed_maturity_group : list LoanTask :=
  [order true 100 500 100 "L1" 1; order true 100 500 200 "L2" 2;
   order false 200 600 100 "B1" 3].

(** One lender and one borrower, both at the rate 2^60 basis points. *)
Definition huge_rate_group : list LoanTask :=
  [order true 1000 (2 ^ 60) 1 "L1" 1; order false 1000 (2 ^ 60) 1 "B1" 2].

(** Three lenders of 1 each against one borrower of 2: the shares of the
    lenders are floor(2/3) = 0 each. *)
Definition dust_group : list (list LoanTask) :=
  [[order true 1 500 1 "L1" 1; order true 1 500 1 "L2" 2;
    order true 1 500 1 "L3" 3; order false 2 600 1 "B1" 4]].

(** * Properties *)

(** ** Partition generation *)

Section Generator.

Local Open Scope nat_scope.

Lemma default_sort_insert_In (x y : nat) (l : list nat) :
  In y (default_sort_insert x l) <-> y = x \/ In y l.
Proof.
  induction l as [| z l IH]; simpl; [intuition congruence |].
  destruct (default_sort_leb x z); simpl; [intuition congruence |].
  rewrite IH. intuition congruence.
Qed.

Lemma default_sort_In (l : list nat) (y : nat) :
  In y (default_sort l) <-> In y l.
Proof.
  induction l as [| x l IH]; simpl; [tauto |].
  rewrite default_sort_insert_In, IH. intuition congruence.
Qed.

(** *** Deduplication *)

Lemma unseen_true (seen : list (list (list nat))) (c : list (list LoanTask)) :
  unseen seen c = true <-> ~ In (combination_key c) seen.
Proof.
  unfold unseen. destruct (in_dec key_eq_dec (combination_key c) seen);
    split; intros; try discriminate; try contradiction; auto.
Qed.

(** On combinations of distinct keys the filter only drops what was seen
    before. *)
Lemma removeDuplicates_from_filter (cs : list (list (list LoanTask))) :
  NoDup (map combination_key cs) ->
  forall seen, removeDuplicates_from seen cs = filter (unseen seen) cs.
Proof.
  induction cs as [| c cs IH]; intros Hnd seen; [reflexivity |].
  simpl in Hnd. inversion Hnd as [| ? ? Hc Hnd']; subst.
  simpl. unfold unseen at 1.
  destruct (in_dec key_eq_dec (combination_key c) seen) as [Hin | Hnin].
  - apply IH, Hnd'.
  - f_equal. rewrite (IH Hnd'). apply filter_ext_in. intros c' Hc'.
    unfold unseen.
    destruct (in_dec key_eq_dec (combination_key c') (combination_key c :: seen))
      as [[Heq | Hin] | Hn];
      destruct (in_dec key_eq_dec (combination_key c') seen) as [Hin' | Hn'];
      try reflexivity; try contradiction.
    + exfalso. apply Hc. rewrite Heq. apply in_map, Hc'.
    + exfalso. apply Hn. right. exact Hin'.
Qed.

Lemma filter_keeps_all {A} (f : A -> bool) (l : list A) :
  (forall x, In x l -> f x = true) -> filter f l = l.
Proof.
  intros H. apply forallb_filter_id. apply forallb_forall. exact H.
Qed.

(** Taking out of a list of distinct keys the member with the key of [d]
    and putting [d] in front rearranges the list. *)
Lemma duplicate_first_permutation (d : list (list LoanTask))
    (cs : list (list (list LoanTask))) :
  NoDup (map combination_key cs) -> In d cs ->
  Permutation (d :: filter (unseen [combination_key d]) cs) cs.
Proof.
  induction cs as [| c cs IH]; intros Hnd Hin; [destruct Hin |].
  simpl in Hnd. inversion Hnd as [| ? ? Hc Hnd']; subst.
  simpl. destruct (unseen [combination_key d] c) eqn:Hu.
  - apply unseen_true in Hu. destruct Hin as [-> | Hin].
    + exfalso. apply Hu. left. reflexivity.
    + etransitivity; [apply perm_swap |]. apply perm_skip, IH; assumption.
  - assert (combination_key c = combination_key d) as Hkey.
    { unfold unseen in Hu.
      destruct (in_dec key_eq_dec (combination_key c) [combination_key d])
        as [[H | []] | H]; [symmetry; exact H | discriminate]. }
    destruct Hin as [-> | Hin].
    + rewrite filter_keeps_all; [reflexivity |].
      intros c' Hc'. apply unseen_true. intros [Heq | []].
      apply Hc. rewrite Heq. apply in_map, Hc'.
    + exfalso. apply Hc. rewrite Hkey. apply in_map, Hin.
Qed.

Lemma removeDuplicates_permutation (d : list (list LoanTask))
    (cs : list (list (list LoanTask))) :
  NoDup (map combination_key cs) -> In d cs ->
  Permutation (removeDuplicates (d :: cs)) cs.
Proof.
  intros Hnd Hin. unfold removeDuplicates. simpl.
  rewrite (removeDuplicates_from_filter cs Hnd).
  apply duplicate_first_permutation; assumption.
Qed.

(** *** Counting by number of groups *)

Lemma count_groups_app (k : nat) (a b : list (list (list LoanTask))) :
  count_groups k (a ++ b) = count_groups k a + count_groups k b.
Proof. unfold count_groups. rewrite filter_app, length_app. reflexivity. Qed.

Lemma count_groups_permutation (k : nat) (a b : list (list (list LoanTask))) :
  Permutation a b -> count_groups k a = count_groups k b.
Proof.
  unfold count_groups. induction 1 as [| x a b _ IH | x y a | a b c _ IH1 _ IH2];
    simpl.
  - reflexivity.
  - destruct (length x =? k); simpl; congruence.
  - destruct (length x =? k), (length y =? k); reflexivity.
  - congruence.
Qed.

Lemma sum_upto_plus (f g : nat -> nat) (n : nat) :
  sum_upto (fun k => f k + g k) n = sum_upto f n + sum_upto g n.
Proof. induction n as [| n IH]; simpl; [reflexivity | rewrite IH; lia]. Qed.

Lemma sum_upto_zero (f : nat -> nat) (n : nat) :
  (forall k, k <= n -> f k = 0) -> sum_upto f n = 0.
Proof.
  induction n as [| n IH]; intros H; cbn [sum_upto].
  - apply H. lia.
  - rewrite IH, H; [reflexivity | lia |]. intros k Hk. apply H. lia.
Qed.

Lemma sum_upto_indicator (m n : nat) :
  m <= n -> sum_upto (fun k => if m =? k then 1 else 0) n = 1.
Proof.
  induction n as [| n IH]; intros Hle; cbn [sum_upto].
  - destruct (Nat.eqb_spec m 0); [reflexivity | lia].
  - destruct (Nat.eqb_spec m (S n)) as [-> | Hne].
    + rewrite sum_upto_zero; [reflexivity |].
      intros k Hk. destruct (Nat.eqb_spec (S n) k); [lia | reflexivity].
    + rewrite IH by lia. reflexivity.
Qed.

(** A list of combinations of at most [n] groups each is counted by its
    numbers of combinations of 0, 1, ..., [n] groups. *)
Lemma length_by_count_groups (n : nat) (cs : list (list (list LoanTask))) :
  (forall c, In c cs -> length c <= n) ->
  length cs = sum_upto (fun k => count_groups k cs) n.
Proof.
  induction cs as [| c cs IH]; intros Hle.
  - unfold count_groups. simpl. clear. induction n; simpl; lia.
  - change (length (c :: cs)) with (1 + length cs).
    rewrite (IH (fun c' Hc' => Hle c' (or_intror Hc'))).
    rewrite <- (sum_upto_indicator (length c) n (Hle c (or_introl eq_refl)))
      at 1.
    rewrite <- sum_upto_plus. clear.
    assert (forall f g : nat -> nat, (forall k, f k = g k) ->
              sum_upto f n = sum_upto g n) as Hext.
    { intros f g H. induction n; simpl; congruence. }
    apply Hext. intros k. unfold count_groups. simpl.
    destruct (length c =? k); reflexivity.
Qed.

(** *** Placing the first task *)

Section Placement.

(** The task that the generator takes off the front of the list. *)
Variable t : LoanTask.

Lemma combine_at_cons_0 (g : list LoanTask)
    (p : list (list LoanTask)) :
  combine_at t (g :: p) 0 = (t :: g) :: p.
Proof. reflexivity. Qed.

Lemma combine_at_cons_S (g : list LoanTask)
    (p : list (list LoanTask)) (i : nat) :
  combine_at t (g :: p) (S i) = g :: combine_at t p i.
Proof. reflexivity. Qed.

Lemma combined_with_seq (p : list (list LoanTask)) :
  p <> [] ->
  combined_with t p = map (combine_at t p) (seq 0 (length p)).
Proof.
  intros Hp. destruct p as [| g p]; [congruence |].
  unfold combined_with. simpl. rewrite Nat.sub_0_r. reflexivity.
Qed.

Lemma length_combine_at (p : list (list LoanTask)) :
  forall i, i < length p -> length (combine_at t p i) = length p.
Proof.
  induction p as [| g p IH]; intros i Hi; simpl in Hi; [lia |].
  destruct i as [| i]; [reflexivity |].
  rewrite combine_at_cons_S. simpl. rewrite IH by lia. reflexivity.
Qed.

Lemma concat_combine_at (p : list (list LoanTask)) :
  forall i, i < length p ->
            Permutation (concat (combine_at t p i)) (t :: concat p).
Proof.
  induction p as [| g p IH]; intros i Hi; simpl in Hi; [lia |].
  destruct i as [| i]; [reflexivity |].
  rewrite combine_at_cons_S. simpl.
  etransitivity; [apply Permutation_app_head, IH; lia |].
  symmetry. apply Permutation_middle.
Qed.

Lemma nonempty_combine_at (p : list (list LoanTask)) :
  forall i, i < length p ->
            Forall (fun g => g <> []) p ->
            Forall (fun g => g <> []) (combine_at t p i).
Proof.
  induction p as [| g p IH]; intros i Hi Hp; simpl in Hi; [lia |].
  inversion Hp as [| ? ? Hg Hp']; subst.
  destruct i as [| i].
  - rewrite combine_at_cons_0. constructor; [discriminate | exact Hp'].
  - rewrite combine_at_cons_S. constructor; [exact Hg | apply IH; [lia | exact Hp']].
Qed.

Lemma same_group_cons (g : list LoanTask) (p : list (list LoanTask))
    (u v : LoanTask) :
  same_group (g :: p) u v <-> (In u g /\ In v g) \/ same_group p u v.
Proof.
  unfold same_group. split.
  - intros (g' & [<- | Hg'] & Hu & Hv); [left; tauto |].
    right. exists g'. tauto.
  - intros [[Hu Hv] | (g' & Hg' & Hu & Hv)].
    + exists g. simpl. tauto.
    + exists g'. simpl. tauto.
Qed.

Lemma same_group_in_concat (p : list (list LoanTask)) (u v : LoanTask) :
  same_group p u v -> In u (concat p) /\ In v (concat p).
Proof.
  intros (g & Hg & Hu & Hv). split; apply in_concat; exists g; tauto.
Qed.

Lemma in_group_in_concat (p : list (list LoanTask)) (u : LoanTask) :
  forall i, In u (nth i p []) -> In u (concat p).
Proof.
  induction p as [| g p IH]; intros i Hu.
  - destruct i; destruct Hu.
  - simpl. apply in_or_app. destruct i as [| i]; [left; exact Hu |].
    right. apply (IH i). exact Hu.
Qed.

(** Orders other than the first task are grouped after the placement as
    they were before. *)
Lemma same_group_combine_others (p : list (list LoanTask))
    (u v : LoanTask) :
  u <> t -> v <> t ->
  forall i, i < length p ->
            (same_group (combine_at t p i) u v <-> same_group p u v).
Proof.
  intros Hu Hv. induction p as [| g p IH]; intros i Hi; simpl in Hi; [lia |].
  destruct i as [| i].
  - rewrite combine_at_cons_0, !same_group_cons. simpl. intuition congruence.
  - rewrite combine_at_cons_S, !same_group_cons, IH by lia. reflexivity.
Qed.

(** The first task shares the group it was put into. *)
Lemma same_group_combine_first (p : list (list LoanTask))
    (u : LoanTask) :
  ~ In t (concat p) ->
  forall i, i < length p ->
            (same_group (combine_at t p i) t u <-> u = t \/ In u (nth i p [])).
Proof.
  induction p as [| g p IH]; intros Ht i Hi; simpl in Hi; [lia |].
  simpl in Ht. rewrite in_app_iff in Ht.
  destruct i as [| i].
  - rewrite combine_at_cons_0, same_group_cons. simpl. split.
    + intros [[_ [Hu | Hu]] | Hsg]; [left; congruence | right; exact Hu |].
      apply same_group_in_concat in Hsg. tauto.
    + intros [-> | Hu]; left; auto.
  - rewrite combine_at_cons_S, same_group_cons, IH by (tauto || lia).
    simpl. tauto.
Qed.

Lemma same_group_new_others (p : list (list LoanTask))
    (u v : LoanTask) :
  u <> t -> v <> t ->
  (same_group ([t] :: p) u v <-> same_group p u v).
Proof.
  intros Hu Hv. rewrite same_group_cons. simpl. intuition congruence.
Qed.

Lemma same_group_new_first (p : list (list LoanTask))
    (u : LoanTask) :
  ~ In t (concat p) ->
  (same_group ([t] :: p) t u <-> u = t).
Proof.
  intros Ht. rewrite same_group_cons. simpl. split.
  - intros [[_ [Hu | []]] | Hsg]; [congruence |].
    apply same_group_in_concat in Hsg. tauto.
  - intros ->. left. auto.
Qed.

(** The groups of a partition do not overlap. *)
Lemma groups_disjoint (p : list (list LoanTask)) (u : LoanTask) :
  NoDup (concat p) ->
  forall i j, In u (nth i p []) -> In u (nth j p []) -> i = j.
Proof.
  induction p as [| g p IH]; intros Hnd i j Hi Hj.
  - destruct i; destruct Hi.
  - simpl in Hnd.
    assert (Hsplit : forall a, In a g -> ~ In a (concat p)).
    { intros a Ha Hc. apply NoDup_app_remove_l in Hnd as Hp.
      clear - Hnd Ha Hc. induction g as [| b g IHg]; [destruct Ha |].
      simpl in Hnd. inversion Hnd as [| ? ? Hb Hnd']; subst.
      destruct Ha as [-> | Ha]; [| exact (IHg Hnd' Ha)].
      apply Hb, in_or_app. right. exact Hc. }
    destruct i as [| i], j as [| j]; simpl in Hi, Hj.
    + reflexivity.
    + exfalso. exact (Hsplit u Hi (in_group_in_concat p u j Hj)).
    + exfalso. exact (Hsplit u Hj (in_group_in_concat p u i Hi)).
    + f_equal. apply IH; [exact (NoDup_app_remove_l _ _ Hnd) | assumption..].
Qed.

Lemma nth_group_nonempty (p : list (list LoanTask)) (i : nat) :
  Forall (fun g => g <> []) p -> i < length p ->
  exists u, In u (nth i p []).
Proof.
  intros Hp Hi. rewrite Forall_forall in Hp.
  pose proof (Hp _ (nth_In p [] Hi)) as Hne.
  destruct (nth i p []) as [| u g]; [congruence |].
  exists u. left. reflexivity.
Qed.

Lemma place_others (p : list (list LoanTask))
    (c : option nat) (u v : LoanTask) :
  valid_choice p c -> u <> t -> v <> t ->
  (same_group (place t p c) u v <-> same_group p u v).
Proof.
  intros Hc Hu Hv. destruct c as [i |]; simpl in *.
  - apply same_group_combine_others; assumption.
  - apply same_group_new_others; assumption.
Qed.

Lemma place_first (p : list (list LoanTask))
    (c : option nat) (u : LoanTask) :
  valid_choice p c -> ~ In t (concat p) ->
  (same_group (place t p c) t u <->
   u = t \/ match c with
            | Some i => In u (nth i p [])
            | None => False
            end).
Proof.
  intros Hc Ht. destruct c as [i |]; simpl in *.
  - apply same_group_combine_first; assumption.
  - rewrite same_group_new_first by assumption. tauto.
Qed.

End Placement.

Lemma partition_members (tasks : list LoanTask) (p : list (list LoanTask))
    (u : LoanTask) :
  is_set_partition tasks p -> (In u (concat p) <-> In u tasks).
Proof.
  intros (_ & Hperm). split; apply Permutation_in;
    [exact Hperm | symmetry; exact Hperm].
Qed.

(** Two placements that give the same set partition started from the
    same set partition and made the same choice. *)
Lemma place_injective (t : LoanTask) (rest : list LoanTask)
    (p q : list (list LoanTask)) (c c' : option nat) :
  ~ In t rest -> NoDup rest ->
  is_set_partition rest p -> is_set_partition rest q ->
  valid_choice p c -> valid_choice q c' ->
  same_partition (place t p c) (place t q c') ->
  same_partition p q /\ (p = q -> c = c').
Proof.
  intros Ht Hnd Hp Hq Hc Hc' Hsame.
  assert (Htp : ~ In t (concat p)) by (rewrite (partition_members rest p t Hp); exact Ht).
  assert (Htq : ~ In t (concat q)) by (rewrite (partition_members rest q t Hq); exact Ht).
  split.
  - intros u v. split; intros Hsg.
    + destruct (same_group_in_concat _ _ _ Hsg) as (Hu & Hv).
      assert (u <> t) by (intros ->; contradiction).
      assert (v <> t) by (intros ->; contradiction).
      apply (place_others t q c' u v); try assumption.
      apply Hsame. apply (place_others t p c u v); assumption.
    + destruct (same_group_in_concat _ _ _ Hsg) as (Hu & Hv).
      assert (u <> t) by (intros ->; contradiction).
      assert (v <> t) by (intros ->; contradiction).
      apply (place_others t p c u v); try assumption.
      apply Hsame. apply (place_others t q c' u v); assumption.
  - intros <-.
    assert (Hndp : NoDup (concat p)).
    { destruct Hp as (_ & Hperm). apply (Permutation_NoDup (l := rest));
        [symmetry; exact Hperm | exact Hnd]. }
    assert (Hblock : forall u,
               (u = t \/ match c with Some i => In u (nth i p []) | None => False end)
               <-> (u = t \/ match c' with Some i => In u (nth i p []) | None => False end)).
    { intros u. rewrite <- (place_first t p c u Hc Htp),
                        <- (place_first t p c' u Hc' Htp). apply Hsame. }
    destruct c as [i |], c' as [j |]; simpl in Hc, Hc'.
    + f_equal.
      destruct (nth_group_nonempty p i (proj1 Hp) Hc) as (u & Hu).
      destruct (proj1 (Hblock u) (or_intror Hu)) as [-> | Hu'].
      * exfalso. apply Htp. apply (in_group_in_concat p t i Hu).
      * exact (groups_disjoint p u Hndp i j Hu Hu').
    + exfalso.
      destruct (nth_group_nonempty p i (proj1 Hp) Hc) as (u & Hu).
      destruct (proj1 (Hblock u) (or_intror Hu)) as [-> | []].
      apply Htp. apply (in_group_in_concat p t i Hu).
    + exfalso.
      destruct (nth_group_nonempty p j (proj1 Hp) Hc') as (u & Hu).
      destruct (proj2 (Hblock u) (or_intror Hu)) as [-> | []].
      apply Htp. apply (in_group_in_concat p t j Hu).
    + reflexivity.
Qed.

Lemma same_partition_refl (p : list (list LoanTask)) : same_partition p p.
Proof. intros u v. reflexivity. Qed.

Lemma taskId_injective (tasks : list LoanTask) (u v : LoanTask) :
  NoDup (map Task.taskId tasks) -> In u tasks -> In v tasks ->
  Task.taskId u = Task.taskId v -> u = v.
Proof.
  induction tasks as [| a tasks IH]; intros Hnd Hu Hv Heq; [destruct Hu |].
  simpl in Hnd. inversion Hnd as [| ? ? Ha Hnd']; subst.
  destruct Hu as [-> | Hu], Hv as [-> | Hv].
  - reflexivity.
  - exfalso. apply Ha. rewrite Heq. apply in_map, Hv.
  - exfalso. apply Ha. rewrite <- Heq. apply in_map, Hu.
  - exact (IH Hnd' Hu Hv Heq).
Qed.

(** Combinations of one key group the orders alike. *)
Lemma key_same_group (tasks : list LoanTask) (p q : list (list LoanTask))
    (u v : LoanTask) :
  NoDup (map Task.taskId tasks) ->
  is_set_partition tasks p -> is_set_partition tasks q ->
  combination_key p = combination_key q ->
  same_group p u v -> same_group q u v.
Proof.
  intros Hnd Hp Hq Hkey (g & Hg & Hu & Hv).
  assert (In (default_sort (map Task.taskId g)) (combination_key q)) as Hin.
  { rewrite <- Hkey. unfold combination_key.
    apply (in_map (fun group => default_sort (map Task.taskId group))), Hg. }
  unfold combination_key in Hin. apply in_map_iff in Hin.
  destruct Hin as (g' & Hsort & Hg').
  assert (Hmove : forall w, In w g -> In w g').
  { intros w Hw.
    assert (In (Task.taskId w) (map Task.taskId g')) as Hid.
    { apply default_sort_In. rewrite Hsort. apply default_sort_In.
      apply in_map, Hw. }
    apply in_map_iff in Hid. destruct Hid as (w' & Heq & Hw').
    assert (w' = w) as <-; [| exact Hw'].
    apply (taskId_injective tasks); try assumption.
    - apply (partition_members tasks q w' Hq). apply in_concat.
      exists g'. tauto.
    - apply (partition_members tasks p w Hp). apply in_concat.
      exists g. tauto. }
  exists g'. auto.
Qed.

Lemma key_same_partition (tasks : list LoanTask) (p q : list (list LoanTask)) :
  NoDup (map Task.taskId tasks) ->
  is_set_partition tasks p -> is_set_partition tasks q ->
  combination_key p = combination_key q -> same_partition p q.
Proof.
  intros Hnd Hp Hq Hkey u v. split.
  - apply (key_same_group tasks p q); assumption.
  - apply (key_same_group tasks q p); auto.
Qed.

Lemma NoDup_flat_map {A B} (f : A -> list B) (l : list A) :
  NoDup l ->
  (forall x, In x l -> NoDup (f x)) ->
  (forall x y z, In x l -> In y l -> In z (f x) -> In z (f y) -> x = y) ->
  NoDup (flat_map f l).
Proof.
  induction 1 as [| x l Hx Hnd IH]; intros Hf Hcross; simpl; [constructor |].
  apply NoDup_app.
  - apply Hf. left. reflexivity.
  - apply IH.
    + intros y Hy. apply Hf. right. exact Hy.
    + intros y y' z Hy Hy'. apply Hcross; right; assumption.
  - intros z Hz Hz'. apply in_flat_map in Hz'. destruct Hz' as (y & Hy & Hzy).
    apply Hx. rewrite (Hcross x y z); auto. left. reflexivity.
    right. exact Hy.
Qed.

(** *** Counting the placements *)

Lemma count_groups_new (t : LoanTask) (k : nat)
    (sub : list (list (list LoanTask))) :
  count_groups k (map (fun subComb => [t] :: subComb) sub)
  = match k with
    | O => 0
    | S k' => count_groups k' sub
    end.
Proof.
  unfold count_groups. induction sub as [| p sub IH]; simpl.
  - destruct k; reflexivity.
  - destruct k as [| k']; simpl.
    + exact IH.
    + destruct (length p =? k'); simpl; rewrite IH; reflexivity.
Qed.

Lemma count_groups_all (k : nat) (cs : list (list (list LoanTask))) (n : nat) :
  (forall c, In c cs -> length c = n) ->
  count_groups k cs = if n =? k then length cs else 0.
Proof.
  unfold count_groups. induction cs as [| c cs IH]; intros H; simpl.
  - destruct (n =? k); reflexivity.
  - rewrite (H c (or_introl eq_refl)).
    specialize (IH (fun c' Hc' => H c' (or_intror Hc'))).
    destruct (n =? k); simpl; rewrite IH; reflexivity.
Qed.

Lemma count_groups_combined (t : LoanTask) (k : nat)
    (sub : list (list (list LoanTask))) :
  (forall p, In p sub -> p <> []) ->
  count_groups k (flat_map (combined_with t) sub) = k * count_groups k sub.
Proof.
  induction sub as [| p sub IH]; intros Hne; cbn [flat_map].
  - unfold count_groups. simpl. lia.
  - rewrite count_groups_app, (IH (fun q Hq => Hne q (or_intror Hq))).
    rewrite (combined_with_seq t p (Hne p (or_introl eq_refl))).
    rewrite (count_groups_all k _ (length p)).
    + rewrite length_map, length_seq.
      unfold count_groups at 2. simpl.
      destruct (Nat.eqb_spec (length p) k) as [-> | Hk]; simpl.
      * unfold count_groups. lia.
      * unfold count_groups. lia.
    + intros c Hc. apply in_map_iff in Hc. destruct Hc as (i & <- & Hi).
      apply in_seq in Hi. apply length_combine_at. lia.
Qed.

(** *** The generator enumerates the set partitions *)

Lemma generate_step (t r : LoanTask) (rest : list LoanTask) :
  generateLoanTaskCombinations (t :: r :: rest)
  = removeDuplicates
      ([[t]; r :: rest]
         :: (map (fun subComb => [t] :: subComb)
                 (generateLoanTaskCombinations (r :: rest))
             ++ flat_map (combined_with t)
                  (generateLoanTaskCombinations (r :: rest)))).
Proof. reflexivity. Qed.

Lemma enumerates_single (t : LoanTask) : enumerates [t] [[[t]]].
Proof.
  unfold enumerates. split; [| split; [| split; [| split]]].
  - intros c [<- | []]. split; [| reflexivity].
    constructor; [discriminate | constructor].
  - intros c c' [<- | []] [<- | []] _. reflexivity.
  - simpl. constructor; [intros [] | constructor].
  - intros [| [| k]]; unfold count_groups; simpl; try reflexivity. lia.
  - left. reflexivity.
Qed.

Lemma enumerates_step (t : LoanTask) (rest : list LoanTask)
    (sub : list (list (list LoanTask))) :
  rest <> [] ->
  NoDup (map Task.taskId (t :: rest)) ->
  enumerates rest sub ->
  enumerates (t :: rest)
    (removeDuplicates
       ([[t]; rest]
          :: (map (fun subComb => [t] :: subComb) sub
              ++ flat_map (combined_with t) sub))).
Proof.
  intros Hrest Hids (Hpart & Hinj & Hkeys & Hcount & Hone).
  set (M := map (fun subComb => [t] :: subComb) sub
            ++ flat_map (combined_with t) sub).
  assert (Hnotin : ~ In t rest).
  { simpl in Hids. inversion Hids as [| ? ? Ht _]; subst.
    intros Hin. apply Ht, in_map, Hin. }
  assert (Hndrest : NoDup rest).
  { simpl in Hids. inversion Hids as [| ? ? _ Hnd]; subst.
    exact (NoDup_map_inv _ _ Hnd). }
  assert (Hidsrest : NoDup (map Task.taskId rest))
    by (simpl in Hids; inversion Hids; assumption).
  assert (Hsubne : forall p, In p sub -> p <> []).
  { intros p Hp ->. destruct (Hpart [] Hp) as (_ & Hperm). simpl in Hperm.
    apply Permutation_nil in Hperm. contradiction. }
  assert (HM_in : forall x,
             In x M <->
             exists p c, In p sub /\ valid_choice p c /\ x = place t p c).
  { intros x. unfold M. rewrite in_app_iff, in_map_iff, in_flat_map. split.
    - intros [(p & <- & Hp) | (p & Hp & Hx)].
      + exists p, None. simpl. auto.
      + rewrite (combined_with_seq t p (Hsubne p Hp)) in Hx.
        apply in_map_iff in Hx. destruct Hx as (i & <- & Hi).
        apply in_seq in Hi. exists p, (Some i). simpl. split; [exact Hp |].
        split; [lia | reflexivity].
    - intros (p & [i |] & Hp & Hc & ->); cbn [valid_choice place] in *.
      + right. exists p. split; [exact Hp |].
        rewrite (combined_with_seq t p (Hsubne p Hp)).
        apply in_map, in_seq. lia.
      + left. exists p. auto. }
  assert (HM_part : forall x, In x M -> is_set_partition (t :: rest) x).
  { intros x Hx. apply HM_in in Hx. destruct Hx as (p & c & Hp & Hc & ->).
    destruct (Hpart p Hp) as (Hne & Hperm).
    destruct c as [i |]; simpl in *; split.
    - apply nonempty_combine_at; assumption.
    - etransitivity; [apply concat_combine_at; exact Hc |].
      apply perm_skip, Hperm.
    - constructor; [discriminate | exact Hne].
    - simpl. apply perm_skip, Hperm. }
  assert (Hplace : forall p q c c',
             In p sub -> In q sub -> valid_choice p c -> valid_choice q c' ->
             same_partition (place t p c) (place t q c') ->
             p = q /\ c = c').
  { intros p q c c' Hp Hq Hc Hc' Hsame.
    destruct (place_injective t rest p q c c' Hnotin Hndrest
                (Hpart p Hp) (Hpart q Hq) Hc Hc' Hsame) as (Hpq & Hcc).
    pose proof (Hinj p q Hp Hq Hpq) as Heq. auto. }
  assert (HM_inj : forall x y, In x M -> In y M -> same_partition x y -> x = y).
  { intros x y Hx Hy Hsame. apply HM_in in Hx, Hy.
    destruct Hx as (p & c & Hp & Hc & ->), Hy as (q & c' & Hq & Hc' & ->).
    destruct (Hplace p q c c' Hp Hq Hc Hc' Hsame) as (-> & ->). reflexivity. }
  assert (Hndsub : NoDup sub) by exact (NoDup_map_inv _ _ Hkeys).
  assert (HM_nodup : NoDup M).
  { unfold M. apply NoDup_app.
    - apply NoDup_map_NoDup_ForallPairs; [| exact Hndsub].
      intros p q _ _ Heq. injection Heq as Heq. exact Heq.
    - apply NoDup_flat_map; [exact Hndsub | |].
      + intros p Hp. rewrite (combined_with_seq t p (Hsubne p Hp)).
        apply NoDup_map_NoDup_ForallPairs; [| apply seq_NoDup].
        intros i j Hi Hj Heq. apply in_seq in Hi, Hj.
        destruct (Hplace p p (Some i) (Some j) Hp Hp) as (_ & Hij);
          simpl; try lia.
        * rewrite Heq. apply same_partition_refl.
        * injection Hij as Hij. exact Hij.
      + intros p q z Hp Hq Hzp Hzq.
        rewrite (combined_with_seq t p (Hsubne p Hp)) in Hzp.
        rewrite (combined_with_seq t q (Hsubne q Hq)) in Hzq.
        apply in_map_iff in Hzp, Hzq.
        destruct Hzp as (i & <- & Hi), Hzq as (j & Heq & Hj).
        apply in_seq in Hi, Hj.
        destruct (Hplace p q (Some i) (Some j) Hp Hq) as (Hpq & _);
          simpl; try lia; [| exact Hpq].
        rewrite Heq. apply same_partition_refl.
    - intros x Hxa Hxb. apply in_map_iff in Hxa. apply in_flat_map in Hxb.
      destruct Hxa as (p & <- & Hp), Hxb as (q & Hq & Hx).
      rewrite (combined_with_seq t q (Hsubne q Hq)) in Hx.
      apply in_map_iff in Hx. destruct Hx as (j & Heq & Hj).
      apply in_seq in Hj.
      destruct (Hplace p q None (Some j) Hp Hq) as (_ & Habs);
        simpl; try lia; [| discriminate Habs].
      rewrite Heq. apply same_partition_refl. }
  assert (HM_keys : NoDup (map combination_key M)).
  { apply NoDup_map_NoDup_ForallPairs; [| exact HM_nodup].
    intros x y Hx Hy Hkey. apply (HM_inj x y Hx Hy).
    apply (key_same_partition (t :: rest)); auto. }
  assert (Hd : In [[t]; rest] M).
  { apply HM_in. exists [rest], None. simpl. auto. }
  pose proof (removeDuplicates_permutation _ M HM_keys Hd) as Hperm.
  unfold enumerates. split; [| split; [| split; [| split]]].
  - intros c Hc. apply HM_part. exact (Permutation_in _ Hperm Hc).
  - intros c c' Hc Hc'.
    apply HM_inj; [exact (Permutation_in _ Hperm Hc)
                  | exact (Permutation_in _ Hperm Hc')].
  - apply (Permutation_NoDup (l := map combination_key M)); [| exact HM_keys].
    apply Permutation_map. symmetry. exact Hperm.
  - intros k. rewrite (count_groups_permutation k _ _ Hperm). unfold M.
    rewrite count_groups_app, count_groups_new,
      (count_groups_combined t k sub Hsubne).
    change (length (t :: rest)) with (S (length rest)).
    destruct k as [| k']; simpl.
    + lia.
    + rewrite !Hcount. lia.
  - apply (Permutation_in _ (Permutation_sym Hperm)). apply HM_in.
    exists [rest], (Some 0). simpl. split; [exact Hone |].
    split; [lia | reflexivity].
Qed.

Lemma generator_enumerates (tasks : list LoanTask) :
  tasks <> [] -> NoDup (map Task.taskId tasks) ->
  enumerates tasks (generateLoanTaskCombinations tasks).
Proof.
  induction tasks as [| t rest IH]; intros Hne Hids; [congruence |].
  destruct rest as [| r rest].
  - apply enumerates_single.
  - rewrite generate_step. apply enumerates_step; [discriminate | exact Hids |].
    apply IH; [discriminate |]. simpl in Hids. inversion Hids. assumption.
Qed.

Lemma partition_groups_bound (tasks : list LoanTask)
    (c : list (list LoanTask)) :
  is_set_partition tasks c -> length c <= length tasks.
Proof.
  intros (Hne & Hperm). rewrite <- (Permutation_length Hperm). clear Hperm.
  induction Hne as [| g c Hg _ IH]; simpl; [lia |].
  rewrite length_app. destruct g; [congruence | simpl; lia].
Qed.

(** C5 as stated is refuted at [n = 0]: the generator returns no
    partition of the empty list, while the Bell number of 0 is 1. *)
Lemma generator_empty_input_not_Bell :
  length (generateLoanTaskCombinations []) = 0 /\ Bell 0 = 1 /\
  length (generateLoanTaskCombinations [])
  <> Bell (length (@nil LoanTask)).
Proof. repeat split. discriminate. Qed.

(** C5, amended: for every [n >= 1] and every list of [n] tasks with
    distinct ids the generator returns exactly Bell(n) combinations, no
    two of which (at different positions) are the same set partition, and
    each is a true set partition of the input: no group is empty, no task
    occurs twice in or across the groups, and the groups together hold
    exactly the tasks of the input.  On the empty list it returns no
    combination. *)
Theorem generator_returns_Bell_partitions (tasks : list LoanTask) :
  tasks <> [] ->
  NoDup (map Task.taskId tasks) ->
  let combinations := generateLoanTaskCombinations tasks in
  length combinations = Bell (length tasks) /\
  (forall i j c c',
      nth_error combinations i = Some c ->
      nth_error combinations j = Some c' ->
      same_partition c c' -> i = j) /\
  (forall c, In c combinations ->
             is_set_partition tasks c /\
             NoDup (concat c) /\
             (forall x, In x (concat c) <-> In x tasks)) /\
  generateLoanTaskCombinations [] = [].
Proof.
  intros Hne Hids. cbv zeta.
  destruct (generator_enumerates tasks Hne Hids)
    as (Hpart & Hinj & Hkeys & Hcount & _).
  split; [| split; [| split]].
  - rewrite (length_by_count_groups (length tasks)).
    + unfold Bell.
      assert (forall f g : nat -> nat, (forall k, f k = g k) ->
                forall n, sum_upto f n = sum_upto g n) as Hext.
      { intros f g H n. induction n; simpl; congruence. }
      apply Hext. exact Hcount.
    + intros c Hc. apply partition_groups_bound, Hpart, Hc.
  - intros i j c c' Hi Hj Hsame.
    assert (c = c') as <-.
    { apply Hinj; [eapply nth_error_In; eassumption.. | exact Hsame]. }
    apply (proj1 (NoDup_nth_error _) (NoDup_map_inv _ _ Hkeys)).
    + apply nth_error_Some. congruence.
    + congruence.
  - intros c Hc. pose proof (Hpart c Hc) as Hsp.
    split; [exact Hsp | split].
    + destruct Hsp as (_ & Hperm).
      apply (Permutation_NoDup (l := tasks)); [symmetry; exact Hperm |].
      exact (NoDup_map_inv _ _ Hids).
    + intros x. apply (partition_members tasks c x Hsp).
  - reflexivity.
Qed.

Lemma generator_returns_Bell_partitions_witness :
  let combinations := generateLoanTaskCombinations five_orders in
  length combinations = Bell (length five_orders) /\
  (forall i j c c',
      nth_error combinations i = Some c ->
      nth_error combinations j = Some c' ->
      same_partition c c' -> i = j) /\
  (forall c, In c combinations ->
             is_set_partition five_orders c /\
             NoDup (concat c) /\
             (forall x, In x (concat c) <-> In x five_orders)) /\
  generateLoanTaskCombinations [] = [].
Proof.
  apply (generator_returns_Bell_partitions five_orders).
  - discriminate.
  - vm_compute. repeat constructor; simpl; intuition discriminate.
Defined.

Example generator_counts :
  map (fun n => length (generateLoanTaskCombinations (firstn n five_orders)))
      [0; 1; 2; 3; 4; 5]
  = [0; 1; 2; 5; 15; 52]
  /\ map Bell [0; 1; 2; 3; 4; 5; 6; 7] = [1; 1; 2; 5; 15; 52; 203; 877].
Proof. vm_compute. split; reflexivity. Qed.

(** The ids have to be distinct: two tasks of one id make the keys of
    different partitions collide, and the deduplication drops one. *)
Example shared_ids_merge :
  map (map (map Task.sender)) (generateLoanTaskCombinations shared_id_orders)
  = [[["a"]; ["b"; "c"]]; [["a"]; ["b"]; ["c"]]; [["a"; "b"]; ["c"]];
     [["a"; "b"; "c"]]]
  /\ Bell 3 = 5.
Proof. vm_compute. split; reflexivity. Qed.

End Generator.

(** ** Selector lemmas *)

Lemma compareTo_spec (x y : bigDecimal) :
  (compareTo x y > 0 <-> x > y) /\
  (compareTo x y = 0 <-> x = y) /\
  (compareTo x y < 0 <-> x < y).
Proof.
  unfold compareTo. destruct (Z.compare_spec x y); lia.
Qed.

Lemma replaces_spec (r b : LoanMatchingResult) :
  replaces r b = true <-> strictly_better r b.
Proof.
  unfold replaces, strictly_better.
  destruct (compareTo_spec (Result.matchingEfficiency r)
                           (Result.matchingEfficiency b)) as (E1 & E2 & E3).
  destruct (compareTo_spec (Result.averageBorrowerRate r)
                           (Result.averageBorrowerRate b)) as (R1 & R2 & R3).
  repeat match goal with
         | |- context [?a >? ?b] => destruct (Z.gtb_spec a b)
         | |- context [?a =? ?b] => destruct (Z.eqb_spec a b)
         | |- context [?a <? ?b] => destruct (Z.ltb_spec a b)
         end; split; intros; try discriminate; try reflexivity; lia.
Qed.

Lemma winner_at_unique (l : list LoanMatchingResult) i w i' w' :
  winner_at l i w -> winner_at l i' w' -> i = i' /\ w = w'.
Proof.
  intros (Hi & Hmax & Hfirst) (Hi' & Hmax' & Hfirst').
  assert (i = i') as ->.
  { destruct (Nat.lt_trichotomy i i') as [Hlt | [Heq | Hgt]]; [| exact Heq |].
    - exfalso. apply (Hmax i' w' Hi'). exact (Hfirst' i w Hi Hlt).
    - exfalso. apply (Hmax' i w Hi). exact (Hfirst i' w' Hi' Hgt). }
  split; [reflexivity | congruence].
Qed.

(** An index at or beyond the length of [pre] finds, in [pre ++ [r]],
    nothing but [r]. *)
Ltac nth_error_last H :=
  match type of H with
  | nth_error (?pre ++ [_]) ?j = Some _ =>
      rewrite nth_error_app2 in H by lia;
      destruct (j - length pre)%nat as [| ?k]; simpl in H;
      [injection H as <- | destruct k; discriminate H]
  end.

Lemma winner_at_snoc_keep (pre : list LoanMatchingResult) i b r :
  winner_at pre i b -> ~ strictly_better r b -> winner_at (pre ++ [r]) i b.
Proof.
  intros (Hi & Hmax & Hfirst) Hnb.
  assert (Hlen : (i < length pre)%nat) by (apply nth_error_Some; congruence).
  split; [| split].
  - rewrite nth_error_app1 by lia. exact Hi.
  - intros j c Hj.
    destruct (Nat.lt_ge_cases j (length pre)) as [Hlt | Hge].
    + rewrite nth_error_app1 in Hj by lia. exact (Hmax j c Hj).
    + nth_error_last Hj. exact Hnb.
  - intros j c Hj Hlt. apply (Hfirst j c); [| exact Hlt].
    rewrite nth_error_app1 in Hj by lia. exact Hj.
Qed.

Lemma winner_at_snoc_replace (pre : list LoanMatchingResult) r :
  (forall c, In c pre -> strictly_better r c) ->
  winner_at (pre ++ [r]) (length pre) r.
Proof.
  intros Hall. split; [| split].
  - rewrite nth_error_app2, Nat.sub_diag by lia. reflexivity.
  - intros j c Hj.
    destruct (Nat.lt_ge_cases j (length pre)) as [Hlt | Hge].
    + rewrite nth_error_app1 in Hj by lia.
      specialize (Hall c (nth_error_In _ _ Hj)).
      unfold strictly_better in *. lia.
    + nth_error_last Hj. unfold strictly_better. lia.
  - intros j c Hj Hlt. rewrite nth_error_app1 in Hj by lia.
    exact (Hall c (nth_error_In _ _ Hj)).
Qed.

(** Loop invariant of [best_loop] once a feasible candidate is held: the
    state is the winner of the prefix read so far. *)
Lemma best_loop_winner (rest : list LoanMatchingResult) :
  forall (pre : list LoanMatchingResult) i b,
    Forall evaluator_consistent rest ->
    winner_at pre i b ->
    0 < Result.totalMatchedAmount b ->
    exists i' w, best_loop (Some b) rest = Some w /\ winner_at (pre ++ rest) i' w.
Proof.
  induction rest as [| r rest IH]; intros pre i b Hf Hw Hb.
  - exists i, b. rewrite app_nil_r. split; [reflexivity | exact Hw].
  - inversion Hf as [| ? ? Hr Hf']; subst. simpl.
    replace (pre ++ r :: rest) with ((pre ++ [r]) ++ rest)
      by (rewrite <- app_assoc; reflexivity).
    unfold evaluator_consistent in Hr.
    destruct (Result.feasible r); simpl.
    + destruct (replaces r b) eqn:Hrb.
      * apply replaces_spec in Hrb.
        apply (IH (pre ++ [r]) (length pre) r Hf'); [| exact Hr].
        apply winner_at_snoc_replace. intros c Hc.
        apply In_nth_error in Hc. destruct Hc as (j & Hj).
        destruct Hw as (_ & Hmax & _). specialize (Hmax j c Hj).
        unfold strictly_better in *. lia.
      * apply (IH (pre ++ [r]) i b Hf'); [| exact Hb].
        apply winner_at_snoc_keep; [exact Hw |].
        rewrite <- replaces_spec. congruence.
    + apply (IH (pre ++ [r]) i b Hf'); [| exact Hb].
      apply winner_at_snoc_keep; [exact Hw |].
      unfold strictly_better. lia.
Qed.

(** Before any feasible candidate is met, everything read is an
    infeasible result, all of them ties. *)
Lemma best_loop_from_null (rest : list LoanMatchingResult) :
  forall pre : list LoanMatchingResult,
    Forall (fun r => Result.totalMatchedAmount r = 0 /\
                     Result.matchingEfficiency r = 0 /\
                     Result.averageBorrowerRate r = 0) pre ->
    Forall evaluator_consistent rest ->
    (best_loop None rest = None /\
     Forall (fun r => Result.feasible r = false) rest)
    \/ exists i w, best_loop None rest = Some w /\ winner_at (pre ++ rest) i w.
Proof.
  induction rest as [| r rest IH]; intros pre Hpre Hf.
  - left. split; [reflexivity | constructor].
  - inversion Hf as [| ? ? Hr Hf']; subst. simpl.
    replace (pre ++ r :: rest) with ((pre ++ [r]) ++ rest)
      by (rewrite <- app_assoc; reflexivity).
    unfold evaluator_consistent in Hr.
    destruct (Result.feasible r) eqn:Hfeas; simpl.
    + right. apply (best_loop_winner rest (pre ++ [r]) (length pre) r Hf');
        [| exact Hr].
      apply winner_at_snoc_replace. intros c Hc.
      rewrite Forall_forall in Hpre. specialize (Hpre c Hc).
      unfold strictly_better. lia.
    + destruct (IH (pre ++ [r])) as [(Hnone & Hall) | Hsome];
        [apply Forall_app; split; [exact Hpre | repeat constructor; tauto]
        | exact Hf' | left | right; exact Hsome].
      split; [exact Hnone | constructor; assumption].
Qed.

Lemma best_loop_infeasible (l : list LoanMatchingResult) :
  forall b, Forall (fun r => Result.feasible r = false) l ->
            best_loop b l = b.
Proof.
  induction l as [| r l IH]; intros b Hf; [reflexivity |].
  inversion Hf as [| ? ? Hr Hf']; subst. simpl. rewrite Hr. simpl.
  apply IH, Hf'.
Qed.

(** C1 as stated is refuted: on the empty list the selector completes
    normally, it throws neither [EmptyResultSet] nor anything else. *)
Lemma selector_empty_list_no_failure :
  ~ (exists name, computeBestLoanResult [] = Throw name).
Proof.
  intros [name H]. unfold computeBestLoanResult in H. simpl in H.
  discriminate H.
Qed.

(** C1, amended: on an empty candidate list [computeBestLoanResult]
    raises no error; it completes normally with [undefined], the absent
    first element of the list. *)
Theorem selector_empty_list_returns_undefined :
  computeBestLoanResult [] = Normal None.
Proof. reflexivity. Qed.

(** C9: on a non-empty list without any feasible candidate the selector
    does not fail, it returns the first element of the list unchanged. *)
Theorem selector_all_infeasible_returns_first
    (first : LoanMatchingResult) (rest : list LoanMatchingResult) :
  Forall (fun r => Result.feasible r = false) (first :: rest) ->
  computeBestLoanResult (first :: rest) = Normal (Some first).
Proof.
  intros Hf. unfold computeBestLoanResult.
  rewrite (best_loop_infeasible _ None Hf). reflexivity.
Qed.

Lemma selector_all_infeasible_returns_first_witness :
  computeBestLoanResult [candidate false 0 0 0; candidate false 0 0 7]
  = Normal (Some (candidate false 0 0 0)).
Proof.
  apply (selector_all_infeasible_returns_first
           (candidate false 0 0 0) [candidate false 0 0 7]).
  repeat constructor.
Defined.

(** C6: on a non-empty list of candidates as the evaluator produces
    them (feasible with a positive matched amount, or infeasible with
    nothing matched) the selector returns the winner under the comparator
    (larger matched amount, then larger efficiency, then smaller average
    rate, then first seen): no candidate is strictly better than the
    winner, every earlier candidate is strictly worse, and these two
    conditions single out one position of the list, so equal lists have
    equal winners. *)
Theorem selector_returns_comparator_winner
    (possibleResults : list LoanMatchingResult) :
  possibleResults <> [] ->
  Forall evaluator_consistent possibleResults ->
  exists i w,
    computeBestLoanResult possibleResults = Normal (Some w) /\
    winner_at possibleResults i w /\
    (forall i' w', winner_at possibleResults i' w' -> i' = i /\ w' = w).
Proof.
  intros Hne Hf.
  assert (exists i w, computeBestLoanResult possibleResults = Normal (Some w) /\
                      winner_at possibleResults i w) as (i & w & Hsel & Hw).
  { unfold computeBestLoanResult.
    destruct (best_loop_from_null possibleResults [] (Forall_nil _) Hf)
      as [(Hnone & Hall) | (i & w & Hloop & Hw)].
    - destruct possibleResults as [| r rest]; [congruence |].
      exists 0%nat, r. rewrite Hnone. split; [reflexivity |].
      assert (Hzero : forall c, In c (r :: rest) ->
                Result.totalMatchedAmount c = 0 /\
                Result.matchingEfficiency c = 0 /\
                Result.averageBorrowerRate c = 0).
      { intros c Hc. rewrite Forall_forall in Hf, Hall.
        specialize (Hf c Hc). specialize (Hall c Hc).
        unfold evaluator_consistent in Hf. rewrite Hall in Hf. exact Hf. }
      split; [reflexivity | split].
      + intros j c Hj. pose proof (Hzero c (nth_error_In _ _ Hj)).
        pose proof (Hzero r (or_introl eq_refl)).
        unfold strictly_better. lia.
      + intros j c _ Hlt. lia.
    - exists i, w. rewrite Hloop. split; [reflexivity | exact Hw]. }
  exists i, w. split; [exact Hsel | split; [exact Hw |]].
  intros i' w' Hw'. exact (winner_at_unique _ _ _ _ _ Hw' Hw).
Qed.

Lemma selector_returns_comparator_winner_witness :
  exists i w,
    computeBestLoanResult
      [candidate false 0 0 0; candidate true 50 4000 500;
       candidate true 80 4000 600; candidate true 80 5000 700;
       candidate true 80 5000 650; candidate true 80 5000 650]
    = Normal (Some w) /\
    winner_at [candidate false 0 0 0; candidate true 50 4000 500;
               candidate true 80 4000 600; candidate true 80 5000 700;
               candidate true 80 5000 650; candidate true 80 5000 650] i w /\
    (forall i' w',
        winner_at [candidate false 0 0 0; candidate true 50 4000 500;
                   candidate true 80 4000 600; candidate true 80 5000 700;
                   candidate true 80 5000 650; candidate true 80 5000 650] i' w'
        -> i' = i /\ w' = w).
Proof.
  apply selector_returns_comparator_winner.
  - discriminate.
  - unfold evaluator_consistent, candidate. repeat constructor.
Defined.

Example selector_example :
  computeBestLoanResult
    [candidate true 50 4000 500; candidate true 80 4000 600;
     candidate true 80 5000 700; candidate true 80 5000 650;
     candidate true 80 5000 650]
  = Normal (nth_error [candidate true 50 4000 500; candidate true 80 4000 600;
                       candidate true 80 5000 700; candidate true 80 5000 650;
                       candidate true 80 5000 650] 3).
Proof. reflexivity. Qed.

(** ** Evaluator lemmas *)

Lemma fold_sum_shift (side : list LoanTask) :
  forall a, fold_left (fun acc task => acc + Task.principalAmount task) side a
            = a + availableAmount side.
Proof.
  unfold availableAmount. induction side as [| t side IH]; intros a; simpl.
  - lia.
  - rewrite IH, (IH (Task.principalAmount t)). lia.
Qed.

Lemma availableAmount_cons (t : LoanTask) (side : list LoanTask) :
  availableAmount (t :: side) = Task.principalAmount t + availableAmount side.
Proof.
  unfold availableAmount at 1. simpl. rewrite fold_sum_shift. lia.
Qed.

Lemma availableAmount_nonneg (side : list LoanTask) :
  Forall (fun task => 0 <= Task.principalAmount task) side ->
  0 <= availableAmount side.
Proof.
  induction 1 as [| t side Ht _ IH]; [unfold availableAmount; simpl; lia |].
  rewrite availableAmount_cons. lia.
Qed.

Lemma Forall_filter {A} (P : A -> Prop) (f : A -> bool) (l : list A) :
  Forall P l -> Forall P (filter f l).
Proof.
  intros H. apply Forall_forall. intros x Hx. apply filter_In in Hx.
  rewrite Forall_forall in H. apply H, Hx.
Qed.

Lemma side_totals_nonneg (g : list LoanTask) :
  Forall (fun task => 0 <= Task.principalAmount task) g ->
  0 <= availableAmount (lenders_of g) /\ 0 <= availableAmount (borrowers_of g).
Proof.
  intros Hg. split; apply availableAmount_nonneg, Forall_filter, Hg.
Qed.

Lemma acc_append_assoc (a b c : Acc.t) :
  acc_append (acc_append a b) c = acc_append a (acc_append b c).
Proof.
  unfold acc_append. simpl. f_equal; try lia. symmetry. apply app_assoc.
Qed.

Lemma acc_append_initial_l (a : Acc.t) : acc_append initial_acc a = a.
Proof. destruct a. unfold acc_append. simpl. reflexivity. Qed.

Lemma acc_append_initial_r (a : Acc.t) : acc_append a initial_acc = a.
Proof.
  destruct a. unfold acc_append. simpl. rewrite app_nil_r.
  f_equal; lia.
Qed.

(** An iteration only adds to the state. *)
Lemma process_matching_append (st : Acc.t) (matching : list LoanTask) :
  process_matching st matching
  = acc_append st (process_matching initial_acc matching).
Proof.
  unfold process_matching, acc_append, push_matching.
  destruct matching as [| t [| t' rest]].
  - simpl. f_equal; lia.
  - simpl. destruct (Task.isLender t); simpl; f_equal; lia.
  - destruct (_ >? _); [simpl; f_equal; lia |].
    destruct (findCommonMaturities _ _); simpl; f_equal; lia.
Qed.

Lemma fold_process_append (combination : list (list LoanTask)) :
  forall st,
    fold_left process_matching combination st
    = acc_append st (fold_left process_matching combination initial_acc).
Proof.
  induction combination as [| g c IH]; intros st; simpl.
  - symmetry. apply acc_append_initial_r.
  - rewrite IH, (IH (process_matching initial_acc g)).
    rewrite (process_matching_append st g). apply acc_append_assoc.
Qed.

Lemma fold_process_cons (g : list LoanTask) (c : list (list LoanTask)) :
  fold_left process_matching (g :: c) initial_acc
  = acc_append (process_matching initial_acc g)
               (fold_left process_matching c initial_acc).
Proof. simpl. apply fold_process_append. Qed.

Lemma fold_process_app (c1 c2 : list (list LoanTask)) :
  fold_left process_matching (c1 ++ c2) initial_acc
  = acc_append (fold_left process_matching c1 initial_acc)
               (fold_left process_matching c2 initial_acc).
Proof. rewrite fold_left_app. apply fold_process_append. Qed.

(** What one iteration contributes, by the three ways a group can go. *)
Lemma process_matching_cases (g : list LoanTask) :
  let st := process_matching initial_acc g in
  let m := group_matching g in
  let aL := availableAmount (lenders_of g) in
  let aB := availableAmount (borrowers_of g) in
  Acc.matchings st = [m] /\
  Matching.loanTasks m = g /\
  Matching.totalLenderAmount m = aL /\
  Matching.totalBorrowerAmount m = aB /\
  ((length g = 1%nat /\
    Matching.feasibility m = NONE /\ Matching.matchedAmount m = 0 /\
    Acc.totalLenderAmount st = aL /\ Acc.totalBorrowerAmount st = aB /\
    Acc.totalMatchedAmount st = 0)
   \/
   (length g <> 1%nat /\ fails_internal_check g /\
    (Matching.feasibility m = NO_RATE_OVERLAP \/
     Matching.feasibility m = MATURITY_MISMATCH) /\
    Matching.matchedAmount m = 0 /\
    Acc.totalLenderAmount st = 0 /\ Acc.totalBorrowerAmount st = 0 /\
    Acc.totalMatchedAmount st = 0)
   \/
   (length g <> 1%nat /\ ~ fails_internal_check g /\
    classified_matched m /\
    Matching.matchedAmount m = Z.min aL aB /\
    Matching.effectiveRate m
    = Z.quot (minLenderRate (lenders_of g) + maxBorrowerRate (borrowers_of g)) 2 /\
    (exists later,
        findCommonMaturities (lenders_of g) (borrowers_of g)
        = Matching.maturityTimestamp m :: later) /\
    Acc.totalLenderAmount st = aL /\ Acc.totalBorrowerAmount st = aB /\
    Acc.totalMatchedAmount st = Z.min aL aB)).
Proof.
  assert (Hmulti :
    forall g, length g <> 1%nat ->
      process_matching initial_acc g =
      if minLenderRate (lenders_of g) >? maxBorrowerRate (borrowers_of g) then
        push_matching initial_acc
          (Matching.mk g NO_RATE_OVERLAP (availableAmount (lenders_of g))
             (availableAmount (borrowers_of g)) 0 0 0)
      else
        match findCommonMaturities (lenders_of g) (borrowers_of g) with
        | [] =>
            push_matching initial_acc
              (Matching.mk g MATURITY_MISMATCH (availableAmount (lenders_of g))
                 (availableAmount (borrowers_of g)) 0 0 0)
        | earliest :: _ =>
            Acc.mk
              [Matching.mk g
                 (if availableAmount (lenders_of g) =? availableAmount (borrowers_of g)
                  then FULL_MATCH
                  else if availableAmount (lenders_of g) >? availableAmount (borrowers_of g)
                       then PARTIAL_LENDER else PARTIAL_BORROWER)
                 (availableAmount (lenders_of g)) (availableAmount (borrowers_of g))
                 (Z.min (availableAmount (lenders_of g)) (availableAmount (borrowers_of g)))
                 (Z.quot (minLenderRate (lenders_of g) + maxBorrowerRate (borrowers_of g)) 2)
                 earliest]
              (availableAmount (lenders_of g)) (availableAmount (borrowers_of g))
              (Z.min (availableAmount (lenders_of g)) (availableAmount (borrowers_of g)))
              (Z.quot (minLenderRate (lenders_of g) + maxBorrowerRate (borrowers_of g)) 2
               * Z.min (availableAmount (lenders_of g)) (availableAmount (borrowers_of g)))
              (Z.quot (minLenderRate (lenders_of g) + maxBorrowerRate (borrowers_of g)) 2
               * Z.min (availableAmount (lenders_of g)) (availableAmount (borrowers_of g)))
        end).
  { intros g' Hlen. unfold process_matching.
    destruct g' as [| t [| t' rest]]; [reflexivity | simpl in Hlen; lia |].
    reflexivity. }
  destruct (Nat.eq_dec (length g) 1) as [Hone | Hlen].
  - destruct g as [| t [| t' rest]]; try discriminate Hone.
    clear Hmulti. cbv zeta.
    split; [| split; [| split; [| split; [| left]]]].
    all: unfold group_matching, process_matching, lenders_of, borrowers_of,
           availableAmount; simpl.
    all: destruct (Task.isLender t); simpl;
           repeat (split; [reflexivity |]); reflexivity.
  - unfold group_matching. cbv zeta. rewrite (Hmulti g Hlen).
    destruct (Z.gtb_spec (minLenderRate (lenders_of g))
                         (maxBorrowerRate (borrowers_of g))) as [Hgt | Hle].
    + simpl. repeat split; try reflexivity.
      right; left. unfold fails_internal_check.
      repeat split; try reflexivity; auto; lia.
    + destruct (findCommonMaturities (lenders_of g) (borrowers_of g))
        as [| earliest later] eqn:Hcommon.
      * simpl. repeat split; try reflexivity.
        right; left. unfold fails_internal_check.
        repeat split; try reflexivity; auto.
      * simpl. repeat split; try reflexivity.
        right; right. unfold fails_internal_check, classified_matched. simpl.
        repeat split; try reflexivity.
        -- exact Hlen.
        -- intros [H | H]; [lia | rewrite Hcommon in H; discriminate].
        -- destruct (_ =? _); [| destruct (_ >? _)]; auto.
        -- exists later. reflexivity.
Qed.

Lemma matchings_of_fold (c : list (list LoanTask)) :
  Acc.matchings (fold_left process_matching c initial_acc)
  = map group_matching c.
Proof.
  induction c as [| g c IH]; [reflexivity |].
  rewrite fold_process_cons. simpl. rewrite IH.
  destruct (process_matching_cases g) as (-> & _). reflexivity.
Qed.

Lemma result_matchings (c : list (list LoanTask)) :
  Result.matchings (computeLoanMatchingResult c) = map group_matching c.
Proof. unfold computeLoanMatchingResult. simpl. apply matchings_of_fold. Qed.

(** With unsigned principals, the totals of a group and of a whole
    combination are ordered as expected. *)
Lemma group_totals_ordered (g : list LoanTask) :
  Forall (fun task => 0 <= Task.principalAmount task) g ->
  let st := process_matching initial_acc g in
  0 <= Acc.totalMatchedAmount st /\
  Acc.totalMatchedAmount st <= Acc.totalLenderAmount st /\
  Acc.totalMatchedAmount st <= Acc.totalBorrowerAmount st.
Proof.
  intros Hg.
  destruct (side_totals_nonneg g Hg) as (HL & HB).
  destruct (process_matching_cases g) as (_ & _ & _ & _ & Hcases).
  cbv zeta.
  destruct Hcases as [H | [H | H]]; decompose [and] H; lia.
Qed.

Lemma fold_totals_ordered (c : list (list LoanTask)) :
  nonneg_principals c ->
  let st := fold_left process_matching c initial_acc in
  0 <= Acc.totalMatchedAmount st /\
  Acc.totalMatchedAmount st <= Acc.totalLenderAmount st /\
  Acc.totalMatchedAmount st <= Acc.totalBorrowerAmount st.
Proof.
  unfold nonneg_principals.
  induction 1 as [| g c Hg _ IH]; [simpl; lia |].
  cbv zeta. rewrite fold_process_cons.
  pose proof (group_totals_ordered g Hg) as Hgt. cbv zeta in Hgt, IH.
  unfold acc_append. simpl. lia.
Qed.

(** Every evaluated partition is a candidate as [evaluator_consistent]
    describes them. *)
Lemma evaluator_results_consistent (c : list (list LoanTask)) :
  nonneg_principals c -> evaluator_consistent (computeLoanMatchingResult c).
Proof.
  intros Hnn. pose proof (fold_totals_ordered c Hnn) as H. cbv zeta in H.
  unfold evaluator_consistent, computeLoanMatchingResult. simpl.
  destruct (Z.gtb_spec (Acc.totalMatchedAmount
                          (fold_left process_matching c initial_acc)) 0)
    as [Hpos | Hzero].
  - lia.
  - assert (Acc.totalMatchedAmount (fold_left process_matching c initial_acc) = 0)
      as -> by lia.
    unfold bigDecimal_divide_floor, bigDecimal_zero. simpl.
    destruct (_ >? 0); rewrite ?Zdiv_0_l; auto.
Qed.

(** C8: for every partition with unsigned principals, every group of the
    result has [matchedAmount] at most the smaller of the group's total
    lender principal and total borrower principal (the sums over the
    group's orders, which the group's two total fields hold), and the
    result's two unmatched amounts are not negative. *)
Theorem matched_bounded_unmatched_nonneg (combination : list (list LoanTask)) :
  nonneg_principals combination ->
  let result := computeLoanMatchingResult combination in
  (forall m, In m (Result.matchings result) ->
     Matching.totalLenderAmount m
     = availableAmount (lenders_of (Matching.loanTasks m)) /\
     Matching.totalBorrowerAmount m
     = availableAmount (borrowers_of (Matching.loanTasks m)) /\
     Matching.matchedAmount m
     <= Z.min (availableAmount (lenders_of (Matching.loanTasks m)))
              (availableAmount (borrowers_of (Matching.loanTasks m)))) /\
  0 <= Result.unmatchedLenderAmount result /\
  0 <= Result.unmatchedBorrowerAmount result.
Proof.
  intros Hnn. cbv zeta. split.
  - intros m Hm. rewrite result_matchings in Hm.
    apply in_map_iff in Hm. destruct Hm as (g & <- & Hg).
    unfold nonneg_principals in Hnn. rewrite Forall_forall in Hnn.
    specialize (Hnn g Hg).
    destruct (side_totals_nonneg g Hnn) as (HL & HB).
    destruct (process_matching_cases g) as (_ & -> & HtL & HtB & Hcases).
    repeat split; try assumption.
    destruct Hcases as [H | [H | H]]; decompose [and] H; lia.
  - pose proof (fold_totals_ordered combination Hnn) as H. cbv zeta in H.
    unfold computeLoanMatchingResult. simpl. lia.
Qed.

Lemma matched_bounded_unmatched_nonneg_witness :
  let result := computeLoanMatchingResult scenario_A in
  (forall m, In m (Result.matchings result) ->
     Matching.totalLenderAmount m
     = availableAmount (lenders_of (Matching.loanTasks m)) /\
     Matching.totalBorrowerAmount m
     = availableAmount (borrowers_of (Matching.loanTasks m)) /\
     Matching.matchedAmount m
     <= Z.min (availableAmount (lenders_of (Matching.loanTasks m)))
              (availableAmount (borrowers_of (Matching.loanTasks m)))) /\
  0 <= Result.unmatchedLenderAmount result /\
  0 <= Result.unmatchedBorrowerAmount result.
Proof.
  apply (matched_bounded_unmatched_nonneg scenario_A).
  unfold nonneg_principals, scenario_A, order.
  repeat constructor; simpl; lia.
Defined.

Lemma result_totals (c : list (list LoanTask)) :
  let st := fold_left process_matching c initial_acc in
  let result := computeLoanMatchingResult c in
  Result.totalLenderAmount result = Acc.totalLenderAmount st /\
  Result.totalBorrowerAmount result = Acc.totalBorrowerAmount st /\
  Result.totalMatchedAmount result = Acc.totalMatchedAmount st /\
  Result.unmatchedLenderAmount result
  = Acc.totalLenderAmount st - Acc.totalMatchedAmount st /\
  Result.unmatchedBorrowerAmount result
  = Acc.totalBorrowerAmount st - Acc.totalMatchedAmount st.
Proof. unfold computeLoanMatchingResult. simpl. repeat split. Qed.

(** C10: a group of more than one order that fails the evaluator's
    rate-overlap or common-maturity check leaves the result's total
    lender, total borrower, total matched and both unmatched amounts as
    they are without the group, whereas a singleton group adds its
    principal to the total (and unmatched amount) of its own side. *)
Theorem failed_group_contributes_nothing
    (before after : list (list LoanTask)) (g : list LoanTask) (task : LoanTask) :
  length g <> 1%nat ->
  fails_internal_check g ->
  let without := computeLoanMatchingResult (before ++ after) in
  let with_group := computeLoanMatchingResult (before ++ g :: after) in
  let with_single := computeLoanMatchingResult (before ++ [task] :: after) in
  let lent := if Task.isLender task then Task.principalAmount task else 0 in
  let borrowed := if Task.isLender task then 0 else Task.principalAmount task in
  (Result.totalLenderAmount with_group = Result.totalLenderAmount without /\
   Result.totalBorrowerAmount with_group = Result.totalBorrowerAmount without /\
   Result.totalMatchedAmount with_group = Result.totalMatchedAmount without /\
   Result.unmatchedLenderAmount with_group
   = Result.unmatchedLenderAmount without /\
   Result.unmatchedBorrowerAmount with_group
   = Result.unmatchedBorrowerAmount without) /\
  (Result.totalLenderAmount with_single
   = Result.totalLenderAmount without + lent /\
   Result.totalBorrowerAmount with_single
   = Result.totalBorrowerAmount without + borrowed /\
   Result.totalMatchedAmount with_single = Result.totalMatchedAmount without /\
   Result.unmatchedLenderAmount with_single
   = Result.unmatchedLenderAmount without + lent /\
   Result.unmatchedBorrowerAmount with_single
   = Result.unmatchedBorrowerAmount without + borrowed).
Proof.
  intros Hlen Hfail. cbv zeta.
  destruct (result_totals (before ++ after)) as (-> & -> & -> & -> & ->).
  destruct (result_totals (before ++ g :: after)) as (-> & -> & -> & -> & ->).
  destruct (result_totals (before ++ [task] :: after))
    as (-> & -> & -> & -> & ->).
  rewrite !fold_process_app, !fold_process_cons.
  unfold acc_append; simpl Acc.totalLenderAmount;
    simpl Acc.totalBorrowerAmount; simpl Acc.totalMatchedAmount.
  split.
  - destruct (process_matching_cases g) as (_ & _ & _ & _ & Hcases).
    destruct Hcases as [H | [H | H]]; decompose [and] H; try contradiction.
    repeat split; lia.
  - unfold process_matching. simpl.
    destruct (Task.isLender task); simpl; repeat split; lia.
Qed.

Lemma failed_group_contributes_nothing_witness :
  let task := order true 25 500 1 "L5" 5 in
  let without := computeLoanMatchingResult (around_before ++ around_after) in
  let with_group :=
    computeLoanMatchingResult (around_before ++ no_overlap_group :: around_after) in
  let with_single :=
    computeLoanMatchingResult (around_before ++ [task] :: around_after) in
  let lent := if Task.isLender task then Task.principalAmount task else 0 in
  let borrowed := if Task.isLender task then 0 else Task.principalAmount task in
  (Result.totalLenderAmount with_group = Result.totalLenderAmount without /\
   Result.totalBorrowerAmount with_group = Result.totalBorrowerAmount without /\
   Result.totalMatchedAmount with_group = Result.totalMatchedAmount without /\
   Result.unmatchedLenderAmount with_group
   = Result.unmatchedLenderAmount without /\
   Result.unmatchedBorrowerAmount with_group
   = Result.unmatchedBorrowerAmount without) /\
  (Result.totalLenderAmount with_single
   = Result.totalLenderAmount without + lent /\
   Result.totalBorrowerAmount with_single
   = Result.totalBorrowerAmount without + borrowed /\
   Result.totalMatchedAmount with_single = Result.totalMatchedAmount without /\
   Result.unmatchedLenderAmount with_single
   = Result.unmatchedLenderAmount without + lent /\
   Result.unmatchedBorrowerAmount with_single
   = Result.unmatchedBorrowerAmount without + borrowed).
Proof.
  apply (failed_group_contributes_nothing around_before around_after
           no_overlap_group (order true 25 500 1 "L5" 5)).
  - simpl. lia.
  - left. vm_compute. reflexivity.
Defined.

Example failed_group_example :
  map Matching.feasibility
      (Result.matchings
         (computeLoanMatchingResult
            (around_before ++ no_overlap_group :: around_after)))
  = [PARTIAL_LENDER; NO_RATE_OVERLAP; NONE]
  /\ Result.totalLenderAmount
       (computeLoanMatchingResult
          (around_before ++ no_overlap_group :: around_after)) = 100
  /\ Result.totalBorrowerAmount
       (computeLoanMatchingResult
          (around_before ++ no_overlap_group :: around_after)) = 100.
Proof. vm_compute. repeat split. Qed.

(** ** Maturity sets *)

Lemma existsb_eqb_In (x : Z) (s : list Z) :
  existsb (Z.eqb x) s = true <-> In x s.
Proof.
  rewrite existsb_exists. split.
  - intros (y & Hy & Heq). apply Z.eqb_eq in Heq. subst. exact Hy.
  - intros H. exists x. split; [exact H | apply Z.eqb_refl].
Qed.

Lemma set_has_In (s : list Z) (x : Z) : set_has s x = true <-> In x s.
Proof. apply existsb_eqb_In. Qed.

Lemma js_set_fold_In (xs : list Z) :
  forall s x,
    In x (fold_left (fun s x => if existsb (Z.eqb x) s then s else s ++ [x]) xs s)
    <-> In x s \/ In x xs.
Proof.
  induction xs as [| a xs IH]; intros s x; simpl.
  - tauto.
  - rewrite IH. destruct (existsb (Z.eqb a) s) eqn:Ha.
    + apply existsb_eqb_In in Ha. split; [tauto |].
      intros [H | [H | H]]; subst; auto.
    + rewrite in_app_iff. simpl. tauto.
Qed.

Lemma js_set_In (xs : list Z) (x : Z) : In x (js_set xs) <-> In x xs.
Proof. unfold js_set. rewrite js_set_fold_In. simpl. tauto. Qed.

Lemma insert_ascending_In (x y : Z) (l : list Z) :
  In y (insert_ascending x l) <-> y = x \/ In y l.
Proof.
  induction l as [| z l IH]; simpl; [intuition congruence |].
  destruct (x <=? z); simpl; [intuition congruence |].
  rewrite IH. intuition congruence.
Qed.

Lemma sort_ascending_In (l : list Z) (y : Z) :
  In y (sort_ascending l) <-> In y l.
Proof.
  induction l as [| x l IH]; simpl; [tauto |].
  rewrite insert_ascending_In, IH. intuition congruence.
Qed.

Lemma insert_ascending_head (x : Z) (l : list Z) :
  (forall m rest, l = m :: rest -> forall y, In y l -> m <= y) ->
  forall m rest, insert_ascending x l = m :: rest ->
                 forall y, In y (insert_ascending x l) -> m <= y.
Proof.
  intros Hl m rest Hins y Hy. apply insert_ascending_In in Hy.
  destruct l as [| z l]; simpl in Hins.
  - injection Hins as <- <-. destruct Hy as [-> | []]. lia.
  - specialize (Hl z l eq_refl).
    destruct (Z.leb_spec x z) as [Hle | Hgt]; injection Hins as <- <-.
    + destruct Hy as [-> | Hy]; [lia |]. specialize (Hl y Hy). lia.
    + destruct Hy as [-> | Hy]; [lia |]. exact (Hl y Hy).
Qed.

Lemma sort_ascending_head (l : list Z) :
  forall m rest, sort_ascending l = m :: rest ->
                 forall y, In y l -> m <= y.
Proof.
  induction l as [| x l IH]; intros m rest Hs y Hy; [destruct Hy |].
  apply (insert_ascending_head x (sort_ascending l)) with (rest := rest).
  - intros m' rest' Heq y' Hy'. apply (IH m' rest' Heq).
    apply sort_ascending_In. exact Hy'.
  - exact Hs.
  - apply (sort_ascending_In (x :: l)). exact Hy.
Qed.

Lemma In_side_maturity (f : LoanTask -> bool) (g : list LoanTask) (m : Z) :
  In m (map Task.maturityTimestamp (filter f g)) <->
  exists t, In t g /\ f t = true /\ Task.maturityTimestamp t = m.
Proof.
  rewrite in_map_iff. split.
  - intros (t & Hm & Ht). apply filter_In in Ht. exists t. tauto.
  - intros (t & Ht & Hf & Hm). exists t. rewrite filter_In. tauto.
Qed.

Lemma findCommonMaturities_In (g : list LoanTask) (m : Z) :
  In m (findCommonMaturities (lenders_of g) (borrowers_of g)) <->
  common_maturity g m.
Proof.
  unfold findCommonMaturities, common_maturity, lenders_of, borrowers_of.
  rewrite sort_ascending_In, filter_In, set_has_In, !js_set_In,
    !In_side_maturity.
  split.
  - intros ((l & Hl & Hfl & Hml) & (b & Hb & Hfb & Hmb)).
    exists l, b. apply negb_true_iff in Hfb. tauto.
  - intros (l & b & Hl & Hb & Hfl & Hfb & Hml & Hmb). split.
    + exists l. tauto.
    + exists b. rewrite Hfb. simpl. tauto.
Qed.

Lemma hasCommonMaturity_true (g : list LoanTask) :
  hasCommonMaturity (lenders_of g) (borrowers_of g) = true ->
  exists m, common_maturity g m.
Proof.
  unfold hasCommonMaturity. rewrite existsb_exists.
  intros (m & Hl & Hb). exists m. apply findCommonMaturities_In.
  unfold findCommonMaturities.
  rewrite sort_ascending_In, filter_In. tauto.
Qed.

Lemma possible_group (c : list (list LoanTask)) (g : list LoanTask) :
  isLoanCombinationPossible c = true -> In g c -> length g <> 1%nat ->
  group_possible g = true.
Proof.
  induction c as [| g' c IH]; intros Hp Hg Hlen; [destruct Hg |].
  simpl in Hp. destruct Hg as [-> | Hg].
  - destruct (Nat.eqb_spec (length g) 1); [contradiction |].
    destruct (group_possible g); [reflexivity | discriminate].
  - destruct (length g' =? 1)%nat; [exact (IH Hp Hg Hlen) |].
    destruct (group_possible g'); [exact (IH Hp Hg Hlen) | discriminate].
Qed.

(** *** Buckets of the caller *)

Lemma add_to_group_In (maturityKey : Z) (task : LoanTask)
    (groups : list (Z * list LoanTask)) (key : Z) (bucket : list LoanTask) :
  In (key, bucket) (add_to_group maturityKey task groups) ->
  In (key, bucket) groups \/
  (key = maturityKey /\
   (bucket = [task] \/
    exists before, In (key, before) groups /\ bucket = before ++ [task])).
Proof.
  induction groups as [| (k, ts) groups IH]; simpl.
  - intros [Heq | []]. injection Heq as <- <-. right. auto.
  - destruct (Z.eqb_spec k maturityKey) as [-> | Hne]; simpl.
    + intros [Heq | Hin]; [| left; right; exact Hin].
      injection Heq as <- <-. right. split; [reflexivity |].
      right. exists ts. split; [left |]; reflexivity.
    + intros [Heq | Hin]; [left; left; exact Heq |].
      destruct (IH Hin) as [H | (Hk & [Hb | (before & Hbef & Hb)])].
      * left. right. exact H.
      * right. auto.
      * right. split; [exact Hk |]. right. exists before. auto.
Qed.

Lemma groupByMaturity_fold_sound (rest : list LoanTask) :
  forall seen groups,
    NoDup (map Task.taskId (seen ++ rest)) ->
    buckets_sound seen groups ->
    buckets_sound (seen ++ rest)
      (fold_left (fun groups task =>
                    add_to_group (Task.maturityTimestamp task) task groups)
                 rest groups).
Proof.
  induction rest as [| task rest IH]; intros seen groups Hnd Hsound.
  - simpl. rewrite app_nil_r. exact Hsound.
  - simpl.
    replace (seen ++ task :: rest) with ((seen ++ [task]) ++ rest) in *
      by (rewrite <- app_assoc; reflexivity).
    apply IH; [exact Hnd |].
    assert (Hfresh : ~ In (Task.taskId task) (map Task.taskId seen)).
    { rewrite !map_app in Hnd. apply NoDup_app_remove_r in Hnd.
      simpl in Hnd. apply NoDup_remove_2 in Hnd.
      rewrite app_nil_r in Hnd. exact Hnd. }
    intros key bucket Hin.
    apply add_to_group_In in Hin.
    destruct Hin as [Hold | (-> & [-> | (before & Hbef & ->)])].
    + destruct (Hsound key bucket Hold) as (Hnb & Hmem).
      split; [exact Hnb |]. intros t Ht. destruct (Hmem t Ht).
      split; [apply in_or_app; left |]; assumption.
    + split; [simpl; constructor; [intros [] | constructor] |].
      intros t [<- | []]. split; [| reflexivity].
      apply in_or_app. right. left. reflexivity.
    + destruct (Hsound _ before Hbef) as (Hnb & Hmem).
      split.
      * rewrite map_app. simpl. apply NoDup_app; [exact Hnb | | ].
        -- constructor; [intros [] | constructor].
        -- intros id Hid [<- | []]. apply Hfresh.
           apply in_map_iff in Hid. destruct Hid as (t & <- & Ht).
           apply in_map. apply (Hmem t Ht).
      * intros t Ht. apply in_app_or in Ht. destruct Ht as [Ht | [<- | []]].
        -- destruct (Hmem t Ht). split; [apply in_or_app; left |]; assumption.
        -- split; [| reflexivity]. apply in_or_app. right. left. reflexivity.
Qed.

Lemma groupByMaturity_sound (tasks : list LoanTask) :
  NoDup (map Task.taskId tasks) ->
  buckets_sound tasks (groupByMaturity tasks).
Proof.
  intros Hnd. unfold groupByMaturity.
  apply (groupByMaturity_fold_sound tasks [] []); [exact Hnd |].
  intros key bucket [].
Qed.

(** C4 as stated is refuted: a group that passes the filter and that the
    evaluator classifies as matched can hold orders of two maturities. *)
Lemma mixed_maturities_are_matched :
  ~ (forall c g,
        isLoanCombinationPossible c = true -> In g c -> (1 < length g)%nat ->
        classified_matched (group_matching g) -> single_maturity g).
Proof.
  intros H.
  specialize (H [mixed_maturity_group] mixed_maturity_group).
  assert (Hsingle : single_maturity mixed_maturity_group).
  { apply H.
    - vm_compute. reflexivity.
    - left. reflexivity.
    - simpl. lia.
    - left. vm_compute. reflexivity. }
  specialize (Hsingle (order true 100 500 100 "L1" 1)
                      (order true 100 500 200 "L2" 2)).
  simpl in Hsingle.
  assert (100 = 200) as Habs by (apply Hsingle; auto).
  discriminate Habs.
Qed.

(** C4, amended: in every partition that passes the filter, each group
    of more than one order holds a lender and a borrower with exactly
    equal maturity timestamps; each group that the evaluator classifies
    as matched holds such a pair maturing at the group's own maturity
    timestamp, which is the earliest maturity that a lender and a borrower
    of the group share; other orders of such a group may carry other
    maturities.  Orders of two maturities never share a group when the
    partition is generated from a bucket of [groupByMaturity], the way the
    operator calls the generator (orders of distinct ids). *)
Theorem matched_group_shares_a_maturity
    (c : list (list LoanTask)) (g : list LoanTask) :
  In g c ->
  length g <> 1%nat ->
  (isLoanCombinationPossible c = true -> exists maturity, common_maturity g maturity)
  /\
  (forall m,
      In m (Result.matchings (computeLoanMatchingResult c)) ->
      Matching.loanTasks m = g ->
      classified_matched m ->
      common_maturity g (Matching.maturityTimestamp m) /\
      forall maturity, common_maturity g maturity ->
                       Matching.maturityTimestamp m <= maturity)
  /\
  (forall batch key bucket,
      NoDup (map Task.taskId batch) ->
      In (key, bucket) (groupByMaturity batch) ->
      In c (generateLoanTaskCombinations bucket) ->
      single_maturity g).
Proof.
  intros Hg Hlen. split; [| split].
  - intros Hp. pose proof (possible_group c g Hp Hg Hlen) as Hgp.
    unfold group_possible in Hgp.
    destruct (_ || _); [discriminate |].
    destruct (number_gtb _ _); [discriminate |].
    apply hasCommonMaturity_true, Hgp.
  - intros m Hm Htasks Hcl. rewrite result_matchings in Hm.
    apply in_map_iff in Hm. destruct Hm as (g' & <- & _).
    destruct (process_matching_cases g') as (_ & Hg' & _ & _ & Hcases).
    rewrite Hg' in Htasks. subst g'.
    unfold classified_matched in Hcl.
    destruct Hcases as [H | [H | H]]; decompose [and] H; clear H.
    + contradiction.
    + match goal with
      | Hf : _ \/ _ |- _ => destruct Hf as [Hf | Hf]; rewrite Hf in Hcl
      end; destruct Hcl as [Hc | [Hc | Hc]]; discriminate Hc.
    + match goal with
      | He : exists later, _ |- _ => destruct He as (later & Hcommon)
      end.
      split.
      * apply findCommonMaturities_In. rewrite Hcommon. left. reflexivity.
      * intros maturity Hmat. apply findCommonMaturities_In in Hmat.
        unfold findCommonMaturities in Hcommon, Hmat.
        apply (sort_ascending_head _ _ _ Hcommon).
        apply sort_ascending_In. exact Hmat.
  - intros batch key bucket Hids Hbucket Hgen.
    destruct (groupByMaturity_sound batch Hids key bucket Hbucket)
      as (Hnb & Hmem).
    assert (bucket <> []) as Hne by (intros ->; destruct Hgen).
    destruct (generator_enumerates bucket Hne Hnb) as (Hpart & _).
    assert (Hkey : forall x, In x g -> Task.maturityTimestamp x = key).
    { intros x Hx. apply Hmem.
      apply (partition_members bucket c x (Hpart c Hgen)).
      apply in_concat. exists g. auto. }
    intros x y Hx Hy. rewrite (Hkey x Hx), (Hkey y Hy). reflexivity.
Qed.

Lemma matched_group_shares_a_maturity_witness :
  (isLoanCombinationPossible [mixed_maturity_group] = true ->
   exists maturity, common_maturity mixed_maturity_group maturity)
  /\
  (forall m,
      In m (Result.matchings (computeLoanMatchingResult [mixed_maturity_group])) ->
      Matching.loanTasks m = mixed_maturity_group ->
      classified_matched m ->
      common_maturity mixed_maturity_group (Matching.maturityTimestamp m) /\
      forall maturity, common_maturity mixed_maturity_group maturity ->
                       Matching.maturityTimestamp m <= maturity)
  /\
  (forall batch key bucket,
      NoDup (map Task.taskId batch) ->
      In (key, bucket) (groupByMaturity batch) ->
      In [mixed_maturity_group] (generateLoanTaskCombinations bucket) ->
      single_maturity mixed_maturity_group).
Proof.
  apply (matched_group_shares_a_maturity [mixed_maturity_group]
           mixed_maturity_group).
  - left. reflexivity.
  - simpl. lia.
Defined.

Example grouped_batch_example :
  map (fun '(key, bucket) => (key, map Task.sender bucket))
      (groupByMaturity two_maturity_batch)
  = [(100, ["L1"; "B1"]); (200, ["L2"; "B2"])].
Proof. vm_compute. reflexivity. Qed.

Example mixed_maturity_example :
  isLoanCombinationPossible [mixed_maturity_group] = true /\
  map (fun m => (Matching.feasibility m, Matching.maturityTimestamp m))
      (Result.matchings (computeLoanMatchingResult [mixed_maturity_group]))
  = [(FULL_MATCH, 100)] /\
  map (fun t => (Transfer.lender t, Transfer.amount t, Transfer.maturityTimestamp t))
      (computeLoanTransfers (computeLoanMatchingResult [mixed_maturity_group]))
  = [("L1", 100, 100); ("L2", 100, 100)].
Proof. vm_compute. repeat split. Qed.

(** ** Effective rate *)

Lemma Number_safe (r : Z) :
  0 <= r <= MAX_SAFE_INTEGER -> Number r = Finite r.
Proof.
  unfold MAX_SAFE_INTEGER. intros Hr. unfold Number, round_to_double.
  rewrite (Z.abs_eq r) by lia.
  assert ((Z.log2 r - 52 <=? 0) = true) as ->.
  { apply Z.leb_le. destruct (Z.eq_dec r 0) as [-> | Hnz]; [simpl; lia |].
    assert (Z.log2 r < 53); [| lia].
    apply Z.log2_lt_pow2; [lia |]. change (2 ^ 53) with 9007199254740992. lia. }
  assert ((2 ^ 1024 <=? r) = false) as ->.
  { apply Z.leb_gt.
    assert (2 ^ 53 <= 2 ^ 1024) by (apply Z.pow_le_mono_r; lia).
    change (2 ^ 53) with 9007199254740992 in *.
    generalize dependent (2 ^ 1024). intros. lia. }
  f_equal. destruct (Z.eq_dec r 0) as [-> | Hnz]; [reflexivity |].
  rewrite Z.sgn_pos by lia. lia.
Qed.

Lemma fold_min_rates (side : list LoanTask) :
  forall a, fold_left (fun acc l => Z.min acc (Task.interestRateBips l)) side a
            = fold_left Z.min (map Task.interestRateBips side) a.
Proof. induction side as [| t side IH]; intros a; simpl; auto. Qed.

Lemma fold_max_rates (side : list LoanTask) :
  forall a, fold_left (fun acc b => Z.max acc (Task.interestRateBips b)) side a
            = fold_left Z.max (map Task.interestRateBips side) a.
Proof. induction side as [| t side IH]; intros a; simpl; auto. Qed.

Lemma Math_min_safe (side : list LoanTask) :
  safe_rates side ->
  forall a, fold_left (fun acc x => if number_leb acc x then acc else x)
                      (rates_as_numbers side) (Finite a)
            = Finite (fold_left Z.min (map Task.interestRateBips side) a).
Proof.
  induction 1 as [| t side Ht _ IH]; intros a; simpl; [reflexivity |].
  rewrite (Number_safe _ Ht). simpl.
  destruct (Z.leb_spec a (Task.interestRateBips t)).
  - rewrite IH, Z.min_l by lia. reflexivity.
  - rewrite IH, Z.min_r by lia. reflexivity.
Qed.

Lemma Math_max_safe (side : list LoanTask) :
  safe_rates side ->
  forall a, fold_left (fun acc x => if number_leb x acc then acc else x)
                      (rates_as_numbers side) (Finite a)
            = Finite (fold_left Z.max (map Task.interestRateBips side) a).
Proof.
  induction 1 as [| t side Ht _ IH]; intros a; simpl; [reflexivity |].
  rewrite (Number_safe _ Ht). simpl.
  destruct (Z.leb_spec (Task.interestRateBips t) a).
  - rewrite IH, Z.max_l by lia. reflexivity.
  - rewrite IH, Z.max_r by lia. reflexivity.
Qed.

Lemma fold_max_lower (l : list Z) : forall a, a <= fold_left Z.max l a.
Proof.
  induction l as [| x l IH]; intros a; simpl; [lia |].
  specialize (IH (Z.max a x)). lia.
Qed.

Lemma fold_min_bounds (l : list Z) :
  forall a, 0 <= a -> Forall (fun x => 0 <= x) l ->
            0 <= fold_left Z.min l a.
Proof.
  induction l as [| x l IH]; intros a Ha Hl; simpl; [lia |].
  inversion Hl; subst. apply IH; [lia | assumption].
Qed.

(** On rates between 0 and 2^53 - 1 the claim on the effective rate
    holds: a group of more than one order in a partition that passed the
    filter is classified as matched, at the floor of the mean of the least
    lender rate and the greatest borrower rate. *)
Lemma effectiveRate_on_safe_rates (c : list (list LoanTask))
    (g : list LoanTask) :
  isLoanCombinationPossible c = true -> In g c -> length g <> 1%nat ->
  safe_rates g ->
  classified_matched (group_matching g) /\
  Some (Matching.effectiveRate (group_matching g)) = specified_effectiveRate g.
Proof.
  intros Hp Hg Hlen Hsafe.
  pose proof (possible_group c g Hp Hg Hlen) as Hgp.
  unfold group_possible in Hgp.
  assert (HsafeL : safe_rates (lenders_of g)) by (apply Forall_filter, Hsafe).
  assert (HsafeB : safe_rates (borrowers_of g)) by (apply Forall_filter, Hsafe).
  destruct (lenders_of g) as [| l ls] eqn:HL; [discriminate Hgp |].
  destruct (borrowers_of g) as [| b bs] eqn:HB; [discriminate Hgp |].
  simpl in Hgp.
  inversion HsafeL as [| ? ? Hl Hls]; subst.
  inversion HsafeB as [| ? ? Hb Hbs]; subst.
  unfold Math_min, Math_max in Hgp. simpl in Hgp.
  rewrite (Number_safe _ Hl), (Number_safe _ Hb) in Hgp. simpl in Hgp.
  rewrite (Math_min_safe ls Hls), (Math_max_safe bs Hbs) in Hgp.
  set (lo := fold_left Z.min (map Task.interestRateBips ls)
                       (Task.interestRateBips l)) in *.
  set (hi := fold_left Z.max (map Task.interestRateBips bs)
                       (Task.interestRateBips b)) in *.
  assert (HminL : minLenderRate (lenders_of g) = lo).
  { rewrite HL. unfold minLenderRate. simpl. rewrite fold_min_rates.
    unfold MAX_SAFE_INTEGER in *. rewrite Z.min_r by lia. reflexivity. }
  assert (HmaxB : maxBorrowerRate (borrowers_of g) = hi).
  { rewrite HB. unfold maxBorrowerRate. simpl. rewrite fold_max_rates.
    rewrite Z.max_r by lia. reflexivity. }
  assert (Hlo : 0 <= lo).
  { apply fold_min_bounds; [lia |]. apply Forall_forall. intros x Hx.
    apply in_map_iff in Hx. destruct Hx as (t & <- & Ht).
    unfold safe_rates in Hls. rewrite Forall_forall in Hls.
    apply (Hls t Ht). }
  assert (Hhi : 0 <= hi).
  { pose proof (fold_max_lower (map Task.interestRateBips bs)
                  (Task.interestRateBips b)). fold hi in H. lia. }
  assert (Hrates : lo <= hi).
  { unfold number_gtb in Hgp. simpl in Hgp.
    destruct (Z.leb_spec lo hi); [assumption | discriminate Hgp]. }
  assert (Hcommon : hasCommonMaturity (lenders_of g) (borrowers_of g) = true).
  { rewrite HL, HB. unfold number_gtb in Hgp. simpl in Hgp.
    destruct (lo <=? hi); [exact Hgp | discriminate Hgp]. }
  apply hasCommonMaturity_true in Hcommon. destruct Hcommon as (m & Hm).
  apply findCommonMaturities_In in Hm.
  destruct (process_matching_cases g) as (_ & _ & _ & _ & Hcases).
  destruct Hcases as [H | [H | H]]; decompose [and] H; clear H.
  - contradiction.
  - match goal with
    | Hf : fails_internal_check g |- _ => destruct Hf as [Hgt | Hnil]
    end.
    + rewrite HminL, HmaxB in Hgt. lia.
    + rewrite Hnil in Hm. destruct Hm.
  - split; [assumption |].
    match goal with
    | He : Matching.effectiveRate _ = _ |- _ => rewrite He
    end.
    unfold specified_effectiveRate, rate_minimum, rate_maximum.
    rewrite HL, HB, <- HL, <- HB, HminL, HmaxB.
    rewrite Z.quot_div_nonneg by lia. reflexivity.
Qed.

(** C7 at the failing input: both orders of the group ask 2^60 basis
    points; the partition passes the filter and the group is a full
    match, yet its effective rate is (2^53 - 1 + 2^60) / 2 and not the
    specified 2^60, because the evaluator seeds the lender minimum with
    [Number.MAX_SAFE_INTEGER]. *)
Theorem effectiveRate_capped_by_seed :
  isLoanCombinationPossible [huge_rate_group] = true /\
  map (fun m => (Matching.feasibility m, Matching.effectiveRate m))
      (Result.matchings (computeLoanMatchingResult [huge_rate_group]))
  = [(FULL_MATCH, 580964351930793983)] /\
  specified_effectiveRate huge_rate_group = Some 1152921504606846976.
Proof. vm_compute. repeat split. Qed.

(** ** Transfers of a lender *)

(** C2 at the failing input (Scenario A as one group): the lender "L1",
    of principal 10000 and share 10000, is drawn for 20000, since its
    share is taken afresh for each of the two borrowers. *)
Theorem lender_drawn_beyond_share :
  let result := computeLoanMatchingResult scenario_A in
  let L1 := order true 10000 500 1 "L1" 1 in
  map (fun m => (Matching.feasibility m, Matching.matchedAmount m,
                 Matching.totalLenderAmount m, lenderShare m L1))
      (Result.matchings result)
  = [(FULL_MATCH, 35000, 35000, 10000)] /\
  map (fun t => (Transfer.lender t, Transfer.borrower t, Transfer.amount t))
      (computeLoanTransfers result)
  = [("L1", "B1", 10000); ("L2", "B1", 5000);
     ("L1", "B2", 10000); ("L2", "B2", 10000)] /\
  drawn_from "L1" (computeLoanTransfers result) = 20000.
Proof. vm_compute. repeat split. Qed.

(** ** Rounding dust of the transfers *)

Lemma quot_share_bounds (p M T : Z) :
  0 <= p -> 0 <= M -> 0 < T ->
  0 <= Z.quot (p * M) T /\
  T * Z.quot (p * M) T <= p * M /\
  p * M <= T * Z.quot (p * M) T + (T - 1).
Proof.
  intros Hp HM HT.
  assert (0 <= p * M) as Hpm by (apply Z.mul_nonneg_nonneg; assumption).
  rewrite Z.quot_div_nonneg by lia.
  pose proof (Z.div_mod (p * M) T ltac:(lia)) as Hdm.
  pose proof (Z.mod_pos_bound (p * M) T HT) as Hmod.
  pose proof (Z.div_pos (p * M) T Hpm HT) as Hdiv.
  lia.
Qed.

Lemma sum_over_cons (f : LoanTask -> Z) (t : LoanTask) (side : list LoanTask) :
  sum_over f (t :: side) = f t + sum_over f side.
Proof. reflexivity. Qed.

Lemma sum_over_ext (f f' : LoanTask -> Z) (side : list LoanTask) :
  (forall t, f t = f' t) -> sum_over f side = sum_over f' side.
Proof.
  intros H. induction side as [| t side IH]; simpl;
    [reflexivity | rewrite H, IH; reflexivity].
Qed.

Lemma sum_over_nonneg (f : LoanTask -> Z) (side : list LoanTask) :
  (forall t, In t side -> 0 <= f t) -> 0 <= sum_over f side.
Proof.
  induction side as [| t side IH]; intros H; simpl; [lia |].
  specialize (IH (fun t' Ht' => H t' (or_intror Ht'))).
  specialize (H t (or_introl eq_refl)). lia.
Qed.

Lemma sum_over_term (f : LoanTask -> Z) (side : list LoanTask) (t : LoanTask) :
  (forall t', In t' side -> 0 <= f t') -> In t side -> f t <= sum_over f side.
Proof.
  induction side as [| t0 side IH]; intros H Ht; [destruct Ht |].
  simpl.
  pose proof (H t0 (or_introl eq_refl)) as H0.
  pose proof (sum_over_nonneg f side (fun t' Ht' => H t' (or_intror Ht'))) as Hs.
  destruct Ht as [-> | Ht]; [lia |].
  specialize (IH (fun t' Ht' => H t' (or_intror Ht')) Ht). lia.
Qed.

(** Floor shares of [M] in proportion to the principals: scaled by the
    total [T], their sum misses [M] times the principals by less than one
    [T] per order. *)
Lemma quot_shares_scaled (side : list LoanTask) (M T : Z) :
  Forall (fun task => 0 <= Task.principalAmount task) side ->
  0 <= M -> 0 < T ->
  let S := sum_over (fun t => Z.quot (Task.principalAmount t * M) T) side in
  T * S <= M * availableAmount side /\
  M * availableAmount side <= T * S + Z.of_nat (length side) * (T - 1).
Proof.
  intros Hside HM HT. cbv zeta.
  induction Hside as [| t side Ht _ IH].
  - unfold availableAmount. simpl. lia.
  - rewrite availableAmount_cons, sum_over_cons.
    pose proof (quot_share_bounds (Task.principalAmount t) M T Ht HM HT)
      as (_ & Hlo & Hhi).
    change (length (t :: side)) with (S (length side)).
    rewrite Nat2Z.inj_succ.
    generalize dependent (Z.quot (Task.principalAmount t * M) T).
    generalize dependent
      (sum_over (fun t => Z.quot (Task.principalAmount t * M) T) side).
    intros S HS q Hlo Hhi. lia.
Qed.

(** The shares of one side, as the transfer calculator computes them from
    the side's total [T] and the matched amount [M]. *)
Lemma side_shares_bounds (side : list LoanTask) (M T : Z) :
  Forall (fun task => 0 <= Task.principalAmount task) side ->
  side <> [] ->
  T = availableAmount side -> 0 <= M <= T ->
  let share := fun t => if T >? 0 then Z.quot (Task.principalAmount t * M) T
                        else 0 in
  (forall t, In t side -> 0 <= share t) /\
  sum_over share side <= M /\
  M - sum_over share side <= Z.of_nat (length side) - 1.
Proof.
  intros Hside Hne HT HM. cbv zeta.
  assert (Hlen : 1 <= Z.of_nat (length side)).
  { destruct side; [congruence | simpl length; lia]. }
  destruct (Z.gtb_spec T 0) as [Hpos | Hzero].
  - split; [| split].
    + intros t Ht. rewrite Forall_forall in Hside.
      apply quot_share_bounds; [apply Hside, Ht | lia | lia].
    + pose proof (quot_shares_scaled side M T Hside ltac:(lia) ltac:(lia))
        as (Hlo & _).
      rewrite <- HT in Hlo. nia.
    + pose proof (quot_shares_scaled side M T Hside ltac:(lia) ltac:(lia))
        as (_ & Hhi).
      rewrite <- HT in Hhi. nia.
  - assert (sum_over (fun _ : LoanTask => 0) side = 0) as Hs0.
    { clear. induction side as [| t side IH]; simpl; lia. }
    split; [intros; lia |]. rewrite Hs0. lia.
Qed.

Lemma fold_right_add_ext {A} (f f' : A -> Z) (l : list A) :
  (forall x, In x l -> f x = f' x) ->
  fold_right (fun x acc => f x + acc) 0 l
  = fold_right (fun x acc => f' x + acc) 0 l.
Proof.
  induction l as [| x l IH]; intros H; simpl; [reflexivity |].
  rewrite (H x (or_introl eq_refl)), IH; [reflexivity |].
  intros y Hy. apply H. right. exact Hy.
Qed.

Lemma total_amount_app (a b : list LoanTransfer) :
  total_amount (a ++ b) = total_amount a + total_amount b.
Proof. induction a as [| t a IH]; simpl; lia. Qed.

Lemma total_amount_flat_map {A} (f : A -> list LoanTransfer) (l : list A) :
  total_amount (flat_map f l)
  = fold_right (fun x acc => total_amount (f x) + acc) 0 l.
Proof.
  induction l as [| x l IH]; simpl; [reflexivity |].
  rewrite total_amount_app, IH. reflexivity.
Qed.

(** The inner loop hands a borrower the smaller of what it still wants
    and what the lenders' shares add up to. *)
Lemma lender_loop_total (m : LoanMatching) (b : LoanTask)
    (lenders : list LoanTask) :
  (forall l, In l lenders -> 0 <= lenderShare m l) ->
  forall remaining, 0 <= remaining ->
    total_amount (lender_loop m b lenders remaining)
    = Z.min remaining (sum_over (lenderShare m) lenders).
Proof.
  induction lenders as [| l lenders IH]; intros Hsh remaining Hrem; simpl.
  - lia.
  - pose proof (Hsh l (or_introl eq_refl)) as Hl.
    pose proof (sum_over_nonneg (lenderShare m) lenders
                  (fun t Ht => Hsh t (or_intror Ht))) as Hrest.
    specialize (IH (fun t Ht => Hsh t (or_intror Ht))).
    unfold Mathb_min.
    destruct (Z.eqb_spec remaining 0) as [-> | Hnz]; [simpl; lia |].
    destruct (Z.gtb_spec (Z.min remaining (lenderShare m l)) 0) as [Hgt | Hle].
    + simpl. rewrite IH by lia. lia.
    + rewrite IH by lia. lia.
Qed.

(** Summing the smaller of each borrower's share and a fixed supply. *)
Lemma capped_sum_bounds (share : LoanTask -> Z) (supply slack : Z)
    (borrowers : list LoanTask) :
  0 <= slack ->
  (forall b, In b borrowers -> share b <= supply + slack) ->
  let handed :=
    fold_right (fun b acc => Z.min (share b) supply + acc) 0 borrowers in
  handed <= sum_over share borrowers /\
  sum_over share borrowers - handed <= Z.of_nat (length borrowers) * slack.
Proof.
  intros Hslack Hb. cbv zeta.
  induction borrowers as [| b borrowers IH]; [simpl; lia |].
  specialize (IH (fun t Ht => Hb t (or_intror Ht))).
  specialize (Hb b (or_introl eq_refl)).
  change (length (b :: borrowers)) with (S (length borrowers)).
  rewrite Nat2Z.inj_succ. simpl. lia.
Qed.

Lemma matched_group_sides_nonempty (g : list LoanTask) (maturity : Z) :
  common_maturity g maturity ->
  lenders_of g <> [] /\ borrowers_of g <> [].
Proof.
  intros (l & b & Hl & Hb & Hfl & Hfb & _).
  split; intros Hnil.
  - assert (In l (lenders_of g)) as Hin
        by (apply filter_In; split; assumption).
    rewrite Hnil in Hin. destruct Hin.
  - assert (In b (borrowers_of g)) as Hin
        by (apply filter_In; split; [assumption | rewrite Hfb; reflexivity]).
    rewrite Hnil in Hin. destruct Hin.
Qed.

(** The transfers of one group against what the group adds to the total
    matched amount. *)
Lemma group_transfers_bounds (g : list LoanTask) :
  Forall (fun task => 0 <= Task.principalAmount task) g ->
  let m := group_matching g in
  let sent := total_amount (matching_transfers m) in
  let matched := Acc.totalMatchedAmount (process_matching initial_acc g) in
  sent <= matched /\
  matched - sent <= group_pairings m /\
  (0 < matched -> matched - sent < group_pairings m).
Proof.
  intros Hg. cbv zeta.
  destruct (side_totals_nonneg g Hg) as (HL & HB).
  destruct (process_matching_cases g) as (_ & Htasks & HtL & HtB & Hcases).
  unfold matching_transfers, group_pairings.
  destruct Hcases as [H | [H | H]]; decompose [and] H; clear H.
  - match goal with Hf : Matching.feasibility _ = NONE |- _ => rewrite Hf end.
    simpl. lia.
  - match goal with
    | Hf : _ \/ _ |- _ => destruct Hf as [Hf | Hf]; rewrite Hf
    end; simpl; lia.
  - match goal with
    | Hc : classified_matched _ |- _ =>
        assert (could_not_be_matched (Matching.feasibility (group_matching g))
                = false) as ->
          by (destruct Hc as [Hc | [Hc | Hc]]; rewrite Hc; reflexivity)
    end.
    match goal with
    | He : exists later, _ |- _ => destruct He as (later & Hcommon)
    end.
    assert (common_maturity g (Matching.maturityTimestamp (group_matching g)))
      as Hcm by (apply findCommonMaturities_In; rewrite Hcommon; left; reflexivity).
    destruct (matched_group_sides_nonempty _ _ Hcm) as (HneL & HneB).
    match goal with
    | HM : Matching.matchedAmount _ = _, HT : Acc.totalMatchedAmount _ = _ |- _ =>
        rename HM into Hmatched; rewrite HT
    end.
    rewrite Htasks.
    set (aL := availableAmount (lenders_of g)) in *.
    set (aB := availableAmount (borrowers_of g)) in *.
    set (M := Z.min aL aB) in *.
    set (m := group_matching g) in *.
    (* the shares of the two sides *)
    destruct (side_shares_bounds (lenders_of g) M aL
                (Forall_filter _ _ _ Hg) HneL eq_refl ltac:(lia))
      as (HLnn & HLsum & HLdef).
    destruct (side_shares_bounds (borrowers_of g) M aB
                (Forall_filter _ _ _ Hg) HneB eq_refl ltac:(lia))
      as (HBnn & HBsum & HBdef).
    assert (HlS : forall l, lenderShare m l
                            = if aL >? 0
                              then Z.quot (Task.principalAmount l * M) aL else 0).
    { intros l. unfold lenderShare. rewrite HtL, Hmatched. reflexivity. }
    assert (HbS : forall b, borrowerShare m b
                            = if aB >? 0
                              then Z.quot (Task.principalAmount b * M) aB else 0).
    { intros b. unfold borrowerShare. rewrite HtB, Hmatched. reflexivity. }
    assert (HsumL : sum_over (lenderShare m) (lenders_of g)
                    = sum_over (fun t => if aL >? 0
                                         then Z.quot (Task.principalAmount t * M) aL
                                         else 0) (lenders_of g)).
    { apply sum_over_ext, HlS. }
    assert (HsumB : sum_over (borrowerShare m) (borrowers_of g)
                    = sum_over (fun t => if aB >? 0
                                         then Z.quot (Task.principalAmount t * M) aB
                                         else 0) (borrowers_of g)).
    { apply sum_over_ext, HbS. }
    (* each borrower receives min(share, supply) *)
    rewrite total_amount_flat_map.
    assert (Hsent :
      fold_right (fun b acc =>
                    total_amount (lender_loop m b (lenders_of g)
                                    (borrowerShare m b)) + acc) 0 (borrowers_of g)
      = fold_right (fun b acc =>
                      Z.min (borrowerShare m b)
                            (sum_over (lenderShare m) (lenders_of g)) + acc)
                   0 (borrowers_of g)).
    { apply fold_right_add_ext. intros b Hb. apply lender_loop_total.
      - intros l Hl. rewrite HlS. apply HLnn, Hl.
      - rewrite HbS. apply HBnn, Hb. }
    rewrite Hsent.
    set (nL := Z.of_nat (length (lenders_of g))) in *.
    set (nB := Z.of_nat (length (borrowers_of g))) in *.
    assert (1 <= nL) as HnL
      by (subst nL; destruct (lenders_of g); [congruence | simpl length; lia]).
    assert (1 <= nB) as HnB
      by (subst nB; destruct (borrowers_of g); [congruence | simpl length; lia]).
    destruct (capped_sum_bounds (borrowerShare m)
                (sum_over (lenderShare m) (lenders_of g)) (nL - 1)
                (borrowers_of g) ltac:(lia)) as (Hup & Hdown).
    { intros b Hb.
      pose proof (sum_over_term (borrowerShare m) (borrowers_of g) b) as Hterm.
      rewrite HsumL.
      assert (borrowerShare m b <= sum_over (borrowerShare m) (borrowers_of g))
        as Hle.
      { apply Hterm; [| exact Hb]. intros b' Hb'. rewrite HbS. apply HBnn, Hb'. }
      rewrite HsumB in Hle. lia. }
    fold nB in Hdown. rewrite HsumB in Hup, Hdown.
    assert (nB * (nL - 1) = nL * nB - nB) as Hmul by ring.
    rewrite Hmul in Hdown.
    clear - HBsum HBdef Hup Hdown HnL HnB.
    generalize dependent (nL * nB). intros pairs Hdown.
    match type of HBsum with ?x <= _ => set (SB := x) in * end.
    match type of Hup with ?x <= _ => set (handed := x) in * end.
    clearbody SB handed nL nB M.
    lia.
Qed.

Lemma result_transfers_bounds (c : list (list LoanTask)) :
  nonneg_principals c ->
  let result := computeLoanMatchingResult c in
  let sent := total_amount (computeLoanTransfers result) in
  sent <= Result.totalMatchedAmount result /\
  Result.totalMatchedAmount result - sent <= pairings result /\
  (0 < Result.totalMatchedAmount result ->
   Result.totalMatchedAmount result - sent < pairings result).
Proof.
  intros Hnn. cbv zeta. unfold computeLoanTransfers, pairings.
  destruct (result_totals c) as (_ & _ & -> & _).
  rewrite result_matchings.
  unfold nonneg_principals in Hnn.
  induction Hnn as [| g c Hg Hc IH].
  - simpl. lia.
  - rewrite fold_process_cons. unfold acc_append. simpl.
    rewrite total_amount_app.
    pose proof (group_transfers_bounds g Hg) as Hgb. cbv zeta in Hgb.
    pose proof (group_totals_ordered g Hg) as Hgo. cbv zeta in Hgo.
    pose proof (fold_totals_ordered c Hc) as Hco. cbv zeta in Hco.
    lia.
Qed.

Lemma best_loop_In (l : list LoanMatchingResult) :
  forall b w, best_loop b l = Some w -> b = Some w \/ In w l.
Proof.
  induction l as [| r l IH]; intros b w H; simpl in H; [left; exact H |].
  destruct (negb (Result.feasible r)).
  - destruct (IH _ _ H); [left | right; right]; assumption.
  - destruct b as [best |].
    + destruct (IH _ _ H) as [Heq | Hin]; [| right; right; exact Hin].
      destruct (replaces r best); injection Heq as <-;
        [right; left | left]; reflexivity.
    + destruct (IH _ _ H) as [Heq | Hin]; [| right; right; exact Hin].
      injection Heq as <-. right; left; reflexivity.
Qed.

Lemma selector_returns_candidate (l : list LoanMatchingResult) w :
  computeBestLoanResult l = Normal (Some w) -> In w l.
Proof.
  unfold computeBestLoanResult. intros H. injection H as H.
  destruct (best_loop None l) as [best |] eqn:Hloop.
  - injection H as <-. destruct (best_loop_In _ _ _ Hloop) as [Habs | Hin];
      [discriminate | exact Hin].
  - destruct l as [| r l]; [discriminate H |].
    injection H as <-. left. reflexivity.
Qed.

(** C3: for the winner selected among the evaluated partitions of a
    batch (principals unsigned), the amounts of the transfers computed
    from it sum to at most its total matched amount, and fall short of it
    by at most the number of lender-borrower pairings of its matched
    groups, strictly fewer whenever something is matched. *)
Theorem winner_transfers_sum_within_dust
    (partitions : list (list (list LoanTask))) (winner : LoanMatchingResult) :
  Forall nonneg_principals partitions ->
  computeBestLoanResult (map computeLoanMatchingResult partitions)
  = Normal (Some winner) ->
  let sent := total_amount (computeLoanTransfers winner) in
  sent <= Result.totalMatchedAmount winner /\
  Result.totalMatchedAmount winner - sent <= pairings winner /\
  (Result.feasible winner = true ->
   Result.totalMatchedAmount winner - sent < pairings winner).
Proof.
  intros Hnn Hsel. apply selector_returns_candidate in Hsel.
  apply in_map_iff in Hsel. destruct Hsel as (c & <- & Hc).
  rewrite Forall_forall in Hnn. specialize (Hnn c Hc).
  pose proof (result_transfers_bounds c Hnn) as (H1 & H2 & H3).
  cbv zeta. repeat split; try assumption.
  intros Hfeas. apply H3.
  unfold computeLoanMatchingResult in Hfeas. simpl in Hfeas.
  destruct (result_totals c) as (_ & _ & -> & _).
  apply Z.gtb_lt in Hfeas. exact Hfeas.
Qed.

Lemma winner_transfers_sum_within_dust_witness :
  let winner := computeLoanMatchingResult dust_group in
  let sent := total_amount (computeLoanTransfers winner) in
  sent <= Result.totalMatchedAmount winner /\
  Result.totalMatchedAmount winner - sent <= pairings winner /\
  (Result.feasible winner = true ->
   Result.totalMatchedAmount winner - sent < pairings winner).
Proof.
  apply (winner_transfers_sum_within_dust
           [[[order true 1 500 1 "L1" 1]; [order false 2 600 1 "B1" 4]];
            dust_group]
           (computeLoanMatchingResult dust_group)).
  - unfold nonneg_principals, dust_group, order.
    repeat constructor; simpl; lia.
  - vm_compute. reflexivity.
Defined.

Example dust_example :
  Result.totalMatchedAmount (computeLoanMatchingResult dust_group) = 2 /\
  computeLoanTransfers (computeLoanMatchingResult dust_group) = [] /\
  pairings (computeLoanMatchingResult dust_group) = 3.
Proof. vm_compute. repeat split. Qed.

(** * Further properties of the code *)

(** ** Transfers: what [computeLoanTransfers] emits *)

Lemma lender_loop_In (m : LoanMatching) (b : LoanTask)
    (lenders : list LoanTask) (t : LoanTransfer) :
  forall remaining,
    In t (lender_loop m b lenders remaining) ->
    exists l,
      In l lenders /\
      Transfer.lender t = Task.sender l /\
      Transfer.borrower t = Task.sender b /\
      Transfer.rate t = Matching.effectiveRate m /\
      Transfer.maturityTimestamp t = Matching.maturityTimestamp m /\
      0 < Transfer.amount t /\
      Transfer.amount t <= lenderShare m l /\
      Transfer.amount t <= remaining.
Proof.
  induction lenders as [| l lenders IH]; intros remaining Hin; simpl in Hin.
  - destruct Hin.
  - destruct (remaining =? 0); [destruct Hin |].
    unfold Mathb_min in Hin.
    destruct (Z.gtb_spec (Z.min remaining (lenderShare m l)) 0) as [Hpos | Hle].
    + destruct Hin as [<- | Hin].
      * exists l. simpl. split; [left; reflexivity |].
        repeat (split; [reflexivity |]). lia.
      * destruct (IH _ Hin) as (l' & Hl' & H1 & H2 & H3 & H4 & H5 & H6 & H7).
        exists l'. split; [right; exact Hl' |].
        repeat (split; [assumption |]). lia.
    + destruct (IH _ Hin) as (l' & Hl' & H1 & H2 & H3 & H4 & H5 & H6 & H7).
      exists l'. split; [right; exact Hl' |].
      repeat (split; [assumption |]). lia.
Qed.

Lemma matching_transfers_In (m : LoanMatching) (t : LoanTransfer) :
  In t (matching_transfers m) ->
  could_not_be_matched (Matching.feasibility m) = false /\
  transfer_of_group m t.
Proof.
  unfold matching_transfers.
  destruct (could_not_be_matched (Matching.feasibility m)); [intros [] |].
  intros Hin. split; [reflexivity |].
  apply in_flat_map in Hin. destruct Hin as (b & Hb & Hin).
  destruct (lender_loop_In _ _ _ _ _ Hin)
    as (l & Hl & H1 & H2 & H3 & H4 & H5 & H6 & H7).
  exists l, b. repeat split; assumption.
Qed.

(** X1: every transfer that [computeLoanTransfers] emits belongs to a
    group of the result that is not marked unmatched: it goes from a lender
    of that group to a borrower of that group, carries the group's
    effective rate and maturity, and its amount is positive, at most the
    lender's share and at most the borrower's share. *)
Theorem transfers_come_from_matched_groups
    (result : LoanMatchingResult) (t : LoanTransfer) :
  In t (computeLoanTransfers result) ->
  exists m,
    In m (Result.matchings result) /\
    could_not_be_matched (Matching.feasibility m) = false /\
    transfer_of_group m t.
Proof.
  unfold computeLoanTransfers. intros Hin.
  apply in_flat_map in Hin. destruct Hin as (m & Hm & Hin).
  exists m. split; [exact Hm |]. apply matching_transfers_In, Hin.
Qed.

Lemma transfers_come_from_matched_groups_witness :
  exists m,
    In m (Result.matchings (computeLoanMatchingResult scenario_A)) /\
    could_not_be_matched (Matching.feasibility m) = false /\
    transfer_of_group m (Transfer.mk "L2" "B1" 5000 500 1).
Proof.
  apply (transfers_come_from_matched_groups
           (computeLoanMatchingResult scenario_A)
           (Transfer.mk "L2" "B1" 5000 500 1)).
  vm_compute. right. left. reflexivity.
Defined.

Lemma lender_loop_length (m : LoanMatching) (b : LoanTask)
    (lenders : list LoanTask) :
  forall remaining,
    (length (lender_loop m b lenders remaining) <= length lenders)%nat.
Proof.
  induction lenders as [| l lenders IH]; intros remaining; simpl; [lia |].
  destruct (remaining =? 0); simpl; [lia |].
  destruct (_ >? 0); simpl.
  - specialize (IH (remaining - Mathb_min remaining (lenderShare m l))). lia.
  - specialize (IH remaining). lia.
Qed.

Lemma matching_transfers_length (m : LoanMatching) :
  Z.of_nat (length (matching_transfers m)) <= group_pairings m.
Proof.
  unfold matching_transfers, group_pairings.
  destruct (could_not_be_matched (Matching.feasibility m)); [simpl; lia |].
  induction (borrowers_of (Matching.loanTasks m)) as [| b bs IH]; simpl; [lia |].
  rewrite length_app.
  pose proof (lender_loop_length m b (lenders_of (Matching.loanTasks m))
                (borrowerShare m b)).
  lia.
Qed.

(** X2: the calculator emits at most one transfer per lender-borrower
    pairing of the groups it processes. *)
Theorem transfers_at_most_one_per_pairing (result : LoanMatchingResult) :
  Z.of_nat (length (computeLoanTransfers result)) <= pairings result.
Proof.
  unfold computeLoanTransfers, pairings.
  induction (Result.matchings result) as [| m ms IH]; simpl; [lia |].
  rewrite length_app. pose proof (matching_transfers_length m). lia.
Qed.

Lemma total_amount_positive (transfers : list LoanTransfer) :
  (forall t, In t transfers -> 0 < Transfer.amount t) ->
  transfers <> [] -> 0 < total_amount transfers.
Proof.
  induction transfers as [| t ts IH]; intros Hpos Hne; [congruence |].
  simpl. pose proof (Hpos t (or_introl eq_refl)).
  destruct ts as [| t' ts']; [simpl; lia |].
  assert (0 < total_amount (t' :: ts')); [| lia].
  apply IH; [| discriminate]. intros x Hx. apply Hpos. right. exact Hx.
Qed.

Lemma transfers_positive_amount (result : LoanMatchingResult)
    (t : LoanTransfer) :
  In t (computeLoanTransfers result) -> 0 < Transfer.amount t.
Proof.
  unfold computeLoanTransfers. intros Hin.
  apply in_flat_map in Hin. destruct Hin as (m & _ & Hin).
  destruct (matching_transfers_In _ _ Hin) as (_ & l & b & H). tauto.
Qed.

(** X3: an evaluated partition (principals unsigned) that is not
    feasible yields no transfer at all. *)
Theorem infeasible_result_no_transfers (combination : list (list LoanTask)) :
  nonneg_principals combination ->
  Result.feasible (computeLoanMatchingResult combination) = false ->
  computeLoanTransfers (computeLoanMatchingResult combination) = [].
Proof.
  intros Hnn Hfeas.
  destruct (result_transfers_bounds combination Hnn) as (Hle & _).
  cbv zeta in Hle.
  assert (Result.totalMatchedAmount (computeLoanMatchingResult combination) <= 0)
    as Htm.
  { unfold computeLoanMatchingResult in Hfeas |- *. simpl in *.
    destruct (Z.gtb_spec
                (Acc.totalMatchedAmount
                   (fold_left process_matching combination initial_acc)) 0);
      [discriminate | lia]. }
  destruct (computeLoanTransfers (computeLoanMatchingResult combination))
    as [| t ts] eqn:Htr; [reflexivity | exfalso].
  assert (0 < total_amount (t :: ts)); [| lia].
  apply total_amount_positive; [| discriminate].
  intros x Hx. rewrite <- Htr in Hx.
  exact (transfers_positive_amount _ _ Hx).
Qed.

Lemma infeasible_result_no_transfers_witness :
  computeLoanTransfers
    (computeLoanMatchingResult [no_overlap_group; [order true 25 500 1 "L5" 5]])
  = [].
Proof.
  apply (infeasible_result_no_transfers
           [no_overlap_group; [order true 25 500 1 "L5" 5]]).
  - unfold nonneg_principals, no_overlap_group, order.
    repeat constructor; simpl; lia.
  - vm_compute. reflexivity.
Defined.

(** ** Overall classification: [determineFeasibilityType] *)

Lemma is_feasibility_true (f : LoanFeasibility) (m : LoanMatching) :
  is_feasibility f m = true <-> Matching.feasibility m = f.
Proof.
  unfold is_feasibility.
  destruct (Matching.feasibility m), f; simpl; split; intros H;
    try reflexivity; discriminate H.
Qed.

Lemma hasMatches_true (matchings : list LoanMatching) :
  existsb (fun m => is_feasibility FULL_MATCH m
                    || is_feasibility PARTIAL_LENDER m
                    || is_feasibility PARTIAL_BORROWER m) matchings = true
  <-> exists m, In m matchings /\ classified_matched m.
Proof.
  rewrite existsb_exists. unfold classified_matched.
  split; intros (m & Hm & H); exists m; (split; [exact Hm |]).
  - rewrite !orb_true_iff, !is_feasibility_true in H. tauto.
  - rewrite !orb_true_iff, !is_feasibility_true. tauto.
Qed.

(** X4: the overall classification is never [NO_RATE_OVERLAP] nor
    [MATURITY_MISMATCH]; it is [NONE] exactly when no group is classified
    as matched, [FULL_MATCH] exactly when some group is matched and every
    group is [FULL_MATCH] or [NONE], and [PARTIAL_BOTH] only when a
    [PARTIAL_LENDER] group and a [PARTIAL_BORROWER] group both occur. *)
Theorem feasibilityType_classification (matchings : list LoanMatching) :
  let f := determineFeasibilityType matchings in
  f <> NO_RATE_OVERLAP /\ f <> MATURITY_MISMATCH /\
  (f = NONE <-> forall m, In m matchings -> ~ classified_matched m) /\
  (f = FULL_MATCH <->
   (exists m, In m matchings /\ classified_matched m) /\
   forall m, In m matchings ->
             Matching.feasibility m = FULL_MATCH \/ Matching.feasibility m = NONE) /\
  (f = PARTIAL_BOTH ->
   (exists m, In m matchings /\ Matching.feasibility m = PARTIAL_LENDER) /\
   (exists m, In m matchings /\ Matching.feasibility m = PARTIAL_BORROWER)).
Proof.
  cbv zeta. unfold determineFeasibilityType.
  pose proof (hasMatches_true matchings) as Hhas.
  match goal with |- context [negb ?b] => set (has := b) in * end.
  match goal with |- context [if forallb ?p ?l then _ else _] =>
    pose proof (forallb_forall p l) as Hall; set (allFull := forallb p l) in *
  end.
  pose proof (existsb_exists (is_feasibility PARTIAL_LENDER) matchings) as HPL.
  pose proof (existsb_exists (is_feasibility PARTIAL_BORROWER) matchings) as HPB.
  set (hasPL := existsb (is_feasibility PARTIAL_LENDER) matchings) in *.
  set (hasPB := existsb (is_feasibility PARTIAL_BORROWER) matchings) in *.
  assert (Hfull : allFull = true <->
                  forall m, In m matchings ->
                            Matching.feasibility m = FULL_MATCH \/
                            Matching.feasibility m = NONE).
  { rewrite Hall. split; intros H m Hm; specialize (H m Hm).
    - rewrite orb_true_iff, !is_feasibility_true in H. exact H.
    - rewrite orb_true_iff, !is_feasibility_true. exact H. }
  assert (Hno : has = false <->
                forall m, In m matchings -> ~ classified_matched m).
  { split.
    - intros Hf m Hm Hc. assert (has = true) by (apply Hhas; eauto). congruence.
    - intros Hn. destruct has; [| reflexivity].
      destruct (proj1 Hhas eq_refl) as (m & Hm & Hc). destruct (Hn m Hm Hc). }
  clearbody has allFull hasPL hasPB. clear Hall.
  destruct has; simpl.
  - assert (Hsome : exists m, In m matchings /\ classified_matched m)
      by (apply Hhas; reflexivity).
    assert (Hnotnone : ~ forall m, In m matchings -> ~ classified_matched m).
    { intros Hn. apply Hno in Hn. discriminate Hn. }
    destruct allFull.
    + split; [discriminate |]. split; [discriminate |].
      split; [split; [discriminate | intros H; destruct (Hnotnone H)] |].
      split; [| discriminate].
      split; [intros _ | reflexivity].
      split; [exact Hsome | apply Hfull; reflexivity].
    + assert (Hnf : ~ forall m, In m matchings ->
                      Matching.feasibility m = FULL_MATCH \/
                      Matching.feasibility m = NONE).
      { intros H. apply Hfull in H. discriminate H. }
      destruct hasPL, hasPB; simpl.
      all: split; [discriminate |]; split; [discriminate |].
      all: split; [split; [discriminate | intros H; destruct (Hnotnone H)] |].
      all: split; [split; [discriminate | intros (_ & H); destruct (Hnf H)] |].
      all: try discriminate.
      intros _. split.
      * destruct (proj1 HPL eq_refl) as (m & Hm & H).
        exists m. split; [exact Hm | apply is_feasibility_true, H].
      * destruct (proj1 HPB eq_refl) as (m & Hm & H).
        exists m. split; [exact Hm | apply is_feasibility_true, H].
  - assert (Hnone : forall m, In m matchings -> ~ classified_matched m)
      by (apply Hno; reflexivity).
    split; [discriminate |]. split; [discriminate |].
    split; [split; [intros _; exact Hnone | reflexivity] |].
    split; [| discriminate].
    split; [discriminate |].
    intros ((m & Hm & Hc) & _). destruct (Hnone m Hm Hc).
Qed.

(** ** The evaluated result: [computeLoanMatchingResult] *)

(** What one group adds to the weighted rates: its effective rate times
    its matched amount, both zero unless the group is matched. *)
Lemma process_matching_weighted (g : list LoanTask) :
  let st := process_matching initial_acc g in
  let m := group_matching g in
  Acc.totalMatchedAmount st = Matching.matchedAmount m /\
  Acc.weightedLenderRate st
  = Matching.effectiveRate m * Matching.matchedAmount m /\
  Acc.weightedBorrowerRate st
  = Matching.effectiveRate m * Matching.matchedAmount m.
Proof.
  cbv zeta. unfold group_matching.
  destruct g as [| t [| t' rest]].
  - unfold process_matching.
    destruct (_ >? _); [simpl; lia |].
    destruct (findCommonMaturities _ _); simpl; lia.
  - unfold process_matching. simpl. lia.
  - unfold process_matching.
    destruct (_ >? _); [simpl; lia |].
    destruct (findCommonMaturities _ _); simpl; unfold Mathb_min; lia.
Qed.







Lemma existsb_permutation {A} (f : A -> bool) (l l' : list A) :
  Permutation l l' -> existsb f l = existsb f l'.
Proof.
  induction 1 as [| x l l' _ IH | x y l | l l' l'' _ IH1 _ IH2]; simpl.
  - reflexivity.
  - rewrite IH. reflexivity.
  - destruct (f x), (f y); reflexivity.
  - congruence.
Qed.

Lemma forallb_permutation {A} (f : A -> bool) (l l' : list A) :
  Permutation l l' -> forallb f l = forallb f l'.
Proof.
  induction 1 as [| x l l' _ IH | x y l | l l' l'' _ IH1 _ IH2]; simpl.
  - reflexivity.
  - rewrite IH. reflexivity.
  - destruct (f x), (f y); reflexivity.
  - congruence.
Qed.

Lemma determineFeasibilityType_permutation (ms ms' : list LoanMatching) :
  Permutation ms ms' ->
  determineFeasibilityType ms = determineFeasibilityType ms'.
Proof.
  intros Hp. unfold determineFeasibilityType.
  rewrite (existsb_permutation _ _ _ Hp), (forallb_permutation _ _ _ Hp),
    (existsb_permutation (is_feasibility PARTIAL_LENDER) _ _ Hp),
    (existsb_permutation (is_feasibility PARTIAL_BORROWER) _ _ Hp).
  reflexivity.
Qed.

Lemma fold_process_permutation (c c' : list (list LoanTask)) :
  Permutation c c' ->
  let st := fold_left process_matching c initial_acc in
  let st' := fold_left process_matching c' initial_acc in
  Permutation (Acc.matchings st) (Acc.matchings st') /\
  Acc.totalLenderAmount st = Acc.totalLenderAmount st' /\
  Acc.totalBorrowerAmount st = Acc.totalBorrowerAmount st' /\
  Acc.totalMatchedAmount st = Acc.totalMatchedAmount st' /\
  Acc.weightedLenderRate st = Acc.weightedLenderRate st' /\
  Acc.weightedBorrowerRate st = Acc.weightedBorrowerRate st'.
Proof.
  cbv zeta.
  induction 1 as [| g c c' _ IH | g g' c | c c' c'' _ IH1 _ IH2].
  - simpl. repeat split; constructor.
  - rewrite !(fold_process_cons g). unfold acc_append. simpl.
    destruct IH as (Hm & -> & -> & -> & -> & ->).
    split; [apply Permutation_app_head, Hm |].
    repeat (split; [reflexivity |]). reflexivity.
  - rewrite (fold_process_cons g'), (fold_process_cons g (g' :: c)),
      (fold_process_cons g), (fold_process_cons g' c).
    unfold acc_append. simpl.
    split; [| lia].
    rewrite !app_assoc. apply Permutation_app_tail, Permutation_app_comm.
  - destruct IH1 as (Hm1 & -> & -> & -> & -> & ->).
    destruct IH2 as (Hm2 & -> & -> & -> & -> & ->).
    split; [exact (Permutation_trans Hm1 Hm2) |].
    repeat (split; [reflexivity |]). reflexivity.
Qed.

(** X7: the evaluator does not depend on the order of the groups of the
    partition: after a reordering it pushes the same group records (in
    the new order) and returns the same totals, unmatched amounts,
    feasibility, overall classification, average rates and efficiency. *)
Theorem evaluator_ignores_group_order (c c' : list (list LoanTask)) :
  Permutation c c' ->
  let r := computeLoanMatchingResult c in
  let r' := computeLoanMatchingResult c' in
  Permutation (Result.matchings r) (Result.matchings r') /\
  Result.totalLenderAmount r = Result.totalLenderAmount r' /\
  Result.totalBorrowerAmount r = Result.totalBorrowerAmount r' /\
  Result.totalMatchedAmount r = Result.totalMatchedAmount r' /\
  Result.unmatchedLenderAmount r = Result.unmatchedLenderAmount r' /\
  Result.unmatchedBorrowerAmount r = Result.unmatchedBorrowerAmount r' /\
  Result.feasible r = Result.feasible r' /\
  Result.feasibilityType r = Result.feasibilityType r' /\
  Result.averageLenderRate r = Result.averageLenderRate r' /\
  Result.averageBorrowerRate r = Result.averageBorrowerRate r' /\
  Result.matchingEfficiency r = Result.matchingEfficiency r'.
Proof.
  intros Hp. cbv zeta.
  destruct (fold_process_permutation c c' Hp) as (Hm & HL & HB & HM & HW & _).
  unfold computeLoanMatchingResult. simpl.
  rewrite HL, HB, HM, HW, (determineFeasibilityType_permutation _ _ Hm).
  split; [exact Hm |].
  repeat (split; [reflexivity |]). reflexivity.
Qed.

Lemma evaluator_ignores_group_order_witness :
  let r := computeLoanMatchingResult
             (no_overlap_group :: around_before ++ around_after) in
  let r' := computeLoanMatchingResult
              (around_before ++ no_overlap_group :: around_after) in
  Permutation (Result.matchings r) (Result.matchings r') /\
  Result.totalLenderAmount r = Result.totalLenderAmount r' /\
  Result.totalBorrowerAmount r = Result.totalBorrowerAmount r' /\
  Result.totalMatchedAmount r = Result.totalMatchedAmount r' /\
  Result.unmatchedLenderAmount r = Result.unmatchedLenderAmount r' /\
  Result.unmatchedBorrowerAmount r = Result.unmatchedBorrowerAmount r' /\
  Result.feasible r = Result.feasible r' /\
  Result.feasibilityType r = Result.feasibilityType r' /\
  Result.averageLenderRate r = Result.averageLenderRate r' /\
  Result.averageBorrowerRate r = Result.averageBorrowerRate r' /\
  Result.matchingEfficiency r = Result.matchingEfficiency r'.
Proof.
  apply (evaluator_ignores_group_order
           (no_overlap_group :: around_before ++ around_after)
           (around_before ++ no_overlap_group :: around_after)).
  apply Permutation_middle.
Defined.

(** The least of the lenders' rates is the rate of one of them, and the
    greatest of the borrowers' rates likewise, when the rates are within
    the seeds of the two loops. *)
Lemma minLenderRate_attained (lenders : list LoanTask) :
  lenders <> [] -> safe_rates lenders ->
  exists l, In l lenders /\ minLenderRate lenders = Task.interestRateBips l /\
            forall l', In l' lenders ->
                       Task.interestRateBips l <= Task.interestRateBips l'.
Proof.
  intros Hne Hsafe. unfold minLenderRate, Mathb_min.
  assert (Hgen : forall side a,
             (exists l, In l side /\
                        fold_left (fun acc x => Z.min acc (Task.interestRateBips x))
                                  side a = Task.interestRateBips l /\
                        Task.interestRateBips l <= a /\
                        forall l', In l' side ->
                                   Task.interestRateBips l
                                   <= Task.interestRateBips l')
             \/ (fold_left (fun acc x => Z.min acc (Task.interestRateBips x))
                           side a = a /\
                 forall l', In l' side -> a < Task.interestRateBips l')).
  { induction side as [| t side IH]; intros a.
    - right. split; [reflexivity | intros l' []].
    - simpl. destruct (IH (Z.min a (Task.interestRateBips t)))
        as [(l & Hl & Heq & Hle & Hmin) | (Heq & Hall)].
      + left. exists l. split; [right; exact Hl |].
        split; [exact Heq |]. split; [lia |].
        intros l' [<- | Hl']; [lia | apply Hmin, Hl'].
      + destruct (Z.le_gt_cases (Task.interestRateBips t) a) as [Hta | Hat].
        * left. exists t. split; [left; reflexivity |].
          split; [rewrite Heq; lia |]. split; [exact Hta |].
          intros l' [<- | Hl']; [lia |]. specialize (Hall l' Hl'). lia.
        * right. split; [rewrite Heq; lia |].
          intros l' [<- | Hl']; [lia |]. specialize (Hall l' Hl'). lia. }
  destruct (Hgen lenders MAX_SAFE_INTEGER)
    as [(l & Hl & Heq & _ & Hmin) | (_ & Hall)].
  - exists l. auto.
  - destruct lenders as [| t side]; [contradiction |].
    inversion Hsafe as [| ? ? Ht _]; subst.
    specialize (Hall t (or_introl eq_refl)). lia.
Qed.

Lemma maxBorrowerRate_attained (borrowers : list LoanTask) :
  borrowers <> [] -> safe_rates borrowers ->
  exists b, In b borrowers /\
            maxBorrowerRate borrowers = Task.interestRateBips b /\
            forall b', In b' borrowers ->
                       Task.interestRateBips b' <= Task.interestRateBips b.
Proof.
  intros Hne Hsafe. unfold maxBorrowerRate, Mathb_max.
  assert (Hgen : forall side a,
             (exists b, In b side /\
                        fold_left (fun acc x => Z.max acc (Task.interestRateBips x))
                                  side a = Task.interestRateBips b /\
                        a <= Task.interestRateBips b /\
                        forall b', In b' side ->
                                   Task.interestRateBips b'
                                   <= Task.interestRateBips b)
             \/ (fold_left (fun acc x => Z.max acc (Task.interestRateBips x))
                           side a = a /\
                 forall b', In b' side -> Task.interestRateBips b' < a)).
  { induction side as [| t side IH]; intros a.
    - right. split; [reflexivity | intros b' []].
    - simpl. destruct (IH (Z.max a (Task.interestRateBips t)))
        as [(b & Hb & Heq & Hle & Hmax) | (Heq & Hall)].
      + left. exists b. split; [right; exact Hb |].
        split; [exact Heq |]. split; [lia |].
        intros b' [<- | Hb']; [lia | apply Hmax, Hb'].
      + destruct (Z.le_gt_cases a (Task.interestRateBips t)) as [Hat | Hta].
        * left. exists t. split; [left; reflexivity |].
          split; [rewrite Heq; lia |]. split; [exact Hat |].
          intros b' [<- | Hb']; [lia |]. specialize (Hall b' Hb'). lia.
        * right. split; [rewrite Heq; lia |].
          intros b' [<- | Hb']; [lia |]. specialize (Hall b' Hb'). lia. }
  destruct (Hgen borrowers 0) as [(b & Hb & Heq & _ & Hmax) | (_ & Hall)].
  - exists b. auto.
  - destruct borrowers as [| t side]; [contradiction |].
    inversion Hsafe as [| ? ? Ht _]; subst.
    specialize (Hall t (or_introl eq_refl)). lia.
Qed.

(** A group that the evaluator classifies as matched passed both of its
    checks. *)
Lemma classified_matched_passes (g : list LoanTask) :
  classified_matched (group_matching g) <->
  length g <> 1%nat /\ ~ fails_internal_check g.
Proof.
  destruct (process_matching_cases g) as (_ & _ & _ & _ & Hcases).
  unfold classified_matched.
  destruct Hcases as [H | [H | H]]; decompose [and] H; clear H.
  - match goal with Hf : Matching.feasibility _ = NONE |- _ => rewrite Hf end.
    split; [intros [H | [H | H]]; discriminate H | intros (H & _); contradiction].
  - split; [| intros (_ & H); contradiction].
    match goal with
    | Hf : _ \/ _ |- _ => destruct Hf as [Hf | Hf]; rewrite Hf
    end; intros [H | [H | H]]; discriminate H.
  - split; [intros _; split; assumption | intros _; assumption].
Qed.

(** X8: for rates within 0 .. 2^53 - 1, the effective rate of a group
    that the evaluator classifies as matched lies between the lowest rate
    asked by a lender of the group and the highest rate offered by a
    borrower of the group: at least one lender and one borrower of the
    group accept it. *)
Theorem effectiveRate_acceptable_to_a_pair
    (combination : list (list LoanTask)) (m : LoanMatching) :
  In m (Result.matchings (computeLoanMatchingResult combination)) ->
  safe_rates (Matching.loanTasks m) ->
  classified_matched m ->
  exists l b,
    In l (lenders_of (Matching.loanTasks m)) /\
    In b (borrowers_of (Matching.loanTasks m)) /\
    (forall l', In l' (lenders_of (Matching.loanTasks m)) ->
                Task.interestRateBips l <= Task.interestRateBips l') /\
    (forall b', In b' (borrowers_of (Matching.loanTasks m)) ->
                Task.interestRateBips b' <= Task.interestRateBips b) /\
    Task.interestRateBips l <= Matching.effectiveRate m
    <= Task.interestRateBips b.
Proof.
  rewrite result_matchings. intros Hm. apply in_map_iff in Hm.
  destruct Hm as (g & <- & _).
  destruct (process_matching_cases g) as (_ & -> & _ & _ & Hcases).
  intros Hsafe Hcls. apply classified_matched_passes in Hcls.
  destruct Hcls as (Hlen & Hpass).
  destruct Hcases as [H | [H | H]]; decompose [and] H; clear H;
    try contradiction.
  match goal with
  | Hex : exists later, _ |- _ => destruct Hex as (later & Hcommon)
  end.
  assert (Hcm : common_maturity g (Matching.maturityTimestamp (group_matching g))).
  { apply findCommonMaturities_In. rewrite Hcommon. left. reflexivity. }
  destruct (matched_group_sides_nonempty g _ Hcm) as (HneL & HneB).
  assert (HsafeL : safe_rates (lenders_of g)) by (apply Forall_filter, Hsafe).
  assert (HsafeB : safe_rates (borrowers_of g)) by (apply Forall_filter, Hsafe).
  destruct (minLenderRate_attained _ HneL HsafeL) as (l & Hl & Hlo & Hmin).
  destruct (maxBorrowerRate_attained _ HneB HsafeB) as (b & Hb & Hhi & Hmax).
  exists l, b.
  split; [exact Hl |]. split; [exact Hb |].
  split; [exact Hmin |]. split; [exact Hmax |].
  match goal with
  | He : Matching.effectiveRate _ = _ |- _ => rewrite He
  end.
  rewrite Hlo, Hhi.
  assert (Hle : Task.interestRateBips l <= Task.interestRateBips b).
  { unfold fails_internal_check in Hpass. rewrite Hlo, Hhi in Hpass. lia. }
  assert (0 <= Task.interestRateBips l).
  { unfold safe_rates in HsafeL. rewrite Forall_forall in HsafeL.
    apply (HsafeL l Hl). }
  rewrite Z.quot_div_nonneg by lia.
  split.
  - apply Z.div_le_lower_bound; lia.
  - apply Z.div_le_upper_bound; lia.
Qed.

Lemma effectiveRate_acceptable_to_a_pair_witness :
  exists l b,
    In l (lenders_of five_orders) /\
    In b (borrowers_of five_orders) /\
    (forall l', In l' (lenders_of five_orders) ->
                Task.interestRateBips l <= Task.interestRateBips l') /\
    (forall b', In b' (borrowers_of five_orders) ->
                Task.interestRateBips b' <= Task.interestRateBips b) /\
    Task.interestRateBips l <= 500 <= Task.interestRateBips b.
Proof.
  apply (effectiveRate_acceptable_to_a_pair scenario_A
           (Matching.mk five_orders FULL_MATCH 35000 35000 35000 500 1)).
  - left. reflexivity.
  - unfold safe_rates, MAX_SAFE_INTEGER. simpl.
    repeat constructor; simpl; lia.
  - left. reflexivity.
Defined.

Lemma lenders_of_app (a b : list LoanTask) :
  lenders_of (a ++ b) = lenders_of a ++ lenders_of b.
Proof. apply filter_app. Qed.

Lemma borrowers_of_app (a b : list LoanTask) :
  borrowers_of (a ++ b) = borrowers_of a ++ borrowers_of b.
Proof. apply filter_app. Qed.

Lemma availableAmount_app (a b : list LoanTask) :
  availableAmount (a ++ b) = availableAmount a + availableAmount b.
Proof.
  induction a as [| t a IH]; [reflexivity |].
  change ((t :: a) ++ b) with (t :: (a ++ b)).
  rewrite !availableAmount_cons, IH. lia.
Qed.

(** X9: a partition into single orders matches nothing: the result is
    infeasible, of overall classification [NONE], with zero matched
    amount, efficiency and average rates, every group record is [NONE],
    no transfer is computed, and the two totals are the sums of the
    principals of the lenders and of the borrowers. *)
Theorem singleton_groups_match_nothing (combination : list (list LoanTask)) :
  Forall (fun g => length g = 1%nat) combination ->
  let result := computeLoanMatchingResult combination in
  Result.feasible result = false /\
  Result.feasibilityType result = NONE /\
  Result.totalMatchedAmount result = 0 /\
  Result.matchingEfficiency result = 0 /\
  Result.averageLenderRate result = 0 /\
  Result.averageBorrowerRate result = 0 /\
  Result.totalLenderAmount result
  = availableAmount (lenders_of (concat combination)) /\
  Result.totalBorrowerAmount result
  = availableAmount (borrowers_of (concat combination)) /\
  (forall m, In m (Result.matchings result) ->
             Matching.feasibility m = NONE) /\
  computeLoanTransfers result = [].
Proof.
  intros Hone. cbv zeta.
  assert (Hst : let st := fold_left process_matching combination initial_acc in
                Acc.totalMatchedAmount st = 0 /\
                Acc.totalLenderAmount st
                = availableAmount (lenders_of (concat combination)) /\
                Acc.totalBorrowerAmount st
                = availableAmount (borrowers_of (concat combination)) /\
                forall m, In m (Acc.matchings st) ->
                          Matching.feasibility m = NONE).
  { cbv zeta. induction Hone as [| g c Hg _ IH].
    - simpl. repeat split; try reflexivity. intros m [].
    - rewrite fold_process_cons. unfold acc_append.
      destruct IH as (IHM & IHL & IHB & IHN).
      destruct (process_matching_cases g) as (Hms & _ & _ & _ & Hcases).
      destruct Hcases as [H | [H | H]]; decompose [and] H; clear H;
        try contradiction.
      cbn [Acc.totalMatchedAmount Acc.totalLenderAmount
           Acc.totalBorrowerAmount Acc.matchings concat].
      rewrite lenders_of_app, borrowers_of_app, !availableAmount_app.
      split; [lia |]. split; [lia |]. split; [lia |].
      intros m Hm. rewrite Hms in Hm.
      destruct Hm as [<- | Hm]; [assumption | apply IHN, Hm]. }
  cbv zeta in Hst. destruct Hst as (HM & HL & HB & HN).
  assert (Htype : determineFeasibilityType
                    (Acc.matchings (fold_left process_matching combination
                                      initial_acc)) = NONE).
  { unfold determineFeasibilityType.
    match goal with |- context [negb ?b] => assert (b = false) as -> end;
      [| reflexivity].
    apply not_true_is_false. intros Hex. apply existsb_exists in Hex.
    destruct Hex as (m & Hm & Hf). specialize (HN m Hm).
    unfold is_feasibility in Hf. rewrite HN in Hf. discriminate Hf. }
  assert (Htr : computeLoanTransfers (computeLoanMatchingResult combination) = []).
  { unfold computeLoanTransfers, computeLoanMatchingResult.
    cbn [Result.matchings]. revert HN.
    generalize (Acc.matchings (fold_left process_matching combination
                                 initial_acc)).
    induction l as [| m ms IH]; intros HN; [reflexivity |].
    simpl. unfold matching_transfers at 1.
    rewrite (HN m (or_introl eq_refl)). simpl.
    apply IH. intros m' Hm'. apply HN. right. exact Hm'. }
  split; [| split; [| split; [| split; [| split; [| split;
    [| split; [| split; [| split]]]]]]]]; try exact Htr.
  all: unfold computeLoanMatchingResult; simpl; rewrite ?HM, ?HL, ?HB, ?Htype;
    try reflexivity.
  - unfold bigDecimal_divide_floor, bigDecimal_zero.
    destruct (_ >? 0); reflexivity.
  - exact HN.
Qed.

Lemma singleton_groups_match_nothing_witness :
  let result :=
    computeLoanMatchingResult (map (fun task => [task]) five_orders) in
  Result.feasible result = false /\
  Result.feasibilityType result = NONE /\
  Result.totalMatchedAmount result = 0 /\
  Result.matchingEfficiency result = 0 /\
  Result.averageLenderRate result = 0 /\
  Result.averageBorrowerRate result = 0 /\
  Result.totalLenderAmount result
  = availableAmount
      (lenders_of (concat (map (fun task => [task]) five_orders))) /\
  Result.totalBorrowerAmount result
  = availableAmount
      (borrowers_of (concat (map (fun task => [task]) five_orders))) /\
  (forall m, In m (Result.matchings result) ->
             Matching.feasibility m = NONE) /\
  computeLoanTransfers result = [].
Proof.
  apply (singleton_groups_match_nothing (map (fun task => [task]) five_orders)).
  repeat constructor.
Defined.

(** X10: the evaluator pushes one record per group, in the order of the
    partition and holding the group's orders; the total matched amount is
    the sum of the matched amounts of the records, and the result is
    feasible exactly when that sum is positive. *)
Theorem result_records_follow_groups (combination : list (list LoanTask)) :
  let result := computeLoanMatchingResult combination in
  map Matching.loanTasks (Result.matchings result) = combination /\
  Result.totalMatchedAmount result
  = fold_right (fun m acc => Matching.matchedAmount m + acc) 0
               (Result.matchings result) /\
  (Result.feasible result = true <->
   0 < fold_right (fun m acc => Matching.matchedAmount m + acc) 0
                  (Result.matchings result)).
Proof.
  cbv zeta.
  assert (Hsum : Result.totalMatchedAmount (computeLoanMatchingResult combination)
                 = fold_right (fun m acc => Matching.matchedAmount m + acc) 0
                     (Result.matchings (computeLoanMatchingResult combination))).
  { destruct (result_totals combination) as (_ & _ & -> & _).
    rewrite result_matchings.
    induction combination as [| g c IH]; [reflexivity |].
    rewrite fold_process_cons. unfold acc_append.
    cbn [Acc.totalMatchedAmount map fold_right].
    destruct (process_matching_weighted g) as (-> & _). rewrite IH.
    reflexivity. }
  split; [| split; [exact Hsum |]].
  - clear Hsum. rewrite result_matchings, map_map.
    induction combination as [| g c IH]; [reflexivity |].
    simpl. rewrite IH.
    destruct (process_matching_cases g) as (_ & -> & _). reflexivity.
  - rewrite <- Hsum. unfold computeLoanMatchingResult. simpl.
    destruct (Z.gtb_spec (Acc.totalMatchedAmount
                            (fold_left process_matching combination initial_acc)) 0);
      split; intros; try reflexivity; try discriminate; lia.
Qed.

(** ** The filter against the evaluator: [isLoanCombinationPossible] *)

Lemma sort_ascending_nil (l : list Z) : sort_ascending l = [] <-> l = [].
Proof.
  split; [| intros ->; reflexivity].
  destruct l as [| x l]; [reflexivity |]. intros Hs.
  assert (In x (sort_ascending (x :: l)))
    by (apply sort_ascending_In; left; reflexivity).
  rewrite Hs in H. destruct H.
Qed.

Lemma existsb_filter_nil {A} (f : A -> bool) (l : list A) :
  existsb f l = true <-> filter f l <> [].
Proof.
  induction l as [| x l IH]; simpl.
  - split; [discriminate | intros H; contradiction].
  - destruct (f x); simpl; [split; [discriminate | reflexivity] | exact IH].
Qed.

(** The check of the filter and the check of the evaluator on common
    maturities agree. *)
Lemma hasCommonMaturity_findCommonMaturities (lenders borrowers : list LoanTask) :
  hasCommonMaturity lenders borrowers = true <->
  findCommonMaturities lenders borrowers <> [].
Proof.
  unfold hasCommonMaturity, findCommonMaturities.
  rewrite sort_ascending_nil. apply existsb_filter_nil.
Qed.

Lemma group_possible_on_safe_rates (g : list LoanTask) :
  safe_rates g ->
  (group_possible g = true <-> ~ fails_internal_check g).
Proof.
  intros Hsafe.
  assert (HsafeL : safe_rates (lenders_of g)) by (apply Forall_filter, Hsafe).
  assert (HsafeB : safe_rates (borrowers_of g)) by (apply Forall_filter, Hsafe).
  unfold group_possible, fails_internal_check.
  pose proof (hasCommonMaturity_findCommonMaturities (lenders_of g)
                (borrowers_of g)) as Hcommon.
  destruct (lenders_of g) as [| l ls] eqn:HL.
  { simpl. split; [discriminate |]. intros H. exfalso. apply H. right.
    reflexivity. }
  destruct (borrowers_of g) as [| b bs] eqn:HB.
  { simpl. split; [discriminate |]. intros H. exfalso. apply H. right.
    unfold findCommonMaturities.
    apply sort_ascending_nil.
    induction (js_set (map Task.maturityTimestamp (l :: ls))) as [| x xs IH];
      [reflexivity | exact IH]. }
  inversion HsafeL as [| ? ? Hl Hls]; subst.
  inversion HsafeB as [| ? ? Hb Hbs]; subst.
  cbn [length Nat.eqb orb].
  unfold Math_min, Math_max. cbn [rates_as_numbers map fold_left].
  rewrite (Number_safe _ Hl), (Number_safe _ Hb).
  cbn [number_leb].
  change (fold_left (fun acc x => if number_leb acc x then acc else x)
            (map (fun task => Number (Task.interestRateBips task)) ls)
            (Finite (Task.interestRateBips l)))
    with (fold_left (fun acc x => if number_leb acc x then acc else x)
            (rates_as_numbers ls) (Finite (Task.interestRateBips l))).
  change (fold_left (fun acc x => if number_leb x acc then acc else x)
            (map (fun task => Number (Task.interestRateBips task)) bs)
            (Finite (Task.interestRateBips b)))
    with (fold_left (fun acc x => if number_leb x acc then acc else x)
            (rates_as_numbers bs) (Finite (Task.interestRateBips b))).
  rewrite (Math_min_safe ls Hls), (Math_max_safe bs Hbs).
  assert (HminL : minLenderRate (l :: ls)
                  = fold_left Z.min (map Task.interestRateBips ls)
                              (Task.interestRateBips l)).
  { unfold minLenderRate. simpl. rewrite fold_min_rates.
    unfold Mathb_min, MAX_SAFE_INTEGER in *. rewrite Z.min_r by lia.
    reflexivity. }
  assert (HmaxB : maxBorrowerRate (b :: bs)
                  = fold_left Z.max (map Task.interestRateBips bs)
                              (Task.interestRateBips b)).
  { unfold maxBorrowerRate. simpl. rewrite fold_max_rates.
    unfold Mathb_max. rewrite Z.max_r by lia. reflexivity. }
  rewrite HminL, HmaxB.
  set (lo := fold_left Z.min _ _). set (hi := fold_left Z.max _ _).
  unfold number_gtb. cbn [number_leb].
  destruct (Z.leb_spec lo hi) as [Hle | Hgt]; cbn [negb].
  - rewrite Hcommon. split.
    + intros Hne [Hgt | Hnil]; [lia | contradiction].
    + intros Hpass Hnil. apply Hpass. right. exact Hnil.
  - split; [discriminate |]. intros Hpass. exfalso. apply Hpass. left. lia.
Qed.

(** X11: for rates within 0 .. 2^53 - 1 the filter and the evaluator
    agree: a partition passes [isLoanCombinationPossible] exactly when
    the evaluator classifies every group of it that is not a single order
    as matched. *)
Theorem filter_agrees_with_evaluator (combination : list (list LoanTask)) :
  Forall safe_rates combination ->
  (isLoanCombinationPossible combination = true <->
   forall m, In m (Result.matchings (computeLoanMatchingResult combination)) ->
             length (Matching.loanTasks m) <> 1%nat -> classified_matched m).
Proof.
  intros Hsafe. rewrite result_matchings.
  assert (Hgroups : isLoanCombinationPossible combination = true <->
                    forall g, In g combination -> length g <> 1%nat ->
                              classified_matched (group_matching g)).
  { induction Hsafe as [| g c Hg _ IH]; simpl.
    - split; [intros _ g [] | reflexivity].
    - destruct (Nat.eqb_spec (length g) 1) as [Hone | Hlen].
      + rewrite IH. split.
        * intros H g' [<- | Hg']; [contradiction | apply H, Hg'].
        * intros H g' Hg'. apply H. right. exact Hg'.
      + destruct (group_possible g) eqn:Hgp.
        * rewrite IH. split.
          -- intros H g' [<- | Hg']; [| apply H, Hg'].
             intros _. apply classified_matched_passes. split; [exact Hlen |].
             apply group_possible_on_safe_rates; assumption.
          -- intros H g' Hg'. apply H. right. exact Hg'.
        * split; [discriminate |]. intros H. exfalso.
          specialize (H g (or_introl eq_refl) Hlen).
          apply classified_matched_passes in H. destruct H as (_ & Hpass).
          apply group_possible_on_safe_rates in Hpass; [| exact Hg].
          congruence. }
  rewrite Hgroups. split.
  - intros H m Hm. apply in_map_iff in Hm. destruct Hm as (g & <- & Hg).
    destruct (process_matching_cases g) as (_ & -> & _). apply H, Hg.
  - intros H g Hg Hlen. apply H; [apply in_map, Hg |].
    destruct (process_matching_cases g) as (_ & -> & _). exact Hlen.
Qed.

Lemma filter_agrees_with_evaluator_witness :
  isLoanCombinationPossible scenario_A = true <->
  forall m, In m (Result.matchings (computeLoanMatchingResult scenario_A)) ->
            length (Matching.loanTasks m) <> 1%nat -> classified_matched m.
Proof.
  apply (filter_agrees_with_evaluator scenario_A).
  unfold scenario_A, safe_rates, MAX_SAFE_INTEGER.
  repeat constructor; simpl; lia.
Defined.

(** ** Common maturities: [findCommonMaturities] *)

Lemma js_set_NoDup (xs : list Z) : NoDup (js_set xs).
Proof.
  unfold js_set.
  assert (Hgen : forall s, NoDup s ->
            NoDup (fold_left (fun s x => if existsb (Z.eqb x) s then s
                                         else s ++ [x]) xs s)).
  { induction xs as [| x xs IH]; intros s Hs; simpl; [exact Hs |].
    apply IH. destruct (existsb (Z.eqb x) s) eqn:Hx; [exact Hs |].
    apply NoDup_app; [exact Hs | repeat constructor; intros [] |].
    intros y Hy [<- | []].
    apply existsb_eqb_In in Hy. congruence. }
  apply Hgen. constructor.
Qed.

Lemma insert_ascending_sorted (x : Z) (l : list Z) :
  StronglySorted Z.lt l -> ~ In x l ->
  StronglySorted Z.lt (insert_ascending x l).
Proof.
  induction 1 as [| y l Hl IH Hy]; intros Hx; simpl.
  - repeat constructor.
  - destruct (Z.leb_spec x y) as [Hle | Hgt].
    + assert (x < y) by (assert (x <> y) by (intros ->; apply Hx; left; reflexivity); lia).
      constructor; [constructor; assumption |].
      constructor; [assumption |].
      rewrite Forall_forall in Hy |- *. intros z Hz. specialize (Hy z Hz). lia.
    + constructor.
      * apply IH. intros Hin. apply Hx. right. exact Hin.
      * rewrite Forall_forall in Hy |- *. intros z Hz.
        apply insert_ascending_In in Hz. destruct Hz as [-> | Hz];
          [lia | apply Hy, Hz].
Qed.

Lemma sort_ascending_sorted (l : list Z) :
  NoDup l -> StronglySorted Z.lt (sort_ascending l).
Proof.
  induction 1 as [| x l Hx _ IH]; simpl; [constructor |].
  apply insert_ascending_sorted; [exact IH |].
  rewrite sort_ascending_In. exact Hx.
Qed.

(** X12: [findCommonMaturities] returns exactly the maturities carried by
    both a lender and a borrower, each once and in strictly ascending
    order (so its first element is the earliest), and it is non-empty
    exactly when the check of the filter finds a common maturity. *)
Theorem findCommonMaturities_ascending (lenders borrowers : list LoanTask) :
  let common := findCommonMaturities lenders borrowers in
  StronglySorted Z.lt common /\
  (forall maturity,
      In maturity common <->
      In maturity (map Task.maturityTimestamp lenders) /\
      In maturity (map Task.maturityTimestamp borrowers)) /\
  (hasCommonMaturity lenders borrowers = true <-> common <> []).
Proof.
  cbv zeta. split; [| split].
  - unfold findCommonMaturities.
    apply sort_ascending_sorted, NoDup_filter, js_set_NoDup.
  - intros maturity. unfold findCommonMaturities.
    rewrite sort_ascending_In, filter_In, set_has_In, !js_set_In. reflexivity.
  - apply hasCommonMaturity_findCommonMaturities.
Qed.

(** ** The selector on arbitrary candidates: [computeBestLoanResult] *)

Lemma best_loop_filter (l : list LoanMatchingResult) :
  forall b, best_loop b l = best_loop b (filter Result.feasible l).
Proof.
  induction l as [| r l IH]; intros b; [reflexivity |].
  simpl. destruct (Result.feasible r) eqn:Hr; simpl.
  - rewrite Hr. simpl. destruct b; apply IH.
  - apply IH.
Qed.

Lemma best_loop_held (l : list LoanMatchingResult) :
  forall b, exists w,
    best_loop (Some b) l = Some w /\
    (w = b \/ (In w l /\ Result.feasible w = true)).
Proof.
  induction l as [| r l IH]; intros b; simpl.
  - exists b. auto.
  - destruct (Result.feasible r) eqn:Hr; simpl.
    + destruct (replaces r b).
      * destruct (IH r) as (w & Hw & [Heq | (Hin & Hf)]); exists w;
          [subst w |]; auto.
      * destruct (IH b) as (w & Hw & [Heq | (Hin & Hf)]); exists w; auto.
    + destruct (IH b) as (w & Hw & [Heq | (Hin & Hf)]); exists w; auto.
Qed.

Lemma best_loop_finds_feasible (l : list LoanMatchingResult) :
  (exists r, In r l /\ Result.feasible r = true) ->
  exists w, best_loop None l = Some w /\ In w l /\ Result.feasible w = true.
Proof.
  induction l as [| r l IH]; intros (r0 & Hin & Hf); [destruct Hin |].
  simpl. destruct (Result.feasible r) eqn:Hr; simpl.
  - destruct (best_loop_held l r) as (w & Hw & [Heq | (Hwin & Hwf)]);
      exists w; [subst w |]; auto.
  - destruct Hin as [-> | Hin]; [congruence |].
    destruct (IH (ex_intro _ r0 (conj Hin Hf))) as (w & Hw & Hwin & Hwf).
    exists w. auto.
Qed.

(** X13: as soon as one candidate is feasible, the infeasible candidates
    play no part: the selector returns what it returns on the list of the
    feasible candidates alone, and that is a feasible member of the
    list. *)
Theorem selector_ignores_infeasible
    (possibleResults : list LoanMatchingResult) :
  (exists r, In r possibleResults /\ Result.feasible r = true) ->
  computeBestLoanResult possibleResults
  = computeBestLoanResult (filter Result.feasible possibleResults) /\
  exists w, computeBestLoanResult possibleResults = Normal (Some w) /\
            In w possibleResults /\ Result.feasible w = true.
Proof.
  intros Hex.
  destruct (best_loop_finds_feasible possibleResults Hex) as (w & Hw & Hin & Hf).
  unfold computeBestLoanResult.
  rewrite <- best_loop_filter, Hw.
  split; [reflexivity |]. exists w. auto.
Qed.

Lemma selector_ignores_infeasible_witness :
  computeBestLoanResult
    [candidate false 0 0 0; candidate true 50 4000 500;
     candidate false 0 0 0; candidate true 80 4000 600]
  = computeBestLoanResult
      (filter Result.feasible
         [candidate false 0 0 0; candidate true 50 4000 500;
          candidate false 0 0 0; candidate true 80 4000 600]) /\
  exists w,
    computeBestLoanResult
      [candidate false 0 0 0; candidate true 50 4000 500;
       candidate false 0 0 0; candidate true 80 4000 600]
    = Normal (Some w) /\
    In w [candidate false 0 0 0; candidate true 50 4000 500;
          candidate false 0 0 0; candidate true 80 4000 600] /\
    Result.feasible w = true.
Proof.
  apply (selector_ignores_infeasible
           [candidate false 0 0 0; candidate true 50 4000 500;
            candidate false 0 0 0; candidate true 80 4000 600]).
  exists (candidate true 50 4000 500).
  split; [right; left; reflexivity | reflexivity].
Defined.

(** Loop invariant of [best_loop] over feasible candidates: the state is
    the winner of the prefix read so far. *)
Lemma best_loop_winner_feasible (rest : list LoanMatchingResult) :
  forall (pre : list LoanMatchingResult) i b,
    Forall (fun r => Result.feasible r = true) rest ->
    winner_at pre i b ->
    exists i' w, best_loop (Some b) rest = Some w /\ winner_at (pre ++ rest) i' w.
Proof.
  induction rest as [| r rest IH]; intros pre i b Hf Hw.
  - exists i, b. rewrite app_nil_r. split; [reflexivity | exact Hw].
  - inversion Hf as [| ? ? Hr Hf']; subst. simpl. rewrite Hr. simpl.
    replace (pre ++ r :: rest) with ((pre ++ [r]) ++ rest)
      by (rewrite <- app_assoc; reflexivity).
    destruct (replaces r b) eqn:Hrb.
    + apply replaces_spec in Hrb.
      apply (IH (pre ++ [r]) (length pre) r Hf').
      apply winner_at_snoc_replace. intros c Hc.
      apply In_nth_error in Hc. destruct Hc as (j & Hj).
      destruct Hw as (Hi & Hmax & Hfirst).
      destruct (Nat.lt_trichotomy j i) as [Hlt | [-> | Hgt]].
      * specialize (Hfirst j c Hj Hlt). unfold strictly_better in *. lia.
      * assert (c = b) as -> by congruence. exact Hrb.
      * specialize (Hmax j c Hj). unfold strictly_better in *. lia.
    + apply (IH (pre ++ [r]) i b Hf').
      apply winner_at_snoc_keep; [exact Hw |].
      rewrite <- replaces_spec. congruence.
Qed.

Lemma best_of_feasible (r : LoanMatchingResult)
    (rest : list LoanMatchingResult) :
  Forall (fun r => Result.feasible r = true) (r :: rest) ->
  exists i w,
    computeBestLoanResult (r :: rest) = Normal (Some w) /\
    winner_at (r :: rest) i w.
Proof.
  intros Hf. inversion Hf as [| ? ? Hr Hf']; subst.
  destruct (best_loop_winner_feasible rest [r] 0%nat r Hf') as (i & w & Hw & Hwin).
  { split; [reflexivity | split].
    - intros j c Hj. destruct j as [| j]; simpl in Hj;
        [injection Hj as <- | destruct j; discriminate Hj].
      unfold strictly_better. lia.
    - intros j c _ Hlt. lia. }
  exists i, w. split; [| exact Hwin].
  unfold computeBestLoanResult. simpl. rewrite Hr. simpl. rewrite Hw.
  reflexivity.
Qed.

(** X14: on a non-empty list of feasible candidates (what [processBatch]
    passes) the selector returns the winner of the comparator: no
    candidate is strictly better than it, and it is the first such in the
    list.  No assumption on how the candidates were computed is needed. *)
Theorem selector_on_feasible_candidates
    (possibleResults : list LoanMatchingResult) :
  possibleResults <> [] ->
  Forall (fun r => Result.feasible r = true) possibleResults ->
  exists i w,
    computeBestLoanResult possibleResults = Normal (Some w) /\
    winner_at possibleResults i w.
Proof.
  intros Hne Hf. destruct possibleResults as [| r rest]; [contradiction |].
  apply best_of_feasible, Hf.
Qed.

Lemma selector_on_feasible_candidates_witness :
  exists i w,
    computeBestLoanResult
      [candidate true 50 4000 500; candidate true 80 4000 600;
       candidate true 80 5000 700; candidate true 80 5000 650]
    = Normal (Some w) /\
    winner_at [candidate true 50 4000 500; candidate true 80 4000 600;
               candidate true 80 5000 700; candidate true 80 5000 650] i w.
Proof.
  apply (selector_on_feasible_candidates
           [candidate true 50 4000 500; candidate true 80 4000 600;
            candidate true 80 5000 700; candidate true 80 5000 650]).
  - discriminate.
  - repeat constructor.
Defined.

(** ** Deduplication and the extremes of the generator *)

Lemma removeDuplicates_from_keys (cs : list (list (list LoanTask))) :
  forall seen,
    NoDup (map combination_key (removeDuplicates_from seen cs)) /\
    (forall c, In c (removeDuplicates_from seen cs) ->
               ~ In (combination_key c) seen) /\
    (forall c, In c cs ->
               In (combination_key c) seen \/
               In (combination_key c)
                  (map combination_key (removeDuplicates_from seen cs))).
Proof.
  induction cs as [| c0 cs IH]; intros seen; simpl.
  - split; [constructor |]. split; intros c [].
  - destruct (in_dec key_eq_dec (combination_key c0) seen) as [Hin | Hout].
    + destruct (IH seen) as (Hnd & Hfresh & Hcov).
      split; [exact Hnd |]. split; [exact Hfresh |].
      intros c [<- | Hc]; [left; exact Hin | apply Hcov, Hc].
    + destruct (IH (combination_key c0 :: seen)) as (Hnd & Hfresh & Hcov).
      split; [| split].
      * simpl. constructor; [| exact Hnd].
        intros Hk. apply in_map_iff in Hk. destruct Hk as (c & Hkc & Hc).
        apply (Hfresh c Hc). left. symmetry. exact Hkc.
      * intros c [<- | Hc]; [exact Hout |].
        intros Hs. apply (Hfresh c Hc). right. exact Hs.
      * intros c [<- | Hc]; [right; left; reflexivity |].
        destruct (Hcov c Hc) as [[Heq | Hs] | Hk].
        -- right. left. exact Heq.
        -- left. exact Hs.
        -- right. right. exact Hk.
Qed.

Lemma removeDuplicates_from_first (cs : list (list (list LoanTask))) :
  forall seen c,
    In c (removeDuplicates_from seen cs) ->
    exists pre post,
      cs = pre ++ c :: post /\
      ~ In (combination_key c) (map combination_key pre).
Proof.
  induction cs as [| c0 cs IH]; intros seen c; simpl; [intros [] |].
  destruct (in_dec key_eq_dec (combination_key c0) seen) as [Hin | Hout].
  - intros Hc.
    destruct (removeDuplicates_from_keys cs seen) as (_ & Hfresh & _).
    destruct (IH seen c Hc) as (pre & post & -> & Hpre).
    exists (c0 :: pre), post. split; [reflexivity |].
    simpl. intros [Heq | Hk]; [| exact (Hpre Hk)].
    apply (Hfresh c Hc). rewrite <- Heq. exact Hin.
  - intros [<- | Hc].
    + exists [], cs. split; [reflexivity | intros []].
    + destruct (removeDuplicates_from_keys cs (combination_key c0 :: seen))
        as (_ & Hfresh & _).
      destruct (IH _ c Hc) as (pre & post & -> & Hpre).
      exists (c0 :: pre), post. split; [reflexivity |].
      simpl. intros [Heq | Hk]; [| exact (Hpre Hk)].
      apply (Hfresh c Hc). left. exact Heq.
Qed.

(** X15: [removeDuplicates] keeps, in their order, exactly the first
    combination of each deduplication key: the kept combinations have
    pairwise distinct keys, each is a member of the input that no earlier
    member shares its key with, every key of the input is kept, and
    running it again changes nothing. *)
Theorem removeDuplicates_keeps_first_of_each_key
    (combinations : list (list (list LoanTask))) :
  let kept := removeDuplicates combinations in
  NoDup (map combination_key kept) /\
  (forall c, In c kept ->
             exists pre post,
               combinations = pre ++ c :: post /\
               ~ In (combination_key c) (map combination_key pre)) /\
  (forall c, In c combinations ->
             In (combination_key c) (map combination_key kept)) /\
  removeDuplicates kept = kept.
Proof.
  cbv zeta. unfold removeDuplicates.
  destruct (removeDuplicates_from_keys combinations []) as (Hnd & _ & Hcov).
  split; [exact Hnd |]. split; [| split].
  - intros c Hc. exact (removeDuplicates_from_first combinations [] c Hc).
  - intros c Hc. destruct (Hcov c Hc) as [[] | Hk]. exact Hk.
  - rewrite (removeDuplicates_from_filter _ Hnd).
    apply filter_keeps_all. intros c _. reflexivity.
Qed.

Lemma Stirling2_above (n : nat) :
  forall k, (n < k)%nat -> Stirling2 n k = 0%nat.
Proof.
  induction n as [| n IH]; intros k Hk.
  - destruct k; [lia | reflexivity].
  - destruct k as [| k]; [lia |]. simpl.
    rewrite (IH k), (IH (S k)) by lia. lia.
Qed.

Lemma Stirling2_diag (n : nat) : Stirling2 n n = 1%nat.
Proof.
  induction n as [| n IH]; [reflexivity |].
  simpl. rewrite IH, (Stirling2_above n (S n)) by lia. lia.
Qed.

Lemma groups_all_single (c : list (list LoanTask)) :
  Forall (fun g => g <> []) c ->
  (length c <= length (concat c))%nat /\
  (length (concat c) = length c -> Forall (fun g => length g = 1%nat) c).
Proof.
  induction 1 as [| g c Hg _ (IHle & IHeq)]; simpl.
  - split; [lia | constructor].
  - rewrite length_app.
    assert (1 <= length g)%nat by (destruct g; [contradiction | simpl; lia]).
    split; [lia |]. intros Heq.
    constructor; [lia | apply IHeq; lia].
Qed.

(** X16: on a non-empty list of orders with distinct ids the generator
    always returns the two extreme partitions: the one that puts all
    orders into a single group, and a partition of the orders into
    groups of one order each. *)
Theorem generator_returns_extremes (tasks : list LoanTask) :
  tasks <> [] ->
  NoDup (map Task.taskId tasks) ->
  In [tasks] (generateLoanTaskCombinations tasks) /\
  exists c, In c (generateLoanTaskCombinations tasks) /\
            Forall (fun g => length g = 1%nat) c /\
            Permutation (concat c) tasks.
Proof.
  intros Hne Hnd.
  destruct (generator_enumerates tasks Hne Hnd)
    as (Hpart & _ & _ & Hcount & Hwhole).
  split; [exact Hwhole |].
  specialize (Hcount (length tasks)). rewrite Stirling2_diag in Hcount.
  unfold count_groups in Hcount.
  destruct (filter (fun c => (length c =? length tasks)%nat)
                   (generateLoanTaskCombinations tasks)) as [| c rest] eqn:Hfilter;
    [discriminate Hcount |].
  assert (Hc : In c (filter (fun c => (length c =? length tasks)%nat)
                            (generateLoanTaskCombinations tasks)))
    by (rewrite Hfilter; left; reflexivity).
  apply filter_In in Hc. destruct Hc as (Hc & Hlen).
  apply Nat.eqb_eq in Hlen.
  destruct (Hpart c Hc) as (Hgroups & Hperm).
  exists c. split; [exact Hc |]. split; [| exact Hperm].
  apply groups_all_single; [exact Hgroups |].
  rewrite (Permutation_length Hperm). symmetry. exact Hlen.
Qed.

Lemma generator_returns_extremes_witness :
  In [five_orders] (generateLoanTaskCombinations five_orders) /\
  exists c, In c (generateLoanTaskCombinations five_orders) /\
            Forall (fun g => length g = 1%nat) c /\
            Permutation (concat c) five_orders.
Proof.
  apply (generator_returns_extremes five_orders).
  - discriminate.
  - unfold five_orders, order. simpl.
    repeat constructor; simpl; intuition discriminate.
Defined.

(** ** The buckets of [groupByMaturity] *)

Lemma add_to_group_keys (maturityKey : Z) (task : LoanTask)
    (groups : list (Z * list LoanTask)) :
  map fst (add_to_group maturityKey task groups)
  = if existsb (Z.eqb maturityKey) (map fst groups)
    then map fst groups
    else map fst groups ++ [maturityKey].
Proof.
  induction groups as [| [key bucket] rest IH]; simpl; [reflexivity |].
  rewrite (Z.eqb_sym maturityKey key).
  destruct (key =? maturityKey); simpl; [reflexivity |].
  rewrite IH. destruct (existsb _ _); reflexivity.
Qed.

Lemma add_to_group_members (maturityKey : Z) (task : LoanTask)
    (groups : list (Z * list LoanTask)) (key : Z) (bucket : list LoanTask) :
  NoDup (map fst groups) ->
  In (key, bucket) (add_to_group maturityKey task groups) ->
  (key <> maturityKey /\ In (key, bucket) groups) \/
  (key = maturityKey /\ ~ In maturityKey (map fst groups) /\ bucket = [task]) \/
  (key = maturityKey /\
   exists before, In (key, before) groups /\ bucket = before ++ [task]).
Proof.
  induction groups as [| [key0 bucket0] rest IH]; simpl; intros Hnd Hin.
  - destruct Hin as [Heq | []]. injection Heq as <- <-.
    right. left. split; [reflexivity | split; [intros [] | reflexivity]].
  - inversion Hnd as [| ? ? Hfresh Hnd']; subst.
    destruct (Z.eqb_spec key0 maturityKey) as [-> | Hne].
    + destruct Hin as [Heq | Hin].
      * injection Heq as <- <-. right. right. split; [reflexivity |].
        exists bucket0. split; [left; reflexivity | reflexivity].
      * left. split; [| right; exact Hin].
        intros ->. apply Hfresh.
        apply in_map_iff. exists (maturityKey, bucket). auto.
    + destruct Hin as [Heq | Hin].
      * injection Heq as <- <-. left. split; [exact Hne | left; reflexivity].
      * destruct (IH Hnd' Hin) as [(Hk & Hold) | [(Hk & Hnew & Hb)
                                                  | (Hk & before & Hold & Hb)]].
        -- left. split; [exact Hk | right; exact Hold].
        -- right. left. split; [exact Hk |]. split; [| exact Hb].
           intros [Heq | Hr]; [congruence | exact (Hnew Hr)].
        -- right. right. split; [exact Hk |].
           exists before. split; [right; exact Hold | exact Hb].
Qed.

Lemma groupByMaturity_fold_buckets (rest : list LoanTask) :
  forall seen groups,
    (NoDup (map fst groups) /\
     (forall task, In task seen ->
                   In (Task.maturityTimestamp task) (map fst groups)) /\
     (forall key bucket,
         In (key, bucket) groups ->
         bucket <> [] /\
         bucket = filter (fun task => Task.maturityTimestamp task =? key) seen)) ->
    let groups' :=
      fold_left (fun groups task =>
                   add_to_group (Task.maturityTimestamp task) task groups)
                rest groups in
    NoDup (map fst groups') /\
    (forall task, In task (seen ++ rest) ->
                  In (Task.maturityTimestamp task) (map fst groups')) /\
    (forall key bucket,
        In (key, bucket) groups' ->
        bucket <> [] /\
        bucket = filter (fun task => Task.maturityTimestamp task =? key)
                        (seen ++ rest)).
Proof.
  induction rest as [| t rest IH]; intros seen groups (Hnd & Hkeys & Hbuckets);
    cbv zeta.
  - simpl. rewrite app_nil_r. auto.
  - simpl fold_left.
    replace (seen ++ t :: rest) with ((seen ++ [t]) ++ rest)
      by (rewrite <- app_assoc; reflexivity).
    apply IH. split; [| split].
    + rewrite add_to_group_keys.
      destruct (existsb _ _) eqn:Hex; [exact Hnd |].
      apply NoDup_app; [exact Hnd | repeat constructor; intros [] |].
      intros k Hk [<- | []]. apply existsb_eqb_In in Hk. congruence.
    + intros task Hin. rewrite add_to_group_keys.
      apply in_app_or in Hin. destruct Hin as [Hin | [<- | []]].
      * specialize (Hkeys task Hin).
        destruct (existsb _ _); [| apply in_or_app; left]; exact Hkeys.
      * destruct (existsb _ _) eqn:Hex.
        -- apply existsb_eqb_In. exact Hex.
        -- apply in_or_app. right. left. reflexivity.
    + intros key bucket Hin. rewrite filter_app. simpl.
      destruct (add_to_group_members _ _ _ _ _ Hnd Hin)
        as [(Hk & Hold) | [(Hk & Hnew & Hb) | (Hk & before & Hold & Hb)]].
      * destruct (Hbuckets key bucket Hold) as (Hne & Heq).
        split; [exact Hne |].
        destruct (Z.eqb_spec (Task.maturityTimestamp t) key) as [Heq' | _];
          [congruence |].
        rewrite app_nil_r. exact Heq.
      * subst key bucket. split; [discriminate |].
        rewrite Z.eqb_refl.
        assert (filter (fun task => Task.maturityTimestamp task
                                    =? Task.maturityTimestamp t) seen = []) as ->;
          [| reflexivity].
        destruct (filter _ seen) as [| x xs] eqn:Hf; [reflexivity |].
        assert (Hx : In x (filter (fun task => Task.maturityTimestamp task
                                               =? Task.maturityTimestamp t) seen))
          by (rewrite Hf; left; reflexivity).
        apply filter_In in Hx. destruct Hx as (Hx & Hm).
        apply Z.eqb_eq in Hm. exfalso. apply Hnew. rewrite <- Hm.
        apply Hkeys, Hx.
      * subst key bucket.
        destruct (Hbuckets _ before Hold) as (_ & Heq).
        split; [destruct before; discriminate |].
        rewrite Z.eqb_refl, <- Heq. reflexivity.
Qed.

(** X17: [groupByMaturity] splits a batch by maturity: the keys of the
    map are pairwise distinct, the maturity of every order of the batch is
    a key, and the bucket under a key holds exactly the orders of the
    batch with that maturity, in their order in the batch; no bucket is
    empty. *)
Theorem groupByMaturity_buckets (tasks : list LoanTask) :
  let groups := groupByMaturity tasks in
  NoDup (map fst groups) /\
  (forall task, In task tasks ->
                In (Task.maturityTimestamp task) (map fst groups)) /\
  (forall key bucket,
      In (key, bucket) groups ->
      bucket <> [] /\
      bucket = filter (fun task => Task.maturityTimestamp task =? key) tasks).
Proof.
  cbv zeta. unfold groupByMaturity.
  apply (groupByMaturity_fold_buckets tasks [] []).
  split; [constructor |]. split; [intros task [] | intros key bucket []].
Qed.

(** ** The loop of [processBatch] *)

Lemma availableAmount_permutation (a b : list LoanTask) :
  Permutation a b -> availableAmount a = availableAmount b.
Proof.
  induction 1 as [| x a b _ IH | x y a | a b c _ IH1 _ IH2].
  - reflexivity.
  - rewrite !availableAmount_cons, IH. reflexivity.
  - rewrite !availableAmount_cons. lia.
  - congruence.
Qed.

Lemma filter_permutation {A} (f : A -> bool) (a b : list A) :
  Permutation a b -> Permutation (filter f a) (filter f b).
Proof.
  induction 1 as [| x a b _ IH | x y a | a b c _ IH1 _ IH2]; simpl.
  - constructor.
  - destruct (f x); [constructor |]; exact IH.
  - destruct (f x), (f y); try apply Permutation_refl. apply perm_swap.
  - exact (Permutation_trans IH1 IH2).
Qed.

(** The groups that pass both checks never put more on a side of the
    totals than the orders of that side hold. *)
Lemma fold_totals_within_sides (c : list (list LoanTask)) :
  nonneg_principals c ->
  let st := fold_left process_matching c initial_acc in
  Acc.totalLenderAmount st <= availableAmount (lenders_of (concat c)) /\
  Acc.totalBorrowerAmount st <= availableAmount (borrowers_of (concat c)).
Proof.
  intros Hnn. unfold nonneg_principals in Hnn. cbv zeta.
  induction Hnn as [| g c Hg _ IH].
  - unfold availableAmount. simpl. lia.
  - rewrite fold_process_cons. unfold acc_append.
    cbn [Acc.totalLenderAmount Acc.totalBorrowerAmount concat].
    rewrite lenders_of_app, borrowers_of_app, !availableAmount_app.
    destruct (side_totals_nonneg g Hg) as (HL & HB).
    destruct (process_matching_cases g) as (_ & _ & _ & _ & Hcases).
    destruct Hcases as [H | [H | H]]; decompose [and] H; clear H; lia.
Qed.

Lemma partition_nonneg (tasks : list LoanTask) (c : list (list LoanTask)) :
  is_set_partition tasks c ->
  Forall (fun task => 0 <= Task.principalAmount task) tasks ->
  nonneg_principals c.
Proof.
  intros Hpart Hnn. unfold nonneg_principals.
  apply Forall_forall. intros g Hg. apply Forall_forall. intros t Ht.
  rewrite Forall_forall in Hnn. apply Hnn.
  apply (partition_members tasks c t Hpart).
  apply in_concat. exists g. auto.
Qed.

(** No partition of the orders matches more than the smaller side
    holds. *)
Lemma partition_matched_bound (tasks : list LoanTask)
    (c : list (list LoanTask)) :
  is_set_partition tasks c ->
  Forall (fun task => 0 <= Task.principalAmount task) tasks ->
  0 <= Result.totalMatchedAmount (computeLoanMatchingResult c)
  <= Z.min (availableAmount (lenders_of tasks))
           (availableAmount (borrowers_of tasks)).
Proof.
  intros Hpart Hnn.
  pose proof (partition_nonneg tasks c Hpart Hnn) as Hc.
  destruct (result_totals c) as (_ & _ & -> & _).
  pose proof (fold_totals_ordered c Hc) as Hord.
  pose proof (fold_totals_within_sides c Hc) as Hside.
  cbv zeta in Hord, Hside.
  destruct Hpart as (_ & Hperm).
  unfold lenders_of, borrowers_of in Hside.
  rewrite (availableAmount_permutation _ _
             (filter_permutation (fun task => Task.isLender task) _ _ Hperm)),
    (availableAmount_permutation _ _
       (filter_permutation (fun task => negb (Task.isLender task)) _ _ Hperm))
    in Hside.
  unfold lenders_of, borrowers_of. lia.
Qed.

(** What is pushed to [allResults]: the feasible results of the generated
    partitions that pass the filter. *)
Lemma allResults_In (groupTasks : list LoanTask) (r : LoanMatchingResult) :
  In r (filter Result.feasible
          (map computeLoanMatchingResult
               (filter isLoanCombinationPossible
                       (generateLoanTaskCombinations groupTasks)))) <->
  exists c, In c (generateLoanTaskCombinations groupTasks) /\
            isLoanCombinationPossible c = true /\
            r = computeLoanMatchingResult c /\
            Result.feasible r = true.
Proof.
  rewrite filter_In, in_map_iff. split.
  - intros ((c & <- & Hc) & Hf). apply filter_In in Hc.
    destruct Hc as (Hc & Hp). exists c. auto.
  - intros (c & Hc & Hp & -> & Hf). split; [| exact Hf].
    exists c. split; [reflexivity |]. apply filter_In. auto.
Qed.

Lemma length_zero_nil {A} (l : list A) :
  (length l =? 0)%nat = true <-> l = [].
Proof.
  destruct l; simpl; split; intros H; try reflexivity; discriminate H.
Qed.

(** The body of the loop, read off [bestResult_of_bucket]: nothing is
    selected when no generated partition passes the filter with a
    feasible result; otherwise the selected result is the first winner
    of the comparator among those results. *)
Lemma bestResult_of_bucket_cases (groupTasks : list LoanTask) :
  let allResults :=
    filter Result.feasible
           (map computeLoanMatchingResult
                (filter isLoanCombinationPossible
                        (generateLoanTaskCombinations groupTasks))) in
  (allResults = [] /\ bestResult_of_bucket groupTasks = Normal None) \/
  (exists i bestResult,
      bestResult_of_bucket groupTasks = Normal (Some bestResult) /\
      winner_at allResults i bestResult).
Proof.
  cbv zeta. unfold bestResult_of_bucket.
  remember (filter isLoanCombinationPossible
                   (generateLoanTaskCombinations groupTasks)) as possible
    eqn:Hpossible.
  remember (filter Result.feasible (map computeLoanMatchingResult possible))
    as results eqn:Hresults.
  destruct results as [| r results'].
  - left. split; [reflexivity |].
    destruct (length possible =? 0)%nat; reflexivity.
  - right.
    assert ((length possible =? 0)%nat = false) as ->
      by (destruct possible; [discriminate Hresults | reflexivity]).
    cbn [length Nat.eqb].
    assert (Hf : Forall (fun r => Result.feasible r = true) (r :: results')).
    { rewrite Hresults. apply Forall_forall. intros x Hx.
      apply filter_In in Hx. apply Hx. }
    destruct (best_of_feasible r results' Hf) as (i & w & -> & Hwin).
    exists i, w. split; [reflexivity | exact Hwin].
Qed.

Lemma feasible_positive (c : list (list LoanTask)) :
  Result.feasible (computeLoanMatchingResult c) = true <->
  0 < Result.totalMatchedAmount (computeLoanMatchingResult c).
Proof.
  unfold computeLoanMatchingResult. simpl.
  destruct (Z.gtb_spec (Acc.totalMatchedAmount
                          (fold_left process_matching c initial_acc)) 0);
    split; intros; try reflexivity; try discriminate; lia.
Qed.

Lemma result_groups (c : list (list LoanTask)) :
  map Matching.loanTasks (Result.matchings (computeLoanMatchingResult c)) = c.
Proof.
  rewrite result_matchings, map_map.
  induction c as [| g c IH]; [reflexivity |].
  simpl. rewrite IH.
  destruct (process_matching_cases g) as (_ & -> & _). reflexivity.
Qed.

(** X18: when the loop body of [processBatch] selects a result for a
    bucket, it is the feasible result of a generated partition that
    passed the filter, and no generated partition that passes the filter
    matches a larger total amount. *)
Theorem bucket_selects_largest_match (groupTasks : list LoanTask)
    (bestResult : LoanMatchingResult) :
  bestResult_of_bucket groupTasks = Normal (Some bestResult) ->
  (exists c, In c (generateLoanTaskCombinations groupTasks) /\
             isLoanCombinationPossible c = true /\
             bestResult = computeLoanMatchingResult c) /\
  Result.feasible bestResult = true /\
  (forall c, In c (generateLoanTaskCombinations groupTasks) ->
             isLoanCombinationPossible c = true ->
             Result.totalMatchedAmount (computeLoanMatchingResult c)
             <= Result.totalMatchedAmount bestResult).
Proof.
  intros Hbest.
  destruct (bestResult_of_bucket_cases groupTasks)
    as [(_ & Hnone) | (i & w & Hw & Hi & Hmax & _)]; [congruence |].
  assert (w = bestResult) as -> by congruence.
  apply nth_error_In, allResults_In in Hi.
  destruct Hi as (c & Hc & Hp & Heq & Hf).
  split; [exists c; auto |]. split; [exact Hf |].
  intros c' Hc' Hp'.
  destruct (Result.feasible (computeLoanMatchingResult c')) eqn:Hf'.
  - assert (Hin : In (computeLoanMatchingResult c')
                     (filter Result.feasible
                        (map computeLoanMatchingResult
                           (filter isLoanCombinationPossible
                              (generateLoanTaskCombinations groupTasks)))))
      by (apply allResults_In; exists c'; auto).
    apply In_nth_error in Hin. destruct Hin as (j & Hj).
    specialize (Hmax j _ Hj). unfold strictly_better in Hmax. lia.
  - rewrite Heq in Hf. apply feasible_positive in Hf. rewrite <- Heq in Hf.
    assert (~ 0 < Result.totalMatchedAmount (computeLoanMatchingResult c')).
    { intros Hpos. apply feasible_positive in Hpos. congruence. }
    lia.
Qed.

Lemma bucket_selects_largest_match_witness :
  (exists c, In c (generateLoanTaskCombinations mixed_maturity_group) /\
             isLoanCombinationPossible c = true /\
             computeLoanMatchingResult [mixed_maturity_group]
             = computeLoanMatchingResult c) /\
  Result.feasible (computeLoanMatchingResult [mixed_maturity_group]) = true /\
  (forall c, In c (generateLoanTaskCombinations mixed_maturity_group) ->
             isLoanCombinationPossible c = true ->
             Result.totalMatchedAmount (computeLoanMatchingResult c)
             <= Result.totalMatchedAmount
                  (computeLoanMatchingResult [mixed_maturity_group])).
Proof.
  apply (bucket_selects_largest_match mixed_maturity_group
           (computeLoanMatchingResult [mixed_maturity_group])).
  vm_compute. reflexivity.
Defined.

(** Where a selected result comes from. *)
Lemma bestResult_of_bucket_source (groupTasks : list LoanTask)
    (bestResult : LoanMatchingResult) :
  bestResult_of_bucket groupTasks = Normal (Some bestResult) ->
  groupTasks <> [] /\
  Result.feasible bestResult = true /\
  exists c, In c (generateLoanTaskCombinations groupTasks) /\
            isLoanCombinationPossible c = true /\
            bestResult = computeLoanMatchingResult c.
Proof.
  intros Hbest.
  destruct (bestResult_of_bucket_cases groupTasks)
    as [(_ & Hnone) | (i & w & Hw & Hi & _)]; [congruence |].
  assert (w = bestResult) as -> by congruence.
  apply nth_error_In, allResults_In in Hi.
  destruct Hi as (c & Hc & Hp & Heq & Hf).
  split; [intros ->; destruct Hc |]. split; [exact Hf |].
  exists c. auto.
Qed.

(** X19: with distinct ids, an iteration of the loop of [processBatch]
    either leaves the two arrays as they are, or appends the transfers of
    the selected result and every order of the bucket exactly once, the
    matched and the unmatched alike. *)
Theorem bucket_reports_every_order
    (collected collected' : Collected.t) (maturity : Z)
    (groupTasks : list LoanTask) :
  NoDup (map Task.taskId groupTasks) ->
  processBatch_bucket collected maturity groupTasks = Normal collected' ->
  collected' = collected \/
  exists bestResult matched,
    bestResult_of_bucket groupTasks = Normal (Some bestResult) /\
    Collected.allTransfers collected'
    = Collected.allTransfers collected ++ computeLoanTransfers bestResult /\
    Collected.allMatchedTasks collected'
    = Collected.allMatchedTasks collected ++ matched /\
    Permutation matched groupTasks.
Proof.
  intros Hnd. unfold processBatch_bucket.
  destruct (toISOString_throws maturity); [discriminate |].
  destruct (bestResult_of_bucket groupTasks) as [[best |] | name] eqn:Hbest;
    [| intros H; injection H as <-; left; reflexivity | discriminate].
  intros H. injection H as <-. right.
  destruct (bestResult_of_bucket_source _ _ Hbest)
    as (Hne & _ & c & Hc & _ & ->).
  exists (computeLoanMatchingResult c), (concat c).
  split; [reflexivity |]. split; [reflexivity |].
  split.
  - cbn [Collected.allMatchedTasks].
    rewrite flat_map_concat_map, result_groups. reflexivity.
  - destruct (generator_enumerates groupTasks Hne Hnd) as (Hpart & _).
    apply (Hpart c Hc).
Qed.

Lemma bucket_reports_every_order_witness :
  let collected := Collected.mk [] [] in
  let collected' :=
    Collected.mk
      (computeLoanTransfers (computeLoanMatchingResult [mixed_maturity_group]))
      mixed_maturity_group in
  collected' = collected \/
  exists bestResult matched,
    bestResult_of_bucket mixed_maturity_group = Normal (Some bestResult) /\
    Collected.allTransfers collected'
    = Collected.allTransfers collected ++ computeLoanTransfers bestResult /\
    Collected.allMatchedTasks collected'
    = Collected.allMatchedTasks collected ++ matched /\
    Permutation matched mixed_maturity_group.
Proof.
  apply (bucket_reports_every_order (Collected.mk [] []) _ 100
           mixed_maturity_group).
  - unfold mixed_maturity_group, order. simpl.
    repeat constructor; simpl; intuition discriminate.
  - vm_compute. reflexivity.
Defined.

(** X20: on unsigned principals and distinct ids, the result selected
    for a bucket matches a positive amount that is at most the smaller of
    the two sides of the bucket: the sum of its lenders' principals and
    the sum of its borrowers' principals. *)
Theorem bucket_match_within_smaller_side (groupTasks : list LoanTask)
    (bestResult : LoanMatchingResult) :
  NoDup (map Task.taskId groupTasks) ->
  Forall (fun task => 0 <= Task.principalAmount task) groupTasks ->
  bestResult_of_bucket groupTasks = Normal (Some bestResult) ->
  0 < Result.totalMatchedAmount bestResult
  <= Z.min (availableAmount (lenders_of groupTasks))
           (availableAmount (borrowers_of groupTasks)).
Proof.
  intros Hnd Hnn Hbest.
  destruct (bestResult_of_bucket_source _ _ Hbest)
    as (Hne & Hf & c & Hc & _ & ->).
  destruct (generator_enumerates groupTasks Hne Hnd) as (Hpart & _).
  pose proof (partition_matched_bound groupTasks c (Hpart c Hc) Hnn) as Hb.
  apply feasible_positive in Hf. lia.
Qed.

Lemma bucket_match_within_smaller_side_witness :
  0 < Result.totalMatchedAmount
        (computeLoanMatchingResult [mixed_maturity_group])
  <= Z.min (availableAmount (lenders_of mixed_maturity_group))
           (availableAmount (borrowers_of mixed_maturity_group)).
Proof.
  apply (bucket_match_within_smaller_side mixed_maturity_group).
  - unfold mixed_maturity_group, order. simpl.
    repeat constructor; simpl; intuition discriminate.
  - unfold mixed_maturity_group, order. repeat constructor; simpl; lia.
  - vm_compute. reflexivity.
Defined.

(** The whole bucket as one group passes the filter and matches the
    smaller side, when a lender of it asks no more than a borrower of it
    offers. *)
Lemma whole_bucket_matches (groupTasks : list LoanTask) (l b : LoanTask) :
  safe_rates groupTasks ->
  single_maturity groupTasks ->
  In l (lenders_of groupTasks) -> In b (borrowers_of groupTasks) ->
  Task.interestRateBips l <= Task.interestRateBips b ->
  isLoanCombinationPossible [groupTasks] = true /\
  Result.totalMatchedAmount (computeLoanMatchingResult [groupTasks])
  = Z.min (availableAmount (lenders_of groupTasks))
          (availableAmount (borrowers_of groupTasks)).
Proof.
  intros Hsafe Hsingle Hl Hb Hrates.
  assert (HsafeL : safe_rates (lenders_of groupTasks))
    by (apply Forall_filter, Hsafe).
  assert (HsafeB : safe_rates (borrowers_of groupTasks))
    by (apply Forall_filter, Hsafe).
  assert (HneL : lenders_of groupTasks <> []) by (intros H; rewrite H in Hl; destruct Hl).
  assert (HneB : borrowers_of groupTasks <> []) by (intros H; rewrite H in Hb; destruct Hb).
  destruct (minLenderRate_attained _ HneL HsafeL) as (l0 & _ & Hlo & Hmin).
  destruct (maxBorrowerRate_attained _ HneB HsafeB) as (b0 & _ & Hhi & Hmax).
  pose proof Hl as Hl'. pose proof Hb as Hb'.
  apply filter_In in Hl'. destruct Hl' as (Hlin & Hlf).
  apply filter_In in Hb'. destruct Hb' as (Hbin & Hbf).
  apply negb_true_iff in Hbf.
  assert (Hlen : length groupTasks <> 1%nat).
  { intros Hone. destruct groupTasks as [| t [| t' rest]]; try discriminate Hone.
    destruct Hlin as [<- | []]. destruct Hbin as [<- | []]. congruence. }
  assert (Hpass : ~ fails_internal_check groupTasks).
  { intros [Hgt | Hnil].
    - rewrite Hlo, Hhi in Hgt. specialize (Hmin l Hl). specialize (Hmax b Hb).
      lia.
    - assert (Hcm : common_maturity groupTasks (Task.maturityTimestamp l)).
      { exists l, b. repeat (split; [assumption |]).
        split; [reflexivity | apply Hsingle; assumption]. }
      apply findCommonMaturities_In in Hcm. rewrite Hnil in Hcm. destruct Hcm. }
  split.
  - simpl. destruct (Nat.eqb_spec (length groupTasks) 1); [contradiction |].
    apply group_possible_on_safe_rates in Hpass; [| exact Hsafe].
    rewrite Hpass. reflexivity.
  - destruct (result_totals [groupTasks]) as (_ & _ & -> & _).
    simpl fold_left.
    destruct (process_matching_cases groupTasks) as (_ & _ & _ & _ & Hcases).
    destruct Hcases as [H | [H | H]]; decompose [and] H; clear H;
      try contradiction.
    assumption.
Qed.

(** X21: the loop body of [processBatch] matches as much as a bucket
    allows.  With distinct ids, unsigned principals, rates within
    0 .. 2^53 - 1 and one maturity for the whole bucket, as soon as some
    lender asks no more than some borrower offers and both sides hold a
    positive amount, a result is selected, and its total matched amount is
    exactly the smaller of the two sides of the bucket. *)
Theorem bucket_matches_smaller_side (groupTasks : list LoanTask)
    (l b : LoanTask) :
  NoDup (map Task.taskId groupTasks) ->
  Forall (fun task => 0 <= Task.principalAmount task) groupTasks ->
  safe_rates groupTasks ->
  single_maturity groupTasks ->
  In l (lenders_of groupTasks) -> In b (borrowers_of groupTasks) ->
  Task.interestRateBips l <= Task.interestRateBips b ->
  0 < Z.min (availableAmount (lenders_of groupTasks))
            (availableAmount (borrowers_of groupTasks)) ->
  exists bestResult,
    bestResult_of_bucket groupTasks = Normal (Some bestResult) /\
    Result.totalMatchedAmount bestResult
    = Z.min (availableAmount (lenders_of groupTasks))
            (availableAmount (borrowers_of groupTasks)).
Proof.
  intros Hnd Hnn Hsafe Hsingle Hl Hb Hrates Hpos.
  destruct (whole_bucket_matches groupTasks l b Hsafe Hsingle Hl Hb Hrates)
    as (Hpossible & Hwhole).
  assert (Hne : groupTasks <> []) by (intros ->; destruct Hl).
  destruct (generator_enumerates groupTasks Hne Hnd) as (Hpart & _ & _ & _ & Hin).
  assert (Hres : In (computeLoanMatchingResult [groupTasks])
                    (filter Result.feasible
                       (map computeLoanMatchingResult
                          (filter isLoanCombinationPossible
                             (generateLoanTaskCombinations groupTasks))))).
  { apply allResults_In. exists [groupTasks].
    repeat (split; [assumption || reflexivity |]).
    apply feasible_positive. lia. }
  destruct (bestResult_of_bucket_cases groupTasks)
    as [(Hnil & _) | (i & w & Hw & Hi & Hmax & _)].
  - rewrite Hnil in Hres. destruct Hres.
  - exists w. split; [exact Hw |].
    apply In_nth_error in Hres. destruct Hres as (j & Hj).
    specialize (Hmax j _ Hj). unfold strictly_better in Hmax.
    pose proof (bucket_upper := partition_matched_bound groupTasks).
    apply nth_error_In, allResults_In in Hi.
    destruct Hi as (c & Hc & _ & -> & _).
    specialize (bucket_upper c (Hpart c Hc) Hnn). lia.
Qed.

Lemma bucket_matches_smaller_side_witness :
  exists bestResult,
    bestResult_of_bucket five_orders = Normal (Some bestResult) /\
    Result.totalMatchedAmount bestResult
    = Z.min (availableAmount (lenders_of five_orders))
            (availableAmount (borrowers_of five_orders)).
Proof.
  apply (bucket_matches_smaller_side five_orders
           (order true 10000 500 1 "L1" 1) (order false 15000 550 1 "B1" 4)).
  - unfold five_orders, order. simpl.
    repeat constructor; simpl; intuition discriminate.
  - unfold five_orders, order. repeat constructor; simpl; lia.
  - unfold safe_rates, five_orders, order, MAX_SAFE_INTEGER.
    repeat constructor; simpl; lia.
  - intros x y Hx Hy. unfold five_orders, order in Hx, Hy. simpl in Hx, Hy.
    repeat match goal with
           | H : _ \/ _ |- _ => destruct H as [<- | H]
           | H : False |- _ => destruct H
           end; reflexivity.
  - simpl. left. reflexivity.
  - simpl. left. reflexivity.
  - simpl. lia.
  - vm_compute. reflexivity.
Defined.

(** X22: a bucket with nothing to lend or nothing to borrow (one side
    is empty or holds only zero principals) is skipped: the loop body of
    [processBatch] selects no result for it. *)
Theorem bucket_without_counterparty_skipped (groupTasks : list LoanTask) :
  NoDup (map Task.taskId groupTasks) ->
  Forall (fun task => 0 <= Task.principalAmount task) groupTasks ->
  Z.min (availableAmount (lenders_of groupTasks))
        (availableAmount (borrowers_of groupTasks)) = 0 ->
  bestResult_of_bucket groupTasks = Normal None.
Proof.
  intros Hnd Hnn Hzero.
  destruct (bestResult_of_bucket_cases groupTasks)
    as [(_ & Hnone) | (i & w & Hw & _)]; [exact Hnone |].
  exfalso.
  destruct (bestResult_of_bucket_source _ _ Hw)
    as (Hne & Hf & c & Hc & _ & ->).
  destruct (generator_enumerates groupTasks Hne Hnd) as (Hpart & _).
  pose proof (partition_matched_bound groupTasks c (Hpart c Hc) Hnn) as Hb.
  apply feasible_positive in Hf. lia.
Qed.

Lemma bucket_without_counterparty_skipped_witness :
  bestResult_of_bucket (lenders_of five_orders) = Normal None.
Proof.
  apply (bucket_without_counterparty_skipped (lenders_of five_orders)).
  - unfold five_orders, order. simpl.
    repeat constructor; simpl; intuition discriminate.
  - unfold five_orders, order. simpl. repeat constructor; simpl; lia.
  - reflexivity.
Defined.

Lemma processBatch_bucket_completion (collected : Collected.t) (maturity : Z)
    (groupTasks : list LoanTask) :
  exists collected',
    processBatch_bucket collected maturity groupTasks
    = if toISOString_throws maturity then Throw "RangeError"
      else Normal collected'.
Proof.
  unfold processBatch_bucket.
  destruct (toISOString_throws maturity); [exists collected; reflexivity |].
  destruct (bestResult_of_bucket_cases groupTasks)
    as [(_ & ->) | (i & w & -> & _)]; eexists; reflexivity.
Qed.

Lemma processBatch_loop_completion (maturityGroups : list (Z * list LoanTask)) :
  forall collected,
  exists collected',
    processBatch_loop maturityGroups collected
    = if existsb toISOString_throws (map fst maturityGroups)
      then Throw "RangeError" else Normal collected'.
Proof.
  induction maturityGroups as [| [maturity groupTasks] rest IH];
    intros collected; simpl.
  - exists collected. reflexivity.
  - destruct (processBatch_bucket_completion collected maturity groupTasks)
      as (c1 & ->).
    destruct (toISOString_throws maturity); simpl.
    + exists collected. reflexivity.
    + apply IH.
Qed.

(** The keys of the map are the maturities of the batch. *)
Lemma groupByMaturity_keys (tasks : list LoanTask) (key : Z) :
  In key (map fst (groupByMaturity tasks)) <->
  In key (map Task.maturityTimestamp tasks).
Proof.
  destruct (groupByMaturity_fold_buckets tasks [] [])
    as (_ & Hkeys & Hbuckets).
  { split; [constructor |]. split; [intros task [] | intros k bucket []]. }
  fold (groupByMaturity tasks) in Hkeys, Hbuckets. simpl in Hkeys, Hbuckets.
  split.
  - intros Hk. apply in_map_iff in Hk. destruct Hk as ([k bucket] & <- & Hin).
    destruct (Hbuckets k bucket Hin) as (Hne & Heq).
    destruct bucket as [| t bucket']; [contradiction |].
    assert (Ht : In t (filter (fun task => Task.maturityTimestamp task =? k)
                              tasks)) by (rewrite <- Heq; left; reflexivity).
    apply filter_In in Ht. destruct Ht as (Ht & Hm). apply Z.eqb_eq in Hm.
    simpl. rewrite <- Hm. apply in_map, Ht.
  - intros Hk. apply in_map_iff in Hk. destruct Hk as (t & <- & Ht).
    apply Hkeys, Ht.
Qed.

(** X23: [processBatch], up to the end of its loop, never fails on a
    missing best result; it throws exactly when the batch holds an order
    whose maturity lies beyond the range of [Date] (more than 8.64e12
    seconds from the epoch), and then with a [RangeError] from the log
    line of that order's bucket. *)
Theorem processBatch_fails_only_on_date_range (tasks : list LoanTask) :
  exists collected,
    processBatch_matches tasks
    = if existsb (fun task => toISOString_throws (Task.maturityTimestamp task))
                 tasks
      then Throw "RangeError" else Normal collected.
Proof.
  unfold processBatch_matches.
  destruct tasks as [| t tasks']; [eexists; reflexivity |].
  cbn [length Nat.eqb].
  destruct (processBatch_loop_completion (groupByMaturity (t :: tasks'))
              (Collected.mk [] [])) as (collected & ->).
  exists collected.
  assert (Hsame : existsb toISOString_throws
                          (map fst (groupByMaturity (t :: tasks')))
                  = existsb (fun task => toISOString_throws
                                           (Task.maturityTimestamp task))
                            (t :: tasks')).
  { apply eq_iff_eq_true. rewrite !existsb_exists. split.
    - intros (k & Hk & Hthrows). apply groupByMaturity_keys in Hk.
      apply in_map_iff in Hk. destruct Hk as (task & <- & Htask).
      exists task. auto.
    - intros (task & Htask & Hthrows).
      exists (Task.maturityTimestamp task). split; [| exact Hthrows].
      apply groupByMaturity_keys, in_map, Htask. }
  rewrite Hsame. reflexivity.
Qed.

Lemma share_within_principal (p M T : Z) :
  0 <= p -> 0 <= M <= T ->
  (if T >? 0 then Z.quot (p * M) T else 0) <= p.
Proof.
  intros Hp HM. destruct (Z.gtb_spec T 0) as [HT | _]; [| lia].
  destruct (quot_share_bounds p M T Hp ltac:(lia) HT) as (_ & Hle & _).
  set (q := Z.quot (p * M) T) in *. clearbody q. nia.
Qed.

(** The transfers of the result selected for a bucket of one maturity. *)
Lemma bucket_transfers_pair (key : Z) (bucket : list LoanTask)
    (bestResult : LoanMatchingResult) (t : LoanTransfer) :
  NoDup (map Task.taskId bucket) ->
  Forall (fun task => 0 <= Task.principalAmount task) bucket ->
  (forall task, In task bucket -> Task.maturityTimestamp task = key) ->
  bestResult_of_bucket bucket = Normal (Some bestResult) ->
  In t (computeLoanTransfers bestResult) ->
  pairs_two_orders bucket t.
Proof.
  intros Hnd Hnn Hkey Hbest Ht.
  destruct (bestResult_of_bucket_source _ _ Hbest)
    as (Hne & _ & c & Hc & _ & ->).
  destruct (generator_enumerates bucket Hne Hnd) as (Hpart & _).
  specialize (Hpart c Hc).
  unfold computeLoanTransfers in Ht. rewrite result_matchings in Ht.
  apply in_flat_map in Ht. destruct Ht as (m & Hm & Ht).
  apply in_map_iff in Hm. destruct Hm as (g & <- & Hg).
  apply matching_transfers_In in Ht. destruct Ht as (Hcould & Htr).
  assert (Hsub : forall u, In u g -> In u bucket).
  { intros u Hu. apply (partition_members bucket c u Hpart).
    apply in_concat. exists g. auto. }
  assert (Hgnn : Forall (fun task => 0 <= Task.principalAmount task) g).
  { apply Forall_forall. intros u Hu. rewrite Forall_forall in Hnn.
    apply Hnn, Hsub, Hu. }
  destruct (side_totals_nonneg g Hgnn) as (HaL & HaB).
  destruct (process_matching_cases g) as (_ & Htasks & HtL & HtB & Hcases).
  destruct Htr as (l & b & Hl & Hb & Hsl & Hsb & _ & Hmat & Hpos & HshL & HshB).
  rewrite Htasks in Hl, Hb.
  apply filter_In in Hl. destruct Hl as (Hl & Hlf).
  apply filter_In in Hb. destruct Hb as (Hb & Hbf).
  apply negb_true_iff in Hbf.
  assert (Hmatched : Matching.matchedAmount (group_matching g)
                     = Z.min (availableAmount (lenders_of g))
                             (availableAmount (borrowers_of g)) /\
                     Matching.maturityTimestamp (group_matching g) = key).
  { destruct Hcases as [H | [H | H]]; decompose [and] H; clear H.
    - match goal with
      | Hf : Matching.feasibility _ = NONE |- _ => rewrite Hf in Hcould
      end. discriminate Hcould.
    - match goal with
      | Hf : _ \/ _ |- _ => destruct Hf as [Hf | Hf]; rewrite Hf in Hcould
      end; discriminate Hcould.
    - split; [assumption |].
      match goal with
      | Hex : exists later, _ |- _ => destruct Hex as (later & Hcommon)
      end.
      assert (Hcm : common_maturity g
                      (Matching.maturityTimestamp (group_matching g))).
      { apply findCommonMaturities_In. rewrite Hcommon. left. reflexivity. }
      destruct Hcm as (l' & _ & Hl' & _ & _ & _ & Hml & _).
      rewrite <- Hml. apply Hkey, Hsub, Hl'. }
  destruct Hmatched as (HM & Hmk).
  assert (Hpl : 0 <= Task.principalAmount l)
    by (rewrite Forall_forall in Hgnn; apply Hgnn, Hl).
  assert (Hpb : 0 <= Task.principalAmount b)
    by (rewrite Forall_forall in Hgnn; apply Hgnn, Hb).
  exists l, b.
  split; [apply Hsub, Hl |]. split; [apply Hsub, Hb |].
  split; [exact Hlf |]. split; [exact Hbf |].
  split; [exact Hsl |]. split; [exact Hsb |].
  split; [rewrite Hmat, Hmk; apply Hkey, Hsub, Hl |].
  split; [rewrite Hmat, Hmk; apply Hkey, Hsub, Hb |].
  split; [exact Hpos |].
  unfold lenderShare in HshL. unfold borrowerShare in HshB.
  rewrite HtL, HM in HshL. rewrite HtB, HM in HshB.
  pose proof (share_within_principal (Task.principalAmount l)
                (Z.min (availableAmount (lenders_of g))
                       (availableAmount (borrowers_of g)))
                (availableAmount (lenders_of g)) Hpl ltac:(lia)) as HboundL.
  pose proof (share_within_principal (Task.principalAmount b)
                (Z.min (availableAmount (lenders_of g))
                       (availableAmount (borrowers_of g)))
                (availableAmount (borrowers_of g)) Hpb ltac:(lia)) as HboundB.
  split; lia.
Qed.

Lemma processBatch_loop_transfers (tasks : list LoanTask)
    (maturityGroups : list (Z * list LoanTask)) :
  Forall (fun task => 0 <= Task.principalAmount task) tasks ->
  buckets_sound tasks maturityGroups ->
  forall collected collected',
    (forall t, In t (Collected.allTransfers collected) ->
               pairs_two_orders tasks t) ->
    processBatch_loop maturityGroups collected = Normal collected' ->
    forall t, In t (Collected.allTransfers collected') ->
              pairs_two_orders tasks t.
Proof.
  intros Hnn.
  induction maturityGroups as [| [key bucket] rest IH];
    intros Hsound collected collected' Hinv; simpl.
  - intros H. injection H as <-. exact Hinv.
  - destruct (processBatch_bucket collected key bucket) as [c1 | name] eqn:Hb;
      [| discriminate].
    apply IH.
    + intros k b Hin. apply Hsound. right. exact Hin.
    + destruct (Hsound key bucket (or_introl eq_refl)) as (Hnd & Hmembers).
      unfold processBatch_bucket in Hb.
      destruct (toISOString_throws key); [discriminate Hb |].
      destruct (bestResult_of_bucket bucket) as [[best |] | name] eqn:Hbest;
        [| injection Hb as <-; exact Hinv | discriminate Hb].
      injection Hb as <-. cbn [Collected.allTransfers].
      intros t Ht. apply in_app_or in Ht. destruct Ht as [Ht | Ht];
        [apply Hinv, Ht |].
      assert (Hbnn : Forall (fun task => 0 <= Task.principalAmount task) bucket).
      { apply Forall_forall. intros u Hu. rewrite Forall_forall in Hnn.
        apply Hnn, Hmembers, Hu. }
      destruct (bucket_transfers_pair key bucket best t Hnd Hbnn
                  (fun task Htask => proj2 (Hmembers task Htask)) Hbest Ht)
        as (l & b & Hl & Hb' & Hrest).
      exists l, b.
      split; [apply Hmembers, Hl |]. split; [apply Hmembers, Hb' |].
      exact Hrest.
Qed.

(** X24: with distinct ids and unsigned principals, every transfer that
    [processBatch] collects for submission pairs a lender order and a
    borrower order of the batch that carry the very maturity of the
    transfer, for a positive amount that exceeds neither the lender's
    nor the borrower's principal. *)
Theorem processBatch_transfers_pair_one_maturity (tasks : list LoanTask)
    (collected : Collected.t) :
  NoDup (map Task.taskId tasks) ->
  Forall (fun task => 0 <= Task.principalAmount task) tasks ->
  processBatch_matches tasks = Normal collected ->
  forall t, In t (Collected.allTransfers collected) -> pairs_two_orders tasks t.
Proof.
  intros Hnd Hnn. unfold processBatch_matches.
  destruct (length tasks =? 0)%nat.
  - intros H. injection H as <-. intros t [].
  - apply (processBatch_loop_transfers tasks (groupByMaturity tasks) Hnn
             (groupByMaturity_sound tasks Hnd)).
    intros t [].
Qed.

Lemma processBatch_transfers_pair_one_maturity_witness :
  Forall (pairs_two_orders two_maturity_batch)
         [Transfer.mk "L1" "B1" 100 550 100; Transfer.mk "L2" "B2" 50 550 200].
Proof.
  apply Forall_forall.
  apply (processBatch_transfers_pair_one_maturity two_maturity_batch
           (Collected.mk [Transfer.mk "L1" "B1" 100 550 100;
                          Transfer.mk "L2" "B2" 50 550 200]
                         [order true 100 500 100 "L1" 1;
                          order false 200 600 100 "B1" 3;
                          order true 100 500 200 "L2" 2;
                          order false 50 600 200 "B2" 4])).
  - unfold two_maturity_batch, order. simpl.
    repeat constructor; simpl; intuition discriminate.
  - unfold two_maturity_batch, order. repeat constructor; simpl; lia.
  - vm_compute. reflexivity.
Defined.

(** ** The classification against the amounts *)

Lemma unclassified_group (g : list LoanTask) :
  ~ classified_matched (group_matching g) ->
  could_not_be_matched (Matching.feasibility (group_matching g)) = true /\
  Acc.totalMatchedAmount (process_matching initial_acc g) = 0.
Proof.
  intros Hnot.
  destruct (process_matching_cases g) as (_ & _ & _ & _ & Hcases).
  destruct Hcases as [H | [H | H]]; decompose [and] H; clear H.
  - match goal with
    | Hf : Matching.feasibility _ = NONE |- _ => rewrite Hf
    end. auto.
  - match goal with
    | Hf : _ \/ _ |- _ => destruct Hf as [Hf | Hf]; rewrite Hf
    end; auto.
  - contradiction.
Qed.

(** X25: an evaluated partition whose overall classification is [NONE]
    is empty-handed: nothing is matched, the result is infeasible, its
    efficiency and average rates are zero, and no transfer is computed
    from it. *)
Theorem unclassified_result_is_empty (combination : list (list LoanTask)) :
  let result := computeLoanMatchingResult combination in
  Result.feasibilityType result = NONE ->
  Result.totalMatchedAmount result = 0 /\
  Result.feasible result = false /\
  Result.matchingEfficiency result = 0 /\
  Result.averageLenderRate result = 0 /\
  Result.averageBorrowerRate result = 0 /\
  computeLoanTransfers result = [].
Proof.
  cbv zeta. intros Htype.
  assert (Hnone : forall g, In g combination ->
                            ~ classified_matched (group_matching g)).
  { intros g Hg Hcls.
    assert (Hex : existsb (fun m => is_feasibility FULL_MATCH m
                                    || is_feasibility PARTIAL_LENDER m
                                    || is_feasibility PARTIAL_BORROWER m)
                          (Result.matchings (computeLoanMatchingResult combination))
                  = true).
    { apply hasMatches_true. exists (group_matching g).
      split; [rewrite result_matchings; apply in_map, Hg | exact Hcls]. }
    revert Htype. unfold computeLoanMatchingResult in Hex |- *.
    cbn [Result.matchings Result.feasibilityType] in Hex |- *.
    unfold determineFeasibilityType. rewrite Hex. simpl.
    destruct (forallb _ _); [intros H; discriminate H |].
    destruct (existsb (is_feasibility PARTIAL_LENDER) _),
      (existsb (is_feasibility PARTIAL_BORROWER) _); simpl;
      intros H; discriminate H. }
  assert (HM : Acc.totalMatchedAmount
                 (fold_left process_matching combination initial_acc) = 0).
  { clear Htype. induction combination as [| g c IH]; [reflexivity |].
    rewrite fold_process_cons. unfold acc_append.
    cbn [Acc.totalMatchedAmount].
    destruct (unclassified_group g (Hnone g (or_introl eq_refl))) as (_ & ->).
    rewrite IH; [reflexivity |].
    intros g' Hg'. apply Hnone. right. exact Hg'. }
  assert (Htr : computeLoanTransfers (computeLoanMatchingResult combination) = []).
  { unfold computeLoanTransfers. rewrite result_matchings.
    clear Htype HM. induction combination as [| g c IH]; [reflexivity |].
    simpl. unfold matching_transfers at 1.
    destruct (unclassified_group g (Hnone g (or_introl eq_refl))) as (-> & _).
    simpl. apply IH. intros g' Hg'. apply Hnone. right. exact Hg'. }
  split; [| split; [| split; [| split; [| split]]]]; try exact Htr.
  all: unfold computeLoanMatchingResult; simpl; rewrite HM; try reflexivity.
  unfold bigDecimal_divide_floor, bigDecimal_zero.
  destruct (_ >? 0); reflexivity.
Qed.

Lemma unclassified_result_is_empty_witness :
  let result := computeLoanMatchingResult [no_overlap_group] in
  Result.totalMatchedAmount result = 0 /\
  Result.feasible result = false /\
  Result.matchingEfficiency result = 0 /\
  Result.averageLenderRate result = 0 /\
  Result.averageBorrowerRate result = 0 /\
  computeLoanTransfers result = [].
Proof.
  apply (unclassified_result_is_empty [no_overlap_group]).
  reflexivity.
Defined.

(** ** Batches without counterparties *)

Lemma one_sided_bucket_skipped (groupTasks : list LoanTask) :
  NoDup (map Task.taskId groupTasks) ->
  Forall (fun task => 0 <= Task.principalAmount task) groupTasks ->
  lenders_of groupTasks = [] \/ borrowers_of groupTasks = [] ->
  bestResult_of_bucket groupTasks = Normal None.
Proof.
  intros Hnd Hnn Hside.
  destruct (bestResult_of_bucket_cases groupTasks)
    as [(_ & Hnone) | (i & w & Hw & _)]; [exact Hnone |].
  exfalso.
  destruct (bestResult_of_bucket_source _ _ Hw)
    as (Hne & Hf & c & Hc & _ & ->).
  destruct (generator_enumerates groupTasks Hne Hnd) as (Hpart & _).
  pose proof (partition_matched_bound groupTasks c (Hpart c Hc) Hnn) as Hb.
  destruct (side_totals_nonneg groupTasks Hnn) as (HL & HB).
  apply feasible_positive in Hf.
  destruct Hside as [Hs | Hs]; rewrite Hs in Hb;
    change (availableAmount []) with 0 in Hb; lia.
Qed.

Lemma processBatch_loop_unchanged (tasks : list LoanTask)
    (maturityGroups : list (Z * list LoanTask)) :
  Forall (fun task => 0 <= Task.principalAmount task) tasks ->
  (forall l b, In l tasks -> In b tasks ->
               Task.isLender l = true -> Task.isLender b = false ->
               Task.maturityTimestamp l <> Task.maturityTimestamp b) ->
  buckets_sound tasks maturityGroups ->
  forall collected collected',
    processBatch_loop maturityGroups collected = Normal collected' ->
    collected' = collected.
Proof.
  intros Hnn Hapart.
  induction maturityGroups as [| [key bucket] rest IH];
    intros Hsound collected collected'; simpl.
  - intros H. injection H as <-. reflexivity.
  - destruct (Hsound key bucket (or_introl eq_refl)) as (Hnd & Hmembers).
    assert (Hbnn : Forall (fun task => 0 <= Task.principalAmount task) bucket).
    { apply Forall_forall. intros u Hu. rewrite Forall_forall in Hnn.
      apply Hnn, Hmembers, Hu. }
    assert (Hside : lenders_of bucket = [] \/ borrowers_of bucket = []).
    { destruct (lenders_of bucket) as [| l ls] eqn:HL; [left; reflexivity |].
      destruct (borrowers_of bucket) as [| b bs] eqn:HB; [right; reflexivity |].
      exfalso.
      assert (Hl : In l (lenders_of bucket)) by (rewrite HL; left; reflexivity).
      assert (Hb : In b (borrowers_of bucket)) by (rewrite HB; left; reflexivity).
      apply filter_In in Hl. destruct Hl as (Hl & Hlf).
      apply filter_In in Hb. destruct Hb as (Hb & Hbf).
      apply negb_true_iff in Hbf.
      destruct (Hmembers l Hl) as (Hlt & Hlk).
      destruct (Hmembers b Hb) as (Hbt & Hbk).
      apply (Hapart l b Hlt Hbt Hlf Hbf). congruence. }
    unfold processBatch_bucket.
    destruct (toISOString_throws key); [discriminate |].
    rewrite (one_sided_bucket_skipped bucket Hnd Hbnn Hside).
    apply IH. intros k b Hin. apply Hsound. right. exact Hin.
Qed.

(** X26: when no lender order of a batch shares its maturity with a
    borrower order, [processBatch] collects nothing: no transfer and no
    matched task, so that nothing is submitted (distinct ids, unsigned
    principals). *)
Theorem processBatch_collects_nothing_without_counterparty
    (tasks : list LoanTask) (collected : Collected.t) :
  NoDup (map Task.taskId tasks) ->
  Forall (fun task => 0 <= Task.principalAmount task) tasks ->
  (forall l b, In l tasks -> In b tasks ->
               Task.isLender l = true -> Task.isLender b = false ->
               Task.maturityTimestamp l <> Task.maturityTimestamp b) ->
  processBatch_matches tasks = Normal collected ->
  Collected.allTransfers collected = [] /\
  Collected.allMatchedTasks collected = [].
Proof.
  intros Hnd Hnn Hapart. unfold processBatch_matches.
  destruct (length tasks =? 0)%nat.
  - intros H. injection H as <-. auto.
  - intros H.
    rewrite (processBatch_loop_unchanged tasks (groupByMaturity tasks) Hnn
               Hapart (groupByMaturity_sound tasks Hnd) _ _ H).
    auto.
Qed.

Lemma processBatch_collects_nothing_without_counterparty_witness :
  Collected.allTransfers (Collected.mk [] []) = [] /\
  Collected.allMatchedTasks (Collected.mk [] []) = [].
Proof.
  apply (processBatch_collects_nothing_without_counterparty
           [order true 100 500 100 "L1" 1; order false 200 600 200 "B1" 2;
            order true 50 400 300 "L2" 3]
           (Collected.mk [] [])).
  - simpl. repeat constructor; simpl; intuition discriminate.
  - repeat constructor; simpl; lia.
  - intros l b Hl Hb Hlf Hbf. simpl in Hl, Hb.
    repeat match goal with
           | H : _ \/ _ |- _ => destruct H as [<- | H]
           | H : False |- _ => destruct H
           end; simpl in *; congruence.
  - vm_compute. reflexivity.
Defined.

(** ** What a borrower receives *)

Lemma filter_drops_all {A} (f : A -> bool) (l : list A) :
  (forall x, In x l -> f x = false) -> filter f l = [].
Proof.
  induction l as [| x l IH]; intros H; [reflexivity |].
  simpl. rewrite (H x (or_introl eq_refl)).
  apply IH. intros y Hy. apply H. right. exact Hy.
Qed.

Lemma lender_loop_borrower (m : LoanMatching) (b : LoanTask)
    (lenders : list LoanTask) (remaining : Z) (t : LoanTransfer) :
  In t (lender_loop m b lenders remaining) ->
  Transfer.borrower t = Task.sender b.
Proof.
  intros Ht. destruct (lender_loop_In _ _ _ _ _ Ht) as (l & _ & _ & Hb & _).
  exact Hb.
Qed.

(** The transfers of a group towards an address that none of its
    borrowers has, and towards the address of one of them. *)
Lemma received_from_group (m : LoanMatching) (lenders borrowers : list LoanTask)
    (who : string) :
  NoDup (map Task.sender borrowers) ->
  (forall l, In l lenders -> 0 <= lenderShare m l) ->
  (forall b, In b borrowers -> 0 <= borrowerShare m b) ->
  let sent := flat_map (fun borrower =>
                          lender_loop m borrower lenders
                            (borrowerShare m borrower)) borrowers in
  (~ In who (map Task.sender borrowers) -> received_by who sent = 0) /\
  (forall b, In b borrowers -> Task.sender b = who ->
             received_by who sent <= borrowerShare m b).
Proof.
  intros Hnd HL HB. cbv zeta. unfold received_by.
  induction borrowers as [| b0 rest IH]; [split; [reflexivity | intros b []] |].
  inversion Hnd as [| ? ? Hfresh Hnd']; subst.
  destruct (IH Hnd' (fun b Hb => HB b (or_intror Hb))) as (IHout & IHin).
  cbn [flat_map]. rewrite filter_app, total_amount_app.
  pose proof (lender_loop_total m b0 lenders HL (borrowerShare m b0)
                (HB b0 (or_introl eq_refl))) as Htotal.
  split.
  - intros Hout.
    rewrite (filter_drops_all _ (lender_loop m b0 lenders (borrowerShare m b0))).
    + rewrite IHout; [reflexivity |].
      intros Hin. apply Hout. right. exact Hin.
    + intros t Ht. rewrite (lender_loop_borrower _ _ _ _ _ Ht).
      apply String.eqb_neq. intros Heq. apply Hout. left. exact Heq.
  - intros b [<- | Hb] Hwho.
    + rewrite (filter_keeps_all _ (lender_loop m b0 lenders (borrowerShare m b0))).
      * rewrite IHout; [lia |]. rewrite <- Hwho. exact Hfresh.
      * intros t Ht. rewrite (lender_loop_borrower _ _ _ _ _ Ht).
        apply String.eqb_eq. exact Hwho.
    + rewrite (filter_drops_all _ (lender_loop m b0 lenders (borrowerShare m b0))).
      * specialize (IHin b Hb Hwho). simpl. exact IHin.
      * intros t Ht. rewrite (lender_loop_borrower _ _ _ _ _ Ht).
        apply String.eqb_neq. intros Heq. apply Hfresh.
        rewrite Heq, <- Hwho. apply in_map, Hb.
Qed.

(** The shares of an evaluated group are within the principals. *)
Lemma group_shares_within_principal (g : list LoanTask) :
  Forall (fun task => 0 <= Task.principalAmount task) g ->
  (forall l, In l g -> 0 <= lenderShare (group_matching g) l) /\
  (forall b, In b g ->
             0 <= borrowerShare (group_matching g) b <= Task.principalAmount b).
Proof.
  intros Hg. destruct (side_totals_nonneg g Hg) as (HaL & HaB).
  destruct (process_matching_cases g) as (_ & _ & HtL & HtB & Hcases).
  assert (HM : 0 <= Matching.matchedAmount (group_matching g)
               <= Matching.totalBorrowerAmount (group_matching g)).
  { rewrite HtB.
    destruct Hcases as [H | [H | H]]; decompose [and] H; clear H; lia. }
  rewrite Forall_forall in Hg.
  split.
  - intros l Hl. unfold lenderShare.
    destruct (Z.gtb_spec (Matching.totalLenderAmount (group_matching g)) 0)
      as [HT | _]; [| lia].
    apply (quot_share_bounds _ _ _ (Hg l Hl)); lia.
  - intros b Hb. unfold borrowerShare. split.
    + destruct (Z.gtb_spec (Matching.totalBorrowerAmount (group_matching g)) 0)
        as [HT | _]; [| lia].
      apply (quot_share_bounds _ _ _ (Hg b Hb)); lia.
    + apply share_within_principal; [apply Hg, Hb | exact HM].
Qed.

Lemma received_from_matching (g : list LoanTask) (who : string) :
  Forall (fun task => 0 <= Task.principalAmount task) g ->
  NoDup (map Task.sender (borrowers_of g)) ->
  let sent := matching_transfers (group_matching g) in
  (~ In who (map Task.sender (borrowers_of g)) -> received_by who sent = 0) /\
  (forall b, In b (borrowers_of g) -> Task.sender b = who ->
             received_by who sent <= borrowerShare (group_matching g) b).
Proof.
  intros Hg Hnd. cbv zeta.
  destruct (group_shares_within_principal g Hg) as (HL & HB).
  destruct (process_matching_cases g) as (_ & Htasks & _).
  unfold matching_transfers.
  destruct (could_not_be_matched _).
  - split; [reflexivity |]. intros b Hb _.
    apply filter_In in Hb. destruct Hb as (Hb & _).
    apply (HB b Hb).
  - rewrite Htasks.
    apply (received_from_group (group_matching g) (lenders_of g)
             (borrowers_of g) who Hnd).
    + intros l Hl. apply filter_In in Hl. apply HL, Hl.
    + intros b Hb. apply filter_In in Hb. apply HB, Hb.
Qed.

(** X27: no borrower is handed more than its share.  For a partition
    with unsigned principals whose borrower orders come from pairwise
    distinct addresses, the transfers computed from the evaluated result
    towards a borrower sum to at most that borrower's share of its group,
    which is at most the borrower's principal. *)
Theorem borrower_receives_within_share
    (combination : list (list LoanTask)) (g : list LoanTask) (b : LoanTask) :
  nonneg_principals combination ->
  NoDup (map Task.sender (borrowers_of (concat combination))) ->
  In g combination -> In b (borrowers_of g) ->
  received_by (Task.sender b)
              (computeLoanTransfers (computeLoanMatchingResult combination))
  <= borrowerShare (group_matching g) b /\
  borrowerShare (group_matching g) b <= Task.principalAmount b.
Proof.
  intros Hnn Hnd Hg Hb.
  split.
  - unfold computeLoanTransfers. rewrite result_matchings.
    unfold nonneg_principals in Hnn. unfold received_by.
    induction Hnn as [| g0 c Hg0 Hc IH]; [destruct Hg |].
    cbn [concat] in Hnd. rewrite borrowers_of_app, map_app in Hnd.
    pose proof (NoDup_app_remove_r _ _ Hnd) as Hnd0.
    pose proof (NoDup_app_remove_l _ _ Hnd) as Hndc.
    cbn [map flat_map]. rewrite filter_app, total_amount_app.
    destruct (received_from_matching g0 (Task.sender b) Hg0 Hnd0)
      as (Hout & Hin).
    unfold received_by in Hout, Hin, IH.
    assert (Hdisjoint : forall x, In x (map Task.sender (borrowers_of g0)) ->
                                  In x (map Task.sender (borrowers_of (concat c))) ->
                                  False).
    { intros x Hx0 Hxc. apply in_split in Hx0.
      destruct Hx0 as (pre & post & Heq). rewrite Heq in Hnd.
      rewrite <- app_assoc in Hnd. simpl in Hnd.
      apply NoDup_remove_2 in Hnd. apply Hnd.
      apply in_or_app. right. apply in_or_app. right. exact Hxc. }
    destruct Hg as [-> | Hg].
    + rewrite (filter_drops_all _ (flat_map matching_transfers
                                            (map group_matching c))).
      * specialize (Hin b Hb eq_refl). simpl. lia.
      * intros t Ht. apply in_flat_map in Ht. destruct Ht as (m & Hm & Ht).
        apply in_map_iff in Hm. destruct Hm as (g' & <- & Hg').
        apply matching_transfers_In in Ht.
        destruct Ht as (_ & l' & b' & _ & Hb' & _ & Hsb & _).
        destruct (process_matching_cases g') as (_ & Htasks & _).
        rewrite Htasks in Hb'.
        apply String.eqb_neq. intros Heq.
        apply (Hdisjoint (Task.sender b)); [apply in_map, Hb |].
        rewrite <- Heq, Hsb. apply in_map.
        apply filter_In in Hb'. apply filter_In.
        split; [apply in_concat; exists g'; tauto | tauto].
    + rewrite Hout.
      * apply (IH Hndc Hg).
      * intros Hin0. apply (Hdisjoint (Task.sender b) Hin0).
        apply in_map. apply filter_In in Hb. apply filter_In.
        split; [apply in_concat; exists g; tauto | tauto].
  - unfold nonneg_principals in Hnn. rewrite Forall_forall in Hnn.
    destruct (group_shares_within_principal g (Hnn g Hg)) as (_ & HB).
    apply filter_In in Hb. apply (HB b), Hb.
Qed.

Lemma borrower_receives_within_share_witness :
  received_by "B1" (computeLoanTransfers (computeLoanMatchingResult scenario_A))
  <= borrowerShare (group_matching five_orders)
                   (order false 15000 550 1 "B1" 4) /\
  borrowerShare (group_matching five_orders) (order false 15000 550 1 "B1" 4)
  <= 15000.
Proof.
  apply (borrower_receives_within_share scenario_A five_orders
           (order false 15000 550 1 "B1" 4)).
  - unfold nonneg_principals, scenario_A, order.
    repeat constructor; simpl; lia.
  - unfold scenario_A, order. simpl.
    repeat constructor; simpl; intuition discriminate.
  - left. reflexivity.
  - simpl. left. reflexivity.
Defined.
